(** * sjtu::linked_hashmap: a shallow embedding and its verification

    The container of [linked_hashmap.hpp] keeps every entry in one heap
    node that is threaded through two structures at once: a doubly linked
    list bounded by the sentinels [head] and [tail] (insertion order) and a
    singly linked collision chain per bucket (hash index).

    The embedding follows the source statement by statement.  Node storage
    is an explicit heap, container objects live in an object table, and the
    member functions are written in a state-and-exception monad whose
    results also record undefined behaviour (null or dangling dereference,
    remainder by zero) and exhausted loop fuel. *)

From stdpp Require Import base option list numbers gmap fin_maps.

Set Default Proof Using "Type".

(** Node addresses.  [None] plays the role of [nullptr]. *)
Abbreviation loc := positive (only parsing).
Abbreviation ptr := (option positive) (only parsing).

(** Addresses of container objects ([this], [&other]). *)
Abbreviation mref := nat (only parsing).

(** [size_t] is taken to be 64 bits wide; its arithmetic wraps. *)
Definition SIZE_MAX_plus_1 : N := 2 ^ 64.
Definition wrap (x : N) : N := x mod SIZE_MAX_plus_1.
(** [x - 1] on [size_t]. *)
Definition wrap_pred (x : N) : N := (x + (SIZE_MAX_plus_1 - 1)) mod SIZE_MAX_plus_1.

(** The two exception classes of [exceptions.hpp] thrown by this file. *)
Inductive exn := invalid_iterator | index_out_of_bound.

(** How a call ends: normally with a value, by throwing (the state at the
    throw is kept), in undefined behaviour, or with its loop fuel spent. *)
Inductive res (W A : Type) : Type :=
| Ok (a : A) (w : W)
| Raise (e : exn) (w : W)
| Undef
| Timeout.
Arguments Ok {W A} a w.
Arguments Raise {W A} e w.
Arguments Undef {W A}.
Arguments Timeout {W A}.

Section linked_hashmap.

Context {Key T : Type} `{EqDecision Key}.

(** [Hash]: any functor returning [size_t].  [Equal] is [std::equal_to],
    i.e. [==] on keys, modelled by decidable equality. *)
Variable hash_func : Key -> N.
(** [T()], the value-initialised mapped value used by [operator[]]. *)
Variable default_T : T.

Definition value_type : Type := Key * T.

(** [struct Node].  [data] owns a heap-allocated pair; the pair is never
    shared, so it is stored inline and [None] stands for [data == nullptr]. *)
Record Node := mkNode {
  data : option value_type;
  prev : ptr;
  next : ptr;
  hash_next : ptr
}.

(** The data members of [class linked_hashmap].  [buckets] points to an
    array owned by this object alone; it is stored inline. *)
Record linked_hashmap := mkMap {
  head : ptr;
  tail : ptr;
  buckets : list ptr;
  bucket_count : N;
  element_count : N
}.

(** [class iterator] and [class const_iterator] have the same two members
    and member functions with identical bodies; one record serves both. *)
Record iterator := mkIt {
  node : ptr;
  map : option mref
}.
Definition const_iterator := iterator.

#[export] Instance iterator_eq_dec : EqDecision iterator.
Proof. solve_decision. Defined.

Definition INITIAL_BUCKET_COUNT : N := 16.

(** The program state: the node heap with a bump allocator (an address is
    never handed out twice, so a pointer to a deleted node stays dangling),
    and the table of container objects. *)
Record world := mkWorld {
  nodes : gmap positive Node;
  next_loc : positive;
  maps : list linked_hashmap
}.

Definition init_world : world := mkWorld ∅ 1%positive [].

(** ** The monad *)

Definition M (A : Type) : Type := world -> res world A.

Definition ret {A} (a : A) : M A := fun w => Ok a w.
Definition bind {A B} (m : M A) (k : A -> M B) : M B := fun w =>
  match m w with
  | Ok a w' => k a w'
  | Raise e w' => Raise e w'
  | Undef => Undef
  | Timeout => Timeout
  end.
Definition throw {A} (e : exn) : M A := fun w => Raise e w.
Definition undef {A} : M A := fun _ => Undef.
Definition timeout {A} : M A := fun _ => Timeout.

Notation "x <- m ;; k" := (bind m (fun x => k))
  (at level 100, m at next level, right associativity).
Notation "m ;;; k" := (bind m (fun _ => k))
  (at level 100, right associativity).

(** ** Memory primitives *)

(** [*p] for a node pointer: null and dangling pointers are undefined. *)
Definition deref (p : ptr) : M Node := fun w =>
  match p with
  | None => Undef
  | Some x => match nodes w !! x with
              | None => Undef
              | Some n => Ok n w
              end
  end.

Definition load {A} (f : Node -> A) (p : ptr) : M A :=
  n <- deref p ;; ret (f n).

Definition store (upd : Node -> Node) (p : ptr) : M unit := fun w =>
  match p with
  | None => Undef
  | Some x => match nodes w !! x with
              | None => Undef
              | Some n => Ok tt (mkWorld (<[x := upd n]> (nodes w)) (next_loc w) (maps w))
              end
  end.

Definition set_prev (q : ptr) (n : Node) : Node := mkNode (data n) q (next n) (hash_next n).
Definition set_next (q : ptr) (n : Node) : Node := mkNode (data n) (prev n) q (hash_next n).
Definition set_hash_next (q : ptr) (n : Node) : Node := mkNode (data n) (prev n) (next n) q.
Definition set_second (v : T) (n : Node) : Node :=
  mkNode (match data n with Some (k, _) => Some (k, v) | None => None end)
         (prev n) (next n) (hash_next n).

(** [new Node(...)] *)
Definition new_Node (n : Node) : M ptr := fun w =>
  Ok (Some (next_loc w))
     (mkWorld (<[next_loc w := n]> (nodes w)) (Pos.succ (next_loc w)) (maps w)).

(** [delete p] for a non-null node pointer. *)
Definition delete_Node (p : ptr) : M unit := fun w =>
  match p with
  | None => Undef
  | Some x => match nodes w !! x with
              | None => Undef
              | Some _ => Ok tt (mkWorld (delete x (nodes w)) (next_loc w) (maps w))
              end
  end.

(** [*this] *)
Definition get_map (this : mref) : M linked_hashmap := fun w =>
  match maps w !! this with
  | None => Undef
  | Some m => Ok m w
  end.

Definition put_map (this : mref) (m : linked_hashmap) : M unit := fun w =>
  match maps w !! this with
  | None => Undef
  | Some _ => Ok tt (mkWorld (nodes w) (next_loc w) (<[this := m]> (maps w)))
  end.

(** Placement of a freshly constructed container object. *)
Definition new_map (m : linked_hashmap) : M mref := fun w =>
  Ok (length (maps w)) (mkWorld (nodes w) (next_loc w) (maps w ++ [m])).

(** [n->data->first] and friends dereference [data]. *)
Definition deref_data (n : Node) : M value_type :=
  match data n with
  | None => undef
  | Some kv => ret kv
  end.

(** [hash_func(key) % bucket_count] *)
Definition bucket_index (m : linked_hashmap) (key : Key) : M N :=
  if decide (bucket_count m = 0%N) then undef
  else ret (hash_func key mod bucket_count m)%N.

(** [buckets[idx]] as an rvalue. *)
Definition bucket_get (m : linked_hashmap) (idx : N) : M ptr :=
  match buckets m !! N.to_nat idx with
  | None => undef
  | Some p => ret p
  end.

Definition set_buckets (bs : list ptr) (m : linked_hashmap) : linked_hashmap :=
  mkMap (head m) (tail m) bs (bucket_count m) (element_count m).
Definition set_element_count (c : N) (m : linked_hashmap) : linked_hashmap :=
  mkMap (head m) (tail m) (buckets m) (bucket_count m) c.

(** [buckets[idx] = p] *)
Definition bucket_set (this : mref) (idx : N) (p : ptr) : M unit :=
  m <- get_map this ;;
  if decide (N.to_nat idx < length (buckets m))
  then put_map this (set_buckets (<[N.to_nat idx := p]> (buckets m)) m)
  else undef.

(** Loops run on fuel.  A loop over a chain of distinct live nodes needs at
    most one round per node, so every caller supplies this much. *)
Definition get_fuel : M nat := fun w => Ok (S (size (nodes w))) w.

(** ** Private member functions *)

(** [init_buckets(count)]: a fresh array of [count] null bucket heads. *)
Definition init_buckets (this : mref) (count : N) : M unit :=
  m <- get_map this ;;
  put_map this (mkMap (head m) (tail m) (replicate (N.to_nat count) None)
                      count (element_count m)).

(** The [while (curr != tail)] loop of [rehash]. *)
Fixpoint rehash_loop (fuel : nat) (this : mref) (curr : ptr) : M unit :=
  match fuel with
  | O => timeout
  | S fuel' =>
    m <- get_map this ;;
    if decide (curr = tail m) then ret tt
    else
      n <- deref curr ;;
      kv <- deref_data n ;;
      idx <- bucket_index m (fst kv) ;;
      b <- bucket_get m idx ;;
      store (set_hash_next b) curr ;;;
      bucket_set this idx curr ;;;
      nx <- load next curr ;;
      rehash_loop fuel' this nx
  end.

(** [rehash(new_bucket_count)].  The old array is dropped with the record
    field that held it ([delete[] old_buckets]). *)
Definition rehash (this : mref) (new_bucket_count : N) : M unit :=
  init_buckets this new_bucket_count ;;;
  m <- get_map this ;;
  curr <- load next (head m) ;;
  fuel <- get_fuel ;;
  rehash_loop fuel this curr.

(** [element_count > bucket_count * MAX_LOAD_FACTOR] with
    [MAX_LOAD_FACTOR = 0.75].  The source compares in [double]; for counts
    below 2^53 both sides are exact, and the test is [4 * n > 3 * b]. *)
Definition over_load_factor (m : linked_hashmap) : bool :=
  bool_decide (3 * bucket_count m < 4 * element_count m)%N.

Definition check_and_rehash (this : mref) : M unit :=
  m <- get_map this ;;
  if over_load_factor m then rehash this (wrap (bucket_count m * 2))
  else ret tt.

(** The [while (curr)] loop of [find_node]. *)
Fixpoint find_node_loop (fuel : nat) (key : Key) (curr : ptr) : M ptr :=
  match fuel with
  | O => timeout
  | S fuel' =>
    match curr with
    | None => ret None
    | Some _ =>
      n <- deref curr ;;
      kv <- deref_data n ;;
      if decide (fst kv = key) then ret curr
      else find_node_loop fuel' key (hash_next n)
    end
  end.

Definition find_node (this : mref) (key : Key) : M ptr :=
  m <- get_map this ;;
  idx <- bucket_index m key ;;
  curr <- bucket_get m idx ;;
  fuel <- get_fuel ;;
  find_node_loop fuel key curr.

(** ** Iterators *)

Definition default_iterator : iterator := mkIt None None.

(** [map->tail], [map->head] through the iterator's container pointer. *)
Definition map_of (it : iterator) : M linked_hashmap :=
  match map it with
  | None => undef
  | Some a => get_map a
  end.

(** [operator++()]: the result is the new value of [*this]. *)
Definition incr (it : iterator) : M iterator :=
  match node it with
  | None => throw invalid_iterator
  | Some _ =>
    m <- map_of it ;;
    if decide (node it = tail m) then throw invalid_iterator
    else nx <- load next (node it) ;; ret (mkIt nx (map it))
  end.

(** [operator++(int)]: the returned copy, and the new value of [*this]. *)
Definition post_incr (it : iterator) : M (iterator * iterator) :=
  match node it with
  | None => throw invalid_iterator
  | Some _ =>
    m <- map_of it ;;
    if decide (node it = tail m) then throw invalid_iterator
    else
      let temp := it in
      nx <- load next (node it) ;; ret (temp, mkIt nx (map it))
  end.

(** [operator--()] *)
Definition decr (it : iterator) : M iterator :=
  match node it with
  | None => throw invalid_iterator
  | Some _ =>
    pv <- load prev (node it) ;;
    m <- map_of it ;;
    if decide (pv = head m) then throw invalid_iterator
    else pv' <- load prev (node it) ;; ret (mkIt pv' (map it))
  end.

(** [operator--(int)] *)
Definition post_decr (it : iterator) : M (iterator * iterator) :=
  match node it with
  | None => throw invalid_iterator
  | Some _ =>
    pv <- load prev (node it) ;;
    m <- map_of it ;;
    if decide (pv = head m) then throw invalid_iterator
    else
      let temp := it in
      pv' <- load prev (node it) ;; ret (temp, mkIt pv' (map it))
  end.

(** [operator*] and [operator->]: no check at all in the source. *)
Definition star (it : iterator) : M value_type :=
  n <- deref (node it) ;; deref_data n.

(** [operator==] and [operator!=], in all four iterator/const_iterator
    combinations. *)
Definition iter_eq (a b : iterator) : bool :=
  bool_decide (node a = node b) && bool_decide (map a = map b).
Definition iter_neq (a b : iterator) : bool := negb (iter_eq a b).

(** The [const_iterator] members are the same functions. *)
Definition const_incr : const_iterator -> M const_iterator := incr.
Definition const_post_incr : const_iterator -> M (const_iterator * const_iterator) := post_incr.
Definition const_decr : const_iterator -> M const_iterator := decr.
Definition const_post_decr : const_iterator -> M (const_iterator * const_iterator) := post_decr.
Definition const_star : const_iterator -> M value_type := star.

(** ** Public member functions *)

Definition begin (this : mref) : M iterator :=
  m <- get_map this ;; hn <- load next (head m) ;; ret (mkIt hn (Some this)).
Definition cbegin : mref -> M const_iterator := begin.

(** [end()] and [cend()] *)
Definition end_ (this : mref) : M iterator :=
  m <- get_map this ;; ret (mkIt (tail m) (Some this)).
Definition cend : mref -> M const_iterator := end_.

Definition empty (this : mref) : M bool :=
  m <- get_map this ;; ret (bool_decide (element_count m = 0%N)).

Definition size (this : mref) : M N :=
  m <- get_map this ;; ret (element_count m).

(** [insert(value)] *)
Definition insert (this : mref) (value : value_type) : M (iterator * bool) :=
  existing <- find_node this (fst value) ;;
  match existing with
  | Some _ => ret (mkIt existing (Some this), false)
  | None =>
    check_and_rehash this ;;;
    new_node <- new_Node (mkNode (Some value) None None None) ;;
    m <- get_map this ;;
    tp <- load prev (tail m) ;;
    store (set_prev tp) new_node ;;;
    store (set_next (tail m)) new_node ;;;
    tp' <- load prev (tail m) ;;
    store (set_next new_node) tp' ;;;
    store (set_prev new_node) (tail m) ;;;
    idx <- bucket_index m (fst value) ;;
    b <- bucket_get m idx ;;
    store (set_hash_next b) new_node ;;;
    bucket_set this idx new_node ;;;
    m' <- get_map this ;;
    put_map this (set_element_count (wrap (element_count m' + 1)) m') ;;;
    ret (mkIt new_node (Some this), true)
  end.

(** A [Node **]: the address of a bucket head or of a [hash_next] field. *)
Inductive place :=
| bucket_place (idx : N)
| hash_next_place (p : ptr).

Definition read_place (this : mref) (pl : place) : M ptr :=
  match pl with
  | bucket_place idx => m <- get_map this ;; bucket_get m idx
  | hash_next_place p => load hash_next p
  end.

Definition write_place (this : mref) (pl : place) (v : ptr) : M unit :=
  match pl with
  | bucket_place idx => bucket_set this idx v
  | hash_next_place p => store (set_hash_next v) p
  end.

(** The bucket-chain scan of [erase], which follows [curr_ptr]. *)
Fixpoint erase_loop (fuel : nat) (this : mref) (nd : ptr) (curr_ptr : place) : M unit :=
  match fuel with
  | O => timeout
  | S fuel' =>
    c <- read_place this curr_ptr ;;
    match c with
    | None => ret tt
    | Some _ =>
      if decide (c = nd) then
        hn <- load hash_next nd ;; write_place this curr_ptr hn
      else erase_loop fuel' this nd (hash_next_place c)
    end
  end.

(** [erase(pos)] *)
Definition erase (this : mref) (pos : iterator) : M unit :=
  m <- get_map this ;;
  if decide (map pos <> Some this \/ node pos = tail m \/ node pos = head m)
  then throw invalid_iterator
  else
    let nd := node pos in
    pv <- load prev nd ;;
    nx <- load next nd ;;
    store (set_next nx) pv ;;;
    nx' <- load next nd ;;
    pv' <- load prev nd ;;
    store (set_prev pv') nx' ;;;
    n <- deref nd ;;
    kv <- deref_data n ;;
    idx <- bucket_index m (fst kv) ;;
    _ <- bucket_get m idx ;;
    fuel <- get_fuel ;;
    erase_loop fuel this nd (bucket_place idx) ;;;
    delete_Node nd ;;;
    m' <- get_map this ;;
    put_map this (set_element_count (wrap_pred (element_count m')) m').

Definition count (this : mref) (key : Key) : M N :=
  nd <- find_node this key ;;
  ret (match nd with Some _ => 1%N | None => 0%N end).

Definition find (this : mref) (key : Key) : M iterator :=
  nd <- find_node this key ;;
  match nd with
  | Some _ => ret (mkIt nd (Some this))
  | None => end_ this
  end.
Definition find_const : mref -> Key -> M const_iterator := find.

(** A [T &] into a node: it designates [node->data->second]. *)
Definition read_ref (r : ptr) : M T :=
  n <- deref r ;; kv <- deref_data n ;; ret (snd kv).
Definition write_ref (r : ptr) (v : T) : M unit :=
  n <- deref r ;; _ <- deref_data n ;; store (set_second v) r.

(** [at(key)], in its two variants. *)
Definition at_ (this : mref) (key : Key) : M ptr :=
  nd <- find_node this key ;;
  match nd with
  | None => throw index_out_of_bound
  | Some _ => n <- deref nd ;; _ <- deref_data n ;; ret nd
  end.
Definition at_const : mref -> Key -> M ptr := at_.

(** [operator[](key)] *)
Definition index (this : mref) (key : Key) : M ptr :=
  nd <- find_node this key ;;
  match nd with
  | Some _ => n <- deref nd ;; _ <- deref_data n ;; ret nd
  | None =>
    let val := (key, default_T) in
    result <- insert this val ;;
    n <- deref (node (fst result)) ;; _ <- deref_data n ;;
    ret (node (fst result))
  end.

(** [operator[](key) const] *)
Definition index_const (this : mref) (key : Key) : M ptr := at_const this key.

(** The two loops of [clear()]. *)
Fixpoint clear_loop (fuel : nat) (this : mref) (curr : ptr) : M unit :=
  match fuel with
  | O => timeout
  | S fuel' =>
    m <- get_map this ;;
    if decide (curr = tail m) then ret tt
    else
      nx <- load next curr ;;
      delete_Node curr ;;;
      clear_loop fuel' this nx
  end.

Fixpoint null_buckets (rounds : nat) (this : mref) (i : N) : M unit :=
  match rounds with
  | O => ret tt
  | S rounds' => bucket_set this i None ;;; null_buckets rounds' this (i + 1)%N
  end.

Definition clear (this : mref) : M unit :=
  m <- get_map this ;;
  curr <- load next (head m) ;;
  fuel <- get_fuel ;;
  clear_loop fuel this curr ;;;
  store (set_next (tail m)) (head m) ;;;
  store (set_prev (head m)) (tail m) ;;;
  put_map this (set_element_count 0 m) ;;;
  null_buckets (N.to_nat (bucket_count m)) this 0.

(** [linked_hashmap()] *)
Definition construct : M mref :=
  h <- new_Node (mkNode None None None None) ;;
  t <- new_Node (mkNode None None None None) ;;
  this <- new_map (mkMap h t [] 0 0) ;;
  store (set_next t) h ;;;
  store (set_prev h) t ;;;
  init_buckets this INITIAL_BUCKET_COUNT ;;;
  ret this.

(** The copying loop shared by the copy constructor and [operator=]. *)
Fixpoint copy_loop (fuel : nat) (this other : mref) (curr : ptr) : M unit :=
  match fuel with
  | O => timeout
  | S fuel' =>
    o <- get_map other ;;
    if decide (curr = tail o) then ret tt
    else
      n <- deref curr ;;
      kv <- deref_data n ;;
      insert this kv ;;;
      nx <- load next curr ;;
      copy_loop fuel' this other nx
  end.

(** [linked_hashmap(const linked_hashmap &other)].  The argument refers to
    an object that has been constructed already: copying from the very
    object under construction would read its uninitialised members. *)
Definition copy_construct (other : mref) : M mref :=
  _ <- get_map other ;;
  h <- new_Node (mkNode None None None None) ;;
  t <- new_Node (mkNode None None None None) ;;
  this <- new_map (mkMap h t [] 0 0) ;;
  store (set_next t) h ;;;
  store (set_prev h) t ;;;
  o <- get_map other ;;
  init_buckets this (bucket_count o) ;;;
  o' <- get_map other ;;
  curr <- load next (head o') ;;
  fuel <- get_fuel ;;
  copy_loop fuel this other curr ;;;
  ret this.

(** [operator=(const linked_hashmap &other)] *)
Definition assign (this other : mref) : M unit :=
  _ <- get_map this ;;
  _ <- get_map other ;;
  if decide (this = other) then ret tt
  else
    clear this ;;;
    o <- get_map other ;;
    curr <- load next (head o) ;;
    fuel <- get_fuel ;;
    copy_loop fuel this other curr.

(** Client code: walk from [begin()] to [end()] with [!=], [operator*]
    and [operator++], collecting the entries met. *)
Fixpoint iterate (fuel : nat) (it e : iterator) : M (list value_type) :=
  match fuel with
  | O => timeout
  | S fuel' =>
    if iter_neq it e then
      v <- star it ;;
      it' <- incr it ;;
      rest <- iterate fuel' it' e ;;
      ret (v :: rest)
    else ret []
  end.

Definition to_list (this : mref) : M (list value_type) :=
  b <- begin this ;;
  e <- end_ this ;;
  fuel <- get_fuel ;;
  iterate fuel b e.

(** ** Client programs

    A position can only be produced by the public interface ([Node] is a
    private type): from a default constructor, [begin], [end], [find], and
    by stepping another position. *)
Inductive pos_expr :=
| PDefault
| PBegin (a : mref)
| PEnd (a : mref)
| PFind (a : mref) (k : Key)
| PNext (e : pos_expr)
| PPrev (e : pos_expr).

Fixpoint eval_pos (e : pos_expr) : M iterator :=
  match e with
  | PDefault => ret default_iterator
  | PBegin a => begin a
  | PEnd a => end_ a
  | PFind a k => find a k
  | PNext e' => it <- eval_pos e' ;; incr it
  | PPrev e' => it <- eval_pos e' ;; decr it
  end.

(** The position was obtained from some container. *)
Fixpoint from_container (e : pos_expr) : bool :=
  match e with
  | PDefault => false
  | PBegin _ | PEnd _ | PFind _ _ => true
  | PNext e' | PPrev e' => from_container e'
  end.

(** The state-changing calls a client can make. *)
Inductive op :=
| OConstruct                                   (* linked_hashmap m;        *)
| OCopy (other : mref)                         (* linked_hashmap m(other); *)
| OAssign (this other : mref)                  (* this = other;            *)
| OInsert (this : mref) (k : Key) (v : T)      (* this.insert({k, v});     *)
| OErase (this : mref) (e : pos_expr)          (* this.erase(e);           *)
| OClear (this : mref)                         (* this.clear();            *)
| OIndex (this : mref) (k : Key) (v : T)       (* this[k] = v;             *)
| OAt (this : mref) (k : Key) (v : T).         (* this.at(k) = v;          *)

Definition run_op (o : op) : M unit :=
  match o with
  | OConstruct => construct ;;; ret tt
  | OCopy other => copy_construct other ;;; ret tt
  | OAssign this other => assign this other
  | OInsert this k v => insert this (k, v) ;;; ret tt
  | OErase this e => pos <- eval_pos e ;; erase this pos
  | OClear this => clear this
  | OIndex this k v => r <- index this k ;; write_ref r v
  | OAt this k v => r <- at_ this k ;; write_ref r v
  end.

(** A program is a list of calls; a thrown exception is caught by the
    client, which carries on in the state the throw left behind.
    Undefined behaviour or a spent fuel budget ends the run. *)
Fixpoint exec (ops : list op) (w : world) : option world :=
  match ops with
  | [] => Some w
  | o :: ops' =>
    match run_op o w with
    | Ok _ w' => exec ops' w'
    | Raise _ w' => exec ops' w'
    | Undef => None
    | Timeout => None
    end
  end.

(** ** The abstract container

    What the interface promises, on plain lists: one list of entries per
    container, in iteration order.  A position is a container and an index
    into its list ([length] being the past-the-end position). *)

Definition has_key (k : Key) (es : list value_type) : bool :=
  bool_decide (k ∈ es.*1).

(** Index of the entry with key [k], or [length es]. *)
Fixpoint key_index (k : Key) (es : list value_type) : nat :=
  match es with
  | [] => 0
  | e :: es' => if decide (fst e = k) then 0 else S (key_index k es')
  end.

Definition m_insert (k : Key) (v : T) (es : list value_type) : list value_type :=
  if has_key k es then es else es ++ [(k, v)].

Definition m_write (k : Key) (v : T) (es : list value_type) : list value_type :=
  (fun e : value_type => if decide (fst e = k) then (fst e, v) else e) <$> es.

Definition m_index (k : Key) (v : T) (es : list value_type) : list value_type :=
  m_write k v (m_insert k default_T es).

Inductive apos :=
| ADefault
| AAt (a : mref) (i : nat).

(** [None]: the evaluation throws. *)
Fixpoint m_eval (e : pos_expr) (ms : list (list value_type)) : option apos :=
  match e with
  | PDefault => Some ADefault
  | PBegin a => Some (AAt a 0)
  | PEnd a => Some (AAt a (length (ms !!! a)))
  | PFind a k => Some (AAt a (key_index k (ms !!! a)))
  | PNext e' =>
    match m_eval e' ms with
    | Some (AAt a i) => if decide (i < length (ms !!! a)) then Some (AAt a (S i)) else None
    | _ => None
    end
  | PPrev e' =>
    match m_eval e' ms with
    | Some (AAt a (S i)) => Some (AAt a i)
    | _ => None
    end
  end.

Definition m_erase (this : mref) (p : option apos) (ms : list (list value_type))
  : list (list value_type) :=
  match p with
  | Some (AAt a i) =>
    if decide (a = this) then <[this := delete i (ms !!! this)]> ms else ms
  | _ => ms
  end.

Definition m_step (o : op) (ms : list (list value_type)) : list (list value_type) :=
  match o with
  | OConstruct => ms ++ [[]]
  | OCopy other => ms ++ [ms !!! other]
  | OAssign this other => <[this := ms !!! other]> ms
  | OInsert this k v => <[this := m_insert k v (ms !!! this)]> ms
  | OErase this e => m_erase this (m_eval e ms) ms
  | OClear this => <[this := []]> ms
  | OIndex this k v => <[this := m_index k v (ms !!! this)]> ms
  | OAt this k v => <[this := m_write k v (ms !!! this)]> ms
  end.

Definition m_exec (ops : list op) (ms : list (list value_type)) : list (list value_type) :=
  foldl (fun ms o => m_step o ms) ms ops.

(** ** Representation invariant *)

(** Field [f] of the node at [x], if that node is live. *)
Definition fld {A} (f : Node -> A) (h : gmap positive Node) (x : positive) : option A :=
  f <$> h !! x.

(** Following the pointer field [F] from [p] walks exactly the nodes [l]
    and arrives at [q]. *)
Fixpoint chain (F : positive -> option ptr) (p : ptr) (l : list positive) (q : ptr) : Prop :=
  match l with
  | [] => p = q
  | x :: l' => p = Some x /\ exists y, F x = Some y /\ chain F y l' q
  end.

Definition entry_of (h : gmap positive Node) (x : positive) : option (Key * T) :=
  match h !! x with
  | Some n => data n
  | None => None
  end.

Definition key_of (h : gmap positive Node) (x : positive) : option Key :=
  fst <$> entry_of h x.

(** The entries held by the nodes [l], in that order. *)
Definition entries (h : gmap positive Node) (l : list positive) : list value_type :=
  omap (entry_of h) l.

Definition bucket_of (m : linked_hashmap) (k : Key) : nat :=
  N.to_nat (hash_func k mod bucket_count m).

(** The order list of the object [m] in heap [h]: the sentinels are [hd]
    and [tl], and the nodes [l] sit between them, linked both ways, each
    holding an entry, no two with the same key. *)
Record rep_list (h : gmap positive Node) (m : linked_hashmap)
    (hd tl : positive) (l : list positive) : Prop := {
  rl_head : head m = Some hd;
  rl_tail : tail m = Some tl;
  rl_nodup : NoDup (hd :: l ++ [tl]);
  rl_next : chain (fld next h) (Some hd) (hd :: l ++ [tl]) None;
  rl_prev : chain (fld prev h) (Some tl) (tl :: reverse l ++ [hd]) None;
  rl_data_hd : entry_of h hd = None;
  rl_data_tl : entry_of h tl = None;
  rl_data : forall x, x ∈ l -> is_Some (entry_of h x);
  rl_keys : forall x y k, x ∈ l -> y ∈ l ->
              key_of h x = Some k -> key_of h y = Some k -> x = y;
  rl_count : element_count m = N.of_nat (length l)
}.

(** The hash index: bucket [i] chains exactly the nodes [cs !! i], which
    are the nodes of [l] whose key hashes to [i]. *)
Record rep_index (h : gmap positive Node) (m : linked_hashmap)
    (l : list positive) (cs : list (list positive)) : Prop := {
  ri_bc : bucket_count m = N.of_nat (length (buckets m));
  ri_bc_pos : bucket_count m <> 0%N;
  ri_len : length cs = length (buckets m);
  ri_chain : forall i b c, buckets m !! i = Some b -> cs !! i = Some c ->
               chain (fld hash_next h) b c None;
  ri_nodup : forall i c, cs !! i = Some c -> NoDup c;
  ri_mem : forall i c x, cs !! i = Some c ->
             (x ∈ c <-> x ∈ l /\ exists k, key_of h x = Some k /\ bucket_of m k = i)
}.

Definition rep (h : gmap positive Node) (m : linked_hashmap)
    (hd tl : positive) (l : list positive) (cs : list (list positive)) : Prop :=
  rep_list h m hd tl l /\ rep_index h m l cs.

(** Capacity: a power of two from 16 up, kept within one element of the
    load factor. *)
Record sized (m : linked_hashmap) : Prop := {
  sized_pow2 : exists k : N, (4 <= k <= 63)%N /\ bucket_count m = (2 ^ k)%N;
  sized_load : (4 * element_count m <= 3 * bucket_count m + 4)%N
}.

(** Node [x] belongs to the container [m] with order list [l]. *)
Definition owns (m : linked_hashmap) (l : list positive) (x : positive) : Prop :=
  head m = Some x \/ tail m = Some x \/ x ∈ l.

(** Every container of the world is well formed, with order lists [ls];
    no node belongs to two containers; the allocator is ahead of the heap. *)
Record winv (w : world) (ls : list (list positive)) : Prop := {
  winv_len : length ls = length (maps w);
  winv_rep : forall a m l, maps w !! a = Some m -> ls !! a = Some l ->
               (exists hd tl cs, rep (nodes w) m hd tl l cs) /\ sized m;
  winv_disj : forall a b ma mb la lb x, a <> b ->
                maps w !! a = Some ma -> maps w !! b = Some mb ->
                ls !! a = Some la -> ls !! b = Some lb ->
                owns ma la x -> owns mb lb x -> False;
  winv_fresh : forall x, is_Some (nodes w !! x) -> (x < next_loc w)%positive
}.

(** The world [w] implements the abstract state [ms]. *)
Definition sim (w : world) (ms : list (list value_type)) : Prop :=
  exists ls, winv w ls /\ ms = entries (nodes w) <$> ls.

(** Heap [h'] differs from [h] in [hash_next] fields at most. *)
Definition same_lists (h h' : gmap positive Node) : Prop :=
  forall x, fld data h' x = fld data h x /\
            fld next h' x = fld next h x /\
            fld prev h' x = fld prev h x.

(** The nodes of [l] whose key hashes to bucket [i], in list order. *)
Definition in_bucket (h : gmap positive Node) (m : linked_hashmap) (i : nat)
    (x : positive) : Prop :=
  bucket_of m <$> key_of h x = Some i.

#[export] Instance in_bucket_dec h m i x : Decision (in_bucket h m i x).
Proof. unfold in_bucket. apply _. Defined.

Definition bucket_nodes (h : gmap positive Node) (m : linked_hashmap) (i : nat)
    (l : list positive) : list positive :=
  filter (in_bucket h m i) l.

(** The capacity cannot be doubled any more: [bucket_count * 2] wraps to
    zero, and the rehash that is due divides by it. *)
Definition full (m : linked_hashmap) : Prop :=
  over_load_factor m = true /\ bucket_count m = (2 ^ 63)%N.

#[export] Instance full_dec m : Decision (full m).
Proof. unfold full. apply _. Defined.

(** A concrete position and the abstract position it stands for. *)
Definition pos_rel (w : world) (ls : list (list positive)) (it : iterator) (p : apos) : Prop :=
  match p with
  | ADefault => it = default_iterator
  | AAt a i =>
    exists m l tl x, maps w !! a = Some m /\ ls !! a = Some l /\ tail m = Some tl /\
      (l ++ [tl]) !! i = Some x /\ it = mkIt (Some x) (Some a)
  end.

(** The containers a position expression or a call refers to. *)
Fixpoint pos_maps (e : pos_expr) : list mref :=
  match e with
  | PDefault => []
  | PBegin a | PEnd a | PFind a _ => [a]
  | PNext e' | PPrev e' => pos_maps e'
  end.

Definition op_maps (o : op) : list mref :=
  match o with
  | OConstruct => []
  | OCopy other => [other]
  | OAssign this other => [this; other]
  | OInsert this _ _ | OClear this | OIndex this _ _ | OAt this _ _ => [this]
  | OErase this e => this :: pos_maps e
  end.

(** What can make a call undefined in a well-formed world: a reference to
    a container that does not exist, or an insertion into a container that
    cannot grow any more. *)
Definition undefined_call (w : world) (o : op) : Prop :=
  (exists a, a ∈ op_maps o /\ maps w !! a = None) \/
  (exists a m, a ∈ op_maps o /\ maps w !! a = Some m /\ full m).

(** ** Vocabulary of the claims *)

(** The call is an insertion into, or an erasure from, container [a],
    at a position obtained from [a]. *)
Definition insert_erase_on (a : mref) (o : op) : bool :=
  match o with
  | OInsert this _ _ => bool_decide (this = a)
  | OErase this e => bool_decide (this = a) && forallb (fun b => bool_decide (b = a)) (pos_maps e)
  | _ => false
  end.

(** The addresses met when following [next] from [curr] up to [stop]. *)
Fixpoint walk (fuel : nat) (h : gmap positive Node) (curr stop : ptr)
  : option (list positive) :=
  match fuel with
  | O => None
  | S fuel' =>
    if decide (curr = stop) then Some []
    else match curr with
         | None => None
         | Some x =>
           match h !! x with
           | None => None
           | Some n => cons x <$> walk fuel' h (next n) stop
           end
         end
  end.

(** The nodes of container [a] in list order, sentinels excluded. *)
Definition order_nodes (w : world) (a : mref) : option (list positive) :=
  match maps w !! a with
  | None => None
  | Some m =>
    match head m with
    | None => None
    | Some hd =>
      match nodes w !! hd with
      | None => None
      | Some n => walk (S (base.size (nodes w))) (nodes w) (next n) (tail m)
      end
    end
  end.

(** The same result in another world. *)
Definition in_world {A} (w' : world) (r : res world A) : res world A :=
  match r with
  | Ok a _ => Ok a w'
  | Raise e _ => Raise e w'
  | Undef => Undef
  | Timeout => Timeout
  end.

(** World [w'] has the containers of [w], with the same sentinels and
    counts, and the nodes of [w], with the same entries and list links. *)
Definition same_order (w w' : world) : Prop :=
  same_lists (nodes w) (nodes w') /\
  forall b, match maps w !! b, maps w' !! b with
            | Some m, Some m' =>
              head m' = head m /\ tail m' = tail m /\
              element_count m' = element_count m
            | None, None => True
            | _, _ => False
            end.

(** Container [b] of world [w1] is a copy of container [a], which has the
    record [m], the nodes [la] and the entries [es]: both hold [es], on
    node sets that share nothing, and an insertion of a new key into [b]
    shows in [b] only. *)
Definition independent_copy (a : mref) (m : linked_hashmap) (la : list positive)
    (es : list value_type) (b : mref) (w1 : world) : Prop :=
  exists mb lb,
    maps w1 !! a = Some m /\ maps w1 !! b = Some mb /\
    order_nodes w1 a = Some la /\ order_nodes w1 b = Some lb /\
    (forall x, owns m la x -> owns mb lb x -> False) /\
    to_list a w1 = Ok es w1 /\ to_list b w1 = Ok es w1 /\
    forall k v, k ∉ es.*1 ->
      exists w2 it e,
        insert b (k, v) w1 = Ok (it, true) w2 /\
        to_list b w2 = Ok (es ++ [(k, v)]) w2 /\
        to_list a w2 = Ok es w2 /\
        maps w2 !! a = Some m /\ order_nodes w2 a = Some la /\
        find a k w2 = Ok e w2 /\ end_ a w2 = Ok e w2.

(** The program that inserts the entries [kvs] into container [a], in order. *)
Definition inserts (a : mref) (kvs : list value_type) : list op :=
  (fun kv : value_type => OInsert a (fst kv) (snd kv)) <$> kvs.

(** ** Members and client code beyond the claims *)

(** [operator->]: the [data] pointer of the node, not dereferenced here. *)
Definition arrow (it : iterator) : M (option value_type) :=
  n <- deref (node it) ;; ret (data n).
Definition const_arrow : const_iterator -> M (option value_type) := arrow.

(** [~linked_hashmap()].  The slot of the object stays in the table with
    dangling members; [delete[] buckets] leaves no bucket to index. *)
Definition destroy (this : mref) : M unit :=
  clear this ;;;
  m <- get_map this ;;
  delete_Node (head m) ;;;
  delete_Node (tail m) ;;;
  put_map this (set_buckets [] m).

(** Client code: walk back from [end()] to [begin()] with [!=],
    [operator--] and [operator*], collecting the entries met. *)
Fixpoint iterate_back (fuel : nat) (it b : iterator) : M (list value_type) :=
  match fuel with
  | O => timeout
  | S fuel' =>
    if iter_neq it b then
      it' <- decr it ;;
      v <- star it' ;;
      rest <- iterate_back fuel' it' b ;;
      ret (v :: rest)
    else ret []
  end.

Definition to_list_back (this : mref) : M (list value_type) :=
  b <- begin this ;;
  e <- end_ this ;;
  fuel <- get_fuel ;;
  iterate_back fuel e b.

(** The addresses met when following [hash_next] from [curr] to null. *)
Fixpoint bucket_walk (fuel : nat) (h : gmap positive Node) (curr : ptr)
  : option (list positive) :=
  match fuel with
  | O => None
  | S fuel' =>
    match curr with
    | None => Some []
    | Some x =>
      match h !! x with
      | None => None
      | Some n => cons x <$> bucket_walk fuel' h (hash_next n)
      end
    end
  end.

(** The collision chain of bucket [i] of container [a]. *)
Definition bucket_chain (w : world) (a : mref) (i : nat) : option (list positive) :=
  match maps w !! a with
  | None => None
  | Some m =>
    match buckets m !! i with
    | None => None
    | Some b => bucket_walk (S (base.size (nodes w))) (nodes w) b
    end
  end.

(** * Verification *)

(** ** Arithmetic on [size_t] *)

Lemma wrap_small (x : N) : (x < SIZE_MAX_plus_1)%N -> wrap x = x.
Proof. intros Hx. unfold wrap. by apply N.mod_small. Qed.

Lemma wrap_pred_succ (x : N) : (x + 1 < SIZE_MAX_plus_1)%N -> wrap_pred (x + 1) = x.
Proof.
  intros Hx. unfold wrap_pred.
  replace (x + 1 + (SIZE_MAX_plus_1 - 1))%N with (x + 1 * SIZE_MAX_plus_1)%N.
  - rewrite N.Div0.mod_add. apply N.mod_small. lia.
  - unfold SIZE_MAX_plus_1 in *. lia.
Qed.

(** ** Pointer chains *)

Lemma chain_ext F F' p l q :
  (forall x, x ∈ l -> F x = F' x) -> chain F p l q -> chain F' p l q.
Proof.
  revert p. induction l as [|x l IH]; intros p Hext; simpl; [done|].
  intros [-> (y & Hy & Hc)]. split; [done|]. exists y. split.
  - rewrite <- Hext; [done | by left].
  - apply IH; [|done]. intros z Hz. apply Hext. by right.
Qed.

Lemma chain_app F p l1 l2 q :
  chain F p (l1 ++ l2) q <-> exists r, chain F p l1 r /\ chain F r l2 q.
Proof.
  revert p. induction l1 as [|x l1 IH]; intros p; simpl.
  - split; [intros Hc; by exists p | by intros (r & -> & Hc)].
  - split.
    + intros [-> (y & Hy & Hc)]. apply IH in Hc as (r & H1 & H2).
      exists r. split; [|done]. split; [done|]. by exists y.
    + intros (r & [-> (y & Hy & H1)] & H2). split; [done|].
      exists y. split; [done|]. apply IH. by exists r.
Qed.

Lemma chain_live F p l q x : chain F p l q -> x ∈ l -> is_Some (F x).
Proof.
  revert p. induction l as [|z l IH]; intros p; simpl; [by intros _ ?%elem_of_nil|].
  intros [-> (y & Hy & Hc)] [->|Hx]%elem_of_cons; [by eexists | by eapply IH].
Qed.

(** A chain determines its nodes: two chains of equal length from the same
    start coincide. *)
Lemma chain_inj F p l1 l2 q1 q2 :
  chain F p l1 q1 -> chain F p l2 q2 -> length l1 = length l2 -> l1 = l2 /\ q1 = q2.
Proof.
  revert p l2. induction l1 as [|x l1 IH]; intros p [|y l2]; simpl; try done.
  - by intros <- <-.
  - intros [-> (a & Ha & H1)] [[= <-] (b & Hb & H2)] [= Hlen].
    rewrite Ha in Hb. injection Hb as <-.
    destruct (IH _ _ H1 H2 Hlen) as [-> ->]. done.
Qed.

(** A chain that ends in null determines its nodes altogether. *)
Lemma chain_null_inj F p l1 l2 :
  chain F p l1 None -> chain F p l2 None -> l1 = l2.
Proof.
  revert p l2. induction l1 as [|x l1 IH]; intros p [|y l2]; simpl; try done.
  - by intros -> [? _].
  - by intros [-> _] ?.
  - intros [-> (a & Ha & H1)] [[= <-] (b & Hb & H2)].
    rewrite Ha in Hb. injection Hb as <-. f_equal. by eapply IH.
Qed.

(** Splicing a node [x] in after [y]. *)
Lemma chain_insert_after F F' p l1 y l2 q x :
  NoDup (l1 ++ y :: l2) -> x ∉ l1 ++ y :: l2 ->
  chain F p (l1 ++ y :: l2) q ->
  F' y = Some (Some x) -> F' x = F y ->
  (forall z, z <> x -> z <> y -> F' z = F z) ->
  chain F' p (l1 ++ y :: x :: l2) q.
Proof.
  intros Hnd Hx Hc Hy Hx' Hfr.
  apply chain_app in Hc as (r & H1 & H2). apply chain_app. exists r. split.
  - eapply chain_ext; [|exact H1]. intros z Hz. symmetry. apply Hfr.
    + intros ->. apply Hx. apply elem_of_app. by left.
    + intros ->. apply NoDup_app in Hnd as (_ & Hd & _). apply (Hd y Hz). by left.
  - simpl in *. destruct H2 as [-> (t & Ht & H2)]. split; [done|].
    exists (Some x). split; [done|]. split; [done|]. exists t.
    split; [by rewrite Hx'|].
    eapply chain_ext; [|exact H2]. intros z Hz. symmetry. apply Hfr.
    + intros ->. apply Hx. apply elem_of_app. right. by right.
    + intros ->. apply NoDup_app in Hnd as (_ & _ & Hd).
      apply NoDup_cons in Hd as [Hd _]. done.
Qed.

(** Splicing the node [x] after [y] out. *)
Lemma chain_remove_after F F' p l1 y x l2 q :
  NoDup (l1 ++ y :: x :: l2) ->
  chain F p (l1 ++ y :: x :: l2) q ->
  F' y = F x ->
  (forall z, z <> x -> z <> y -> F' z = F z) ->
  chain F' p (l1 ++ y :: l2) q.
Proof.
  intros Hnd Hc Hy Hfr.
  apply chain_app in Hc as (r & H1 & H2). apply chain_app. exists r.
  apply NoDup_app in Hnd as (_ & Hd1 & Hd2).
  apply NoDup_cons in Hd2 as [Hy2 Hd2]. apply NoDup_cons in Hd2 as [Hx2 _].
  split.
  - eapply chain_ext; [|exact H1]. intros z Hz. symmetry. apply Hfr.
    + intros ->. apply (Hd1 x Hz). right. by left.
    + intros ->. apply (Hd1 y Hz). by left.
  - simpl in *. destruct H2 as [-> (t & Ht & [-> (u & Hu & H2)])]. split; [done|].
    exists u. split; [by rewrite Hy|].
    eapply chain_ext; [|exact H2]. intros z Hz. symmetry. apply Hfr.
    + by intros ->.
    + intros ->. apply Hy2. by right.
Qed.


(** ** Heaps *)

Lemma fld_Some {A} (f : Node -> A) h x n : h !! x = Some n -> fld f h x = Some (f n).
Proof. unfold fld. by intros ->. Qed.

Lemma fld_is_Some {A} (f : Node -> A) h x : is_Some (fld f h x) <-> is_Some (h !! x).
Proof. unfold fld. by rewrite fmap_is_Some. Qed.

Lemma fld_insert_eq {A} (f : Node -> A) h x n : fld f (<[x := n]> h) x = Some (f n).
Proof. unfold fld. by rewrite lookup_insert_eq. Qed.

Lemma fld_insert_ne {A} (f : Node -> A) h x y n :
  x <> y -> fld f (<[x := n]> h) y = fld f h y.
Proof. intros. unfold fld. by rewrite lookup_insert_ne. Qed.

(** A store that leaves field [f] alone. *)
Lemma fld_insert_same {A} (f : Node -> A) h x y n n' :
  h !! x = Some n -> f n' = f n -> fld f (<[x := n']> h) y = fld f h y.
Proof.
  intros Hx Hf. unfold fld. destruct (decide (x = y)) as [->|Hne].
  - rewrite lookup_insert_eq, Hx. simpl. by rewrite Hf.
  - by rewrite lookup_insert_ne.
Qed.

Lemma fld_delete_ne {A} (f : Node -> A) h x y :
  x <> y -> fld f (delete x h) y = fld f h y.
Proof. intros. unfold fld. by rewrite lookup_delete_ne. Qed.

Lemma entry_of_fld h x : entry_of h x = default None (fld data h x).
Proof. unfold entry_of, fld. by destruct (h !! x). Qed.

Lemma entry_of_ext h h' x : fld data h' x = fld data h x -> entry_of h' x = entry_of h x.
Proof. intros Hd. by rewrite !entry_of_fld, Hd. Qed.

Lemma key_of_ext h h' x : fld data h' x = fld data h x -> key_of h' x = key_of h x.
Proof. intros Hd. unfold key_of. by rewrite (entry_of_ext h h' x Hd). Qed.

Lemma entry_of_live h x : is_Some (entry_of h x) -> is_Some (h !! x).
Proof. unfold entry_of. destruct (h !! x); [by eexists | by intros [? ?]]. Qed.

Lemma entry_of_Some h x kv :
  entry_of h x = Some kv <-> exists n, h !! x = Some n /\ data n = Some kv.
Proof.
  unfold entry_of. destruct (h !! x) as [n|]; split.
  - intros Hd. by exists n.
  - by intros (n' & [= <-] & Hd).
  - done.
  - by intros (n' & ? & _).
Qed.

Lemma key_of_Some h x k :
  key_of h x = Some k <-> exists v, entry_of h x = Some (k, v).
Proof.
  unfold key_of. destruct (entry_of h x) as [[k' v]|]; simpl; split.
  - intros [= <-]. by exists v.
  - by intros (v' & [= <- _]).
  - done.
  - by intros (v' & ?).
Qed.

Lemma entries_cons h x l :
  entries h (x :: l) =
    match entry_of h x with Some e => e :: entries h l | None => entries h l end.
Proof. done. Qed.

Lemma entries_cons_Some h x l e :
  entry_of h x = Some e -> entries h (x :: l) = e :: entries h l.
Proof. intros He. by rewrite entries_cons, He. Qed.

Lemma entries_ext h h' l :
  (forall x, x ∈ l -> fld data h' x = fld data h x) -> entries h' l = entries h l.
Proof.
  intros Hext. induction l as [|x l IH]; [done|].
  rewrite !entries_cons.
  rewrite (entry_of_ext h h' x) by (apply Hext; by left).
  rewrite IH; [done|]. intros z Hz. apply Hext. by right.
Qed.

Lemma entries_app h l1 l2 : entries h (l1 ++ l2) = entries h l1 ++ entries h l2.
Proof. unfold entries. apply omap_app. Qed.

(** As many nodes of the heap as a duplicate-free list names. *)
Lemma NoDup_live_length (h : gmap positive Node) (l : list positive) :
  NoDup l -> (forall x, x ∈ l -> is_Some (h !! x)) -> length l <= base.size h.
Proof.
  intros Hnd Hl. rewrite <- (size_list_to_set (C := gset positive) l Hnd).
  rewrite <- size_dom. apply subseteq_size.
  intros x Hx. apply elem_of_list_to_set in Hx. apply elem_of_dom. by apply Hl.
Qed.

(** ** Running the monad *)

Lemma bind_Ok {A B} (m : M A) (k : A -> M B) w a w' :
  m w = Ok a w' -> bind m k w = k a w'.
Proof. unfold bind. by intros ->. Qed.

Lemma bind_Raise {A B} (m : M A) (k : A -> M B) w e w' :
  m w = Raise e w' -> bind m k w = Raise e w'.
Proof. unfold bind. by intros ->. Qed.

Lemma deref_Ok w x n : nodes w !! x = Some n -> deref (Some x) w = Ok n w.
Proof. unfold deref. by intros ->. Qed.

Lemma load_Ok {A} (f : Node -> A) w x n :
  nodes w !! x = Some n -> load f (Some x) w = Ok (f n) w.
Proof. intros Hx. unfold load. by rewrite (bind_Ok _ _ _ _ _ (deref_Ok _ _ _ Hx)). Qed.

Lemma load_fld {A} (f : Node -> A) w x v :
  fld f (nodes w) x = Some v -> load f (Some x) w = Ok v w.
Proof.
  unfold fld. destruct (nodes w !! x) as [n|] eqn:Hx; [|done].
  intros [= <-]. by apply load_Ok.
Qed.

Lemma store_Ok upd w x n :
  nodes w !! x = Some n ->
  store upd (Some x) w = Ok tt (mkWorld (<[x := upd n]> (nodes w)) (next_loc w) (maps w)).
Proof. unfold store. by intros ->. Qed.

Lemma delete_Node_Ok w x n :
  nodes w !! x = Some n ->
  delete_Node (Some x) w = Ok tt (mkWorld (delete x (nodes w)) (next_loc w) (maps w)).
Proof. unfold delete_Node. by intros ->. Qed.

Lemma get_map_Ok w a m : maps w !! a = Some m -> get_map a w = Ok m w.
Proof. unfold get_map. by intros ->. Qed.

Lemma put_map_Ok w a m m' :
  maps w !! a = Some m ->
  put_map a m' w = Ok tt (mkWorld (nodes w) (next_loc w) (<[a := m']> (maps w))).
Proof. unfold put_map. by intros ->. Qed.

Lemma bucket_index_Ok m key :
  bucket_count m <> 0%N ->
  forall w, bucket_index m key w = Ok (hash_func key mod bucket_count m)%N w.
Proof. intros Hbc w. unfold bucket_index. by destruct (decide _). Qed.

Lemma bucket_get_Ok m idx b :
  buckets m !! N.to_nat idx = Some b -> forall w, bucket_get m idx w = Ok b w.
Proof. intros Hb w. unfold bucket_get. by rewrite Hb. Qed.

Lemma bucket_set_Ok w a m idx p :
  maps w !! a = Some m -> N.to_nat idx < length (buckets m) ->
  bucket_set a idx p w =
    Ok tt (mkWorld (nodes w) (next_loc w)
             (<[a := set_buckets (<[N.to_nat idx := p]> (buckets m)) m]> (maps w))).
Proof.
  intros Ha Hlt. unfold bucket_set. rewrite (bind_Ok _ _ _ _ _ (get_map_Ok _ _ _ Ha)).
  destruct (decide _); [|done]. by eapply put_map_Ok.
Qed.

Lemma bucket_of_lt m l cs h k : rep_index h m l cs -> bucket_of m k < length (buckets m).
Proof.
  intros Hri. unfold bucket_of.
  pose proof (N.mod_upper_bound (hash_func k) _ (ri_bc_pos _ _ _ _ Hri)) as Hlt.
  rewrite (ri_bc _ _ _ _ Hri) in Hlt at 2. lia.
Qed.


(** ** [find_node] *)

Lemma find_node_loop_spec key w c : forall fuel b,
  chain (fld hash_next (nodes w)) b c None ->
  (forall x, x ∈ c -> is_Some (entry_of (nodes w) x)) ->
  length c < fuel ->
  exists r, find_node_loop fuel key b w = Ok r w /\
    match r with
    | Some x => x ∈ c /\ key_of (nodes w) x = Some key
    | None => forall x, x ∈ c -> key_of (nodes w) x <> Some key
    end.
Proof.
  induction c as [|x c IH]; intros fuel b Hc Hd Hfuel;
    (destruct fuel as [|fuel]; [simpl in Hfuel; lia|]); simpl in *.
  - subst b. exists None. split; [done|]. by intros x ?%elem_of_nil.
  - destruct Hc as [-> (y & Hy & Hc)].
    destruct (Hd x) as [[k v] Hx]; [by left|].
    apply entry_of_Some in Hx as Hx'. destruct Hx' as (n & Hn & Hdn).
    rewrite (bind_Ok _ _ _ _ _ (deref_Ok _ _ _ Hn)).
    unfold deref_data at 1. rewrite Hdn. unfold bind at 1, ret at 1. simpl.
    assert (key_of (nodes w) x = Some k) as Hkx.
    { apply key_of_Some. by exists v. }
    destruct (decide (k = key)) as [->|Hne].
    + exists (Some x). split; [done|]. split; [by left | done].
    + rewrite (fld_Some _ _ _ _ Hn) in Hy. injection Hy as <-.
      destruct (IH fuel (hash_next n) Hc) as (r & Hr & Hspec).
      { intros z Hz. apply Hd. by right. }
      { lia. }
      exists r. split; [done|]. destruct r as [z|].
      * destruct Hspec as [Hz Hkz]. split; [by right | done].
      * intros z [->|Hz]%elem_of_cons; [congruence | by apply Hspec].
Qed.

Lemma chain_fuel (f : Node -> ptr) w p c q :
  chain (fld f (nodes w)) p c q -> NoDup c -> length c < S (base.size (nodes w)).
Proof.
  intros Hc Hnd. apply Nat.lt_succ_r. apply NoDup_live_length; [done|].
  intros x Hx. apply (fld_is_Some f). by eapply chain_live.
Qed.

Lemma find_node_spec w a m hd tl l cs key :
  maps w !! a = Some m -> rep (nodes w) m hd tl l cs ->
  exists r, find_node a key w = Ok r w /\
    match r with
    | Some x => x ∈ l /\ key_of (nodes w) x = Some key
    | None => forall x, x ∈ l -> key_of (nodes w) x <> Some key
    end.
Proof.
  intros Ha [Hrl Hri]. unfold find_node.
  rewrite (bind_Ok _ _ _ _ _ (get_map_Ok _ _ _ Ha)).
  rewrite (bind_Ok _ _ _ _ _ (bucket_index_Ok _ key (ri_bc_pos _ _ _ _ Hri) w)).
  pose proof (bucket_of_lt m l cs _ key Hri) as Hlt. unfold bucket_of in Hlt.
  destruct (lookup_lt_is_Some_2 (buckets m) _ Hlt) as [b Hb].
  rewrite <- (ri_len _ _ _ _ Hri) in Hlt.
  destruct (lookup_lt_is_Some_2 cs _ Hlt) as [c Hcs].
  rewrite (bind_Ok _ _ _ _ _ (bucket_get_Ok _ _ _ Hb w)).
  unfold get_fuel at 1. unfold bind at 1.
  pose proof (ri_chain _ _ _ _ Hri _ _ _ Hb Hcs) as Hc.
  pose proof (ri_nodup _ _ _ _ Hri _ _ Hcs) as Hnd.
  destruct (find_node_loop_spec key w c (S (base.size (nodes w))) b Hc) as (r & Hr & Hspec).
  { intros x Hx. apply (rl_data _ _ _ _ _ Hrl). by apply (ri_mem _ _ _ _ Hri _ _ x Hcs). }
  { by eapply chain_fuel. }
  exists r. split; [done|]. destruct r as [x|].
  - destruct Hspec as [Hx Hk]. split; [|done]. by apply (ri_mem _ _ _ _ Hri _ _ x Hcs).
  - intros x Hx Hk. apply (Hspec x); [|done].
    apply (ri_mem _ _ _ _ Hri _ _ x Hcs). split; [done|]. by exists key.
Qed.

(** The node holding [key], as a function of the order list. *)
Lemma find_node_unique w a m hd tl l cs key x :
  maps w !! a = Some m -> rep (nodes w) m hd tl l cs ->
  x ∈ l -> key_of (nodes w) x = Some key ->
  find_node a key w = Ok (Some x) w.
Proof.
  intros Ha Hrep Hx Hk.
  destruct (find_node_spec w a m hd tl l cs key Ha Hrep) as (r & Hr & Hspec).
  destruct r as [y|].
  - destruct Hspec as [Hy Hky]. destruct Hrep as [Hrl _].
    by rewrite (rl_keys _ _ _ _ _ Hrl x y key Hx Hy Hk Hky).
  - by destruct (Hspec x Hx).
Qed.

Lemma find_node_absent w a m hd tl l cs key :
  maps w !! a = Some m -> rep (nodes w) m hd tl l cs ->
  (forall x, x ∈ l -> key_of (nodes w) x <> Some key) ->
  find_node a key w = Ok None w.
Proof.
  intros Ha Hrep Hno.
  destruct (find_node_spec w a m hd tl l cs key Ha Hrep) as (r & Hr & Hspec).
  destruct r as [y|]; [|done]. destruct Hspec as [Hy Hky]. by destruct (Hno y Hy).
Qed.


(** ** The hash index under heap updates *)

(** The index only reads [hash_next] and [data] of the nodes it chains. *)
Lemma rep_index_ext h h' m m' l cs :
  rep_index h m l cs ->
  (forall x, x ∈ l -> fld hash_next h' x = fld hash_next h x) ->
  (forall x, x ∈ l -> fld data h' x = fld data h x) ->
  buckets m' = buckets m -> bucket_count m' = bucket_count m ->
  rep_index h' m' l cs.
Proof.
  intros [Hbc Hpos Hlen Hch Hnd Hmem] Hhn Hdt Hbs Hbcs.
  assert (forall k, bucket_of m' k = bucket_of m k) as Hbo.
  { intros k. unfold bucket_of. by rewrite Hbcs. }
  split.
  - by rewrite Hbs, Hbcs.
  - by rewrite Hbcs.
  - by rewrite Hbs.
  - intros i b c Hb Hc. rewrite Hbs in Hb.
    eapply chain_ext; [|by eapply Hch]. intros x Hx. symmetry. apply Hhn.
    by apply (Hmem i c x Hc).
  - done.
  - intros i c x Hc. rewrite (Hmem i c x Hc). split.
    + intros [Hx (k & Hk & Hi)]. split; [done|]. exists k.
      rewrite (key_of_ext h h' x (Hdt x Hx)), Hbo. done.
    + intros [Hx (k & Hk & Hi)]. split; [done|]. exists k.
      rewrite (key_of_ext h h' x (Hdt x Hx)), Hbo in *. done.
Qed.

(** Chaining one more node [x] in front of its bucket. *)
Lemma rep_index_prepend h h' m m' l cs x k b c :
  rep_index h m l cs ->
  x ∉ l ->
  (forall z, z ∈ l -> fld hash_next h' z = fld hash_next h z) ->
  (forall z, z ∈ l -> fld data h' z = fld data h z) ->
  key_of h' x = Some k ->
  buckets m !! bucket_of m k = Some b ->
  cs !! bucket_of m k = Some c ->
  fld hash_next h' x = Some b ->
  buckets m' = <[bucket_of m k := Some x]> (buckets m) ->
  bucket_count m' = bucket_count m ->
  rep_index h' m' (l ++ [x]) (<[bucket_of m k := x :: c]> cs).
Proof.
  intros Hri Hx Hhn Hdt Hk Hb Hc Hxb Hbs Hbcs.
  pose proof Hri as [Hbc Hpos Hlen Hch Hnd Hmem].
  assert (forall k, bucket_of m' k = bucket_of m k) as Hbo.
  { intros k'. unfold bucket_of. by rewrite Hbcs. }
  assert (forall i c' z, cs !! i = Some c' -> z ∈ c' -> z ∈ l) as Hsub.
  { intros i c' z Hc' Hz. by apply (Hmem i c' z Hc'). }
  assert (forall i c', cs !! i = Some c' -> x ∉ c') as Hxc.
  { intros i c' Hc' Hin. apply Hx. by eapply Hsub. }
  split.
  - rewrite Hbs, Hbcs, length_insert. done.
  - by rewrite Hbcs.
  - by rewrite Hbs, !length_insert.
  - intros i b' c' Hb' Hc'. rewrite Hbs in Hb'.
    destruct (decide (bucket_of m k = i)) as [<-|Hne].
    + rewrite list_lookup_insert_eq in Hb' by (by eapply lookup_lt_Some).
      rewrite list_lookup_insert_eq in Hc' by (by eapply lookup_lt_Some).
      injection Hb' as <-. injection Hc' as <-. simpl. split; [done|].
      exists b. split; [done|].
      eapply chain_ext; [|by eapply Hch]. intros z Hz. symmetry. apply Hhn. by eapply Hsub.
    + rewrite list_lookup_insert_ne in Hb' by done.
      rewrite list_lookup_insert_ne in Hc' by done.
      eapply chain_ext; [|by eapply Hch]. intros z Hz. symmetry. apply Hhn. by eapply Hsub.
  - intros i c' Hc'. destruct (decide (bucket_of m k = i)) as [<-|Hne].
    + rewrite list_lookup_insert_eq in Hc' by (by eapply lookup_lt_Some).
      injection Hc' as <-. apply NoDup_cons. split; [by eapply Hxc | by eapply Hnd].
    + rewrite list_lookup_insert_ne in Hc' by done. by eapply Hnd.
  - intros i c' z Hc'. rewrite elem_of_app, list_elem_of_singleton.
    destruct (decide (bucket_of m k = i)) as [<-|Hne].
    + rewrite list_lookup_insert_eq in Hc' by (by eapply lookup_lt_Some).
      injection Hc' as <-. rewrite elem_of_cons, (Hmem _ c z Hc). split.
      * intros [->|[Hz (k' & Hk' & Hi)]].
        -- split; [by right|]. exists k. by rewrite Hbo.
        -- split; [by left|]. exists k'.
           by rewrite (key_of_ext h h' z (Hdt z Hz)), Hbo.
      * intros [[Hz| ->] (k' & Hk' & Hi)]; [|by left].
        right. split; [done|]. exists k'.
        by rewrite (key_of_ext h h' z (Hdt z Hz)), Hbo in *.
    + rewrite list_lookup_insert_ne in Hc' by done.
      rewrite (Hmem _ c' z Hc'). split.
      * intros [Hz (k' & Hk' & Hi)]. split; [by left|]. exists k'.
        by rewrite (key_of_ext h h' z (Hdt z Hz)), Hbo.
      * intros [[Hz| ->] (k' & Hk' & Hi)].
        -- split; [done|]. exists k'.
           by rewrite (key_of_ext h h' z (Hdt z Hz)), Hbo in *.
        -- rewrite Hk in Hk'. injection Hk' as <-. rewrite Hbo in Hi. done.
Qed.


(** ** [rehash] *)

Lemma same_lists_refl h : same_lists h h.
Proof. by intros x. Qed.

Lemma same_lists_trans h1 h2 h3 :
  same_lists h1 h2 -> same_lists h2 h3 -> same_lists h1 h3.
Proof.
  intros H12 H23 x. destruct (H12 x) as (<- & <- & <-). apply H23.
Qed.

Lemma same_lists_store h x n q :
  h !! x = Some n -> same_lists h (<[x := set_hash_next q n]> h).
Proof.
  intros Hx z. repeat split; by apply (fld_insert_same _ h x z n).
Qed.

Lemma same_lists_live h h' x : same_lists h h' -> is_Some (h' !! x) <-> is_Some (h !! x).
Proof.
  intros Hs. destruct (Hs x) as (_ & Hn & _).
  by rewrite <- !(fld_is_Some next), Hn.
Qed.

Lemma bucket_nodes_ext h h' m m' i l :
  (forall x, x ∈ l -> fld data h' x = fld data h x) ->
  bucket_count m' = bucket_count m ->
  bucket_nodes h' m' i l = bucket_nodes h m i l.
Proof.
  intros Hd Hbc. unfold bucket_nodes. induction l as [|x l IH]; [done|].
  assert (in_bucket h' m' i x <-> in_bucket h m i x) as Hiff.
  { unfold in_bucket. rewrite (key_of_ext h h' x) by (apply Hd; by left).
    destruct (key_of h x) as [k|]; simpl; [|done].
    unfold bucket_of. by rewrite Hbc. }
  rewrite !filter_cons, IH by (intros z Hz; apply Hd; by right).
  destruct (decide (in_bucket h' m' i x)), (decide (in_bucket h m i x)); tauto.
Qed.

Lemma rehash_loop_spec a tl : forall l2 l1 fuel w m cs curr,
  maps w !! a = Some m -> tail m = Some tl ->
  NoDup (l1 ++ l2 ++ [tl]) ->
  chain (fld next (nodes w)) curr l2 (Some tl) ->
  (forall x, x ∈ l2 -> is_Some (entry_of (nodes w) x)) ->
  rep_index (nodes w) m l1 cs ->
  length l2 < fuel ->
  exists w' m' cs', rehash_loop fuel a curr w = Ok tt w' /\
    maps w' = <[a := m']> (maps w) /\ next_loc w' = next_loc w /\
    head m' = head m /\ tail m' = tail m /\
    bucket_count m' = bucket_count m /\ element_count m' = element_count m /\
    same_lists (nodes w) (nodes w') /\
    (forall x, x ∉ l2 -> nodes w' !! x = nodes w !! x) /\
    rep_index (nodes w') m' (l1 ++ l2) cs' /\
    (forall i c, cs !! i = Some c ->
       cs' !! i = Some (reverse (bucket_nodes (nodes w) m i l2) ++ c)).
Proof.
  induction l2 as [|x l2 IH]; intros l1 fuel w m cs curr Ha Htl Hnd Hc Hd Hri Hfuel;
    (destruct fuel as [|fuel]; [simpl in Hfuel; lia|]); simpl in Hc |- *.
  - subst curr. rewrite (bind_Ok _ _ _ _ _ (get_map_Ok _ _ _ Ha)).
    rewrite Htl. destruct (decide _); [|done].
    exists w, m, cs. rewrite app_nil_r.
    split_and!; try done; try apply same_lists_refl.
    symmetry. by apply list_insert_id.
  - destruct Hc as [-> (y & Hy & Hc)].
    rewrite (bind_Ok _ _ _ _ _ (get_map_Ok _ _ _ Ha)).
    assert (x <> tl) as Hxtl.
    { intros ->. apply NoDup_app in Hnd as (_ & _ & Hnd).
      apply NoDup_cons in Hnd as [Hnd _]. apply Hnd, elem_of_app. right. by left. }
    rewrite Htl. destruct (decide (Some x = Some tl)) as [[= ?]|_]; [done|].
    destruct (Hd x) as [[k v] Hx]; [by left|].
    apply entry_of_Some in Hx as Hx'. destruct Hx' as (n & Hn & Hdn).
    rewrite (bind_Ok _ _ _ _ _ (deref_Ok _ _ _ Hn)).
    unfold deref_data at 1. rewrite Hdn. unfold bind at 1, ret at 1. simpl.
    rewrite (bind_Ok _ _ _ _ _ (bucket_index_Ok _ k (ri_bc_pos _ _ _ _ Hri) w)).
    pose proof (bucket_of_lt m l1 cs _ k Hri) as Hlt.
    destruct (lookup_lt_is_Some_2 (buckets m) _ Hlt) as [b Hb].
    pose proof Hlt as Hlt'. rewrite <- (ri_len _ _ _ _ Hri) in Hlt'.
    destruct (lookup_lt_is_Some_2 cs _ Hlt') as [c Hcs].
    rewrite (bind_Ok _ _ _ _ _ (bucket_get_Ok _ _ _ Hb w)).
    rewrite (bind_Ok _ _ _ _ _ (store_Ok _ _ _ _ Hn)).
    pose proof (bucket_set_Ok
      (mkWorld (<[x := set_hash_next b n]> (nodes w)) (next_loc w) (maps w))
      a m (hash_func k mod bucket_count m)%N (Some x) Ha Hlt) as Hbs.
    rewrite (bind_Ok _ _ _ _ _ Hbs). clear Hbs. simpl.
    set (h1 := <[x := set_hash_next b n]> (nodes w)).
    set (m1 := set_buckets (<[N.to_nat (hash_func k mod bucket_count m) := Some x]> (buckets m)) m).
    set (w1 := mkWorld h1 (next_loc w) (<[a := m1]> (maps w))).
    assert (nodes w1 !! x = Some (set_hash_next b n)) as Hn1.
    { simpl. unfold h1. by rewrite lookup_insert_eq. }
    rewrite (bind_Ok _ _ _ _ _ (load_Ok next _ _ _ Hn1)). simpl.
    rewrite (fld_Some _ _ _ _ Hn) in Hy. injection Hy as <-.
    assert (same_lists (nodes w) h1) as Hs1 by by apply same_lists_store.
    assert (x ∉ l1) as Hxl1.
    { intros Hin. apply NoDup_app in Hnd as (_ & Hnd & _).
      apply (Hnd x Hin). by left. }
    assert (key_of h1 x = Some k) as Hk1.
    { apply key_of_Some. exists v. apply entry_of_Some. eexists. split; [exact Hn1|done]. }
    assert (rep_index h1 m1 (l1 ++ [x]) (<[bucket_of m k := x :: c]> cs)) as Hri1.
    { eapply (rep_index_prepend (nodes w) h1 m m1 l1 cs x k b c); try done.
      - intros z Hz. unfold h1. apply fld_insert_ne. by intros ->.
      - intros z Hz. apply Hs1.
      - unfold h1. by rewrite fld_insert_eq. }
    destruct (IH (l1 ++ [x]) fuel w1 m1 (<[bucket_of m k := x :: c]> cs) (next n))
      as (w' & m' & cs' & Hrun & Hmaps & Hnl & Hhd & Htl' & Hbc & Hec & Hs & Hfr & Hri' & Hcs').
    { simpl. apply list_lookup_insert_eq. by eapply lookup_lt_Some. }
    { done. }
    { by rewrite <- app_assoc. }
    { eapply chain_ext; [|exact Hc]. intros z Hz. symmetry. apply Hs1. }
    { intros z Hz. destruct (Hd z) as [e He]; [by right|]. exists e.
      rewrite <- He. apply entry_of_ext, Hs1. }
    { done. }
    { simpl in Hfuel. lia. }
    exists w', m', cs'. split; [done|]. simpl in Hmaps.
    rewrite list_insert_insert_eq in Hmaps.
    split_and!; try done.
    + by rewrite Htl'.
    + by eapply same_lists_trans.
    + intros z Hz. rewrite Hfr.
      * simpl. unfold h1. apply lookup_insert_ne. intros ->. apply Hz. by left.
      * intros Hin. apply Hz. by right.
    + by rewrite <- app_assoc in Hri'.
    + intros i ci Hci.
      assert (key_of (nodes w) x = Some k) as Hk0 by (apply key_of_Some; by exists v).
      assert (bucket_nodes h1 m1 i l2 = bucket_nodes (nodes w) m i l2) as Hbn
        by (apply bucket_nodes_ext; [intros z _; apply Hs1 | done]).
      unfold bucket_nodes in *. destruct (decide (bucket_of m k = i)) as [<-|Hne].
      * rewrite filter_cons_True by (unfold in_bucket; by rewrite Hk0).
        rewrite reverse_cons, <- app_assoc. simpl.
        rewrite Hcs in Hci. injection Hci as <-.
        erewrite Hcs'; [|apply list_lookup_insert_eq; by eapply lookup_lt_Some].
        simpl. by rewrite Hbn.
      * rewrite filter_cons_False by (unfold in_bucket; rewrite Hk0; simpl; congruence).
        erewrite Hcs'; [|by rewrite list_lookup_insert_ne]. simpl. by rewrite Hbn.
Qed.


(** The order list only reads [next], [prev] and [data] of its own nodes. *)
Lemma rep_list_ext h h' m m' hd tl l :
  rep_list h m hd tl l ->
  (forall x, x ∈ hd :: l ++ [tl] ->
     fld data h' x = fld data h x /\
     fld next h' x = fld next h x /\
     fld prev h' x = fld prev h x) ->
  head m' = head m -> tail m' = tail m -> element_count m' = element_count m ->
  rep_list h' m' hd tl l.
Proof.
  intros [Hhd Htl Hnd Hnx Hpv Hdh Hdt Hd Hk Hcnt] Hext Hh Ht Hc.
  assert (forall x, x ∈ l -> x ∈ hd :: l ++ [tl]) as Hin.
  { intros x Hx. right. apply elem_of_app. by left. }
  assert (hd ∈ hd :: l ++ [tl]) as Hhin by by left.
  assert (tl ∈ hd :: l ++ [tl]) as Htin.
  { right. apply elem_of_app. right. by left. }
  split.
  - by rewrite Hh.
  - by rewrite Ht.
  - done.
  - eapply chain_ext; [|exact Hnx]. intros x Hx. symmetry. by apply Hext.
  - eapply chain_ext; [|exact Hpv]. intros x Hx. symmetry. apply Hext.
    apply elem_of_cons in Hx as [->|Hx]; [done|].
    apply elem_of_app in Hx as [Hx|Hx].
    + apply Hin. by apply elem_of_reverse.
    + apply list_elem_of_singleton in Hx as ->. done.
  - rewrite <- Hdh. apply entry_of_ext. by apply Hext.
  - rewrite <- Hdt. apply entry_of_ext. by apply Hext.
  - intros x Hx. rewrite (entry_of_ext h h' x); [by apply Hd | by apply Hext, Hin].
  - intros x y k Hx Hy. rewrite (key_of_ext h h' x), (key_of_ext h h' y).
    + by apply Hk.
    + by apply Hext, Hin.
    + by apply Hext, Hin.
  - by rewrite Hc.
Qed.

Lemma rep_index_empty h m n hd' tl' ec :
  n <> 0%N ->
  m = mkMap hd' tl' (replicate (N.to_nat n) None) n ec ->
  rep_index h m [] (replicate (N.to_nat n) []).
Proof.
  intros Hn ->. split; simpl.
  - rewrite length_replicate. lia.
  - done.
  - by rewrite !length_replicate.
  - intros i b c [-> _]%lookup_replicate [-> _]%lookup_replicate. done.
  - intros i c [-> _]%lookup_replicate. constructor.
  - intros i c x [-> _]%lookup_replicate. split; [by intros ?%elem_of_nil|].
    by intros [?%elem_of_nil _].
Qed.

(** The first node after [head], and the chain from it to [tail]. *)
Lemma rep_list_first h m hd tl l :
  rep_list h m hd tl l ->
  exists first, fld next h hd = Some first /\ chain (fld next h) first l (Some tl).
Proof.
  intros Hrl. pose proof (rl_next _ _ _ _ _ Hrl) as Hc. simpl in Hc.
  destruct Hc as [_ (first & Hf & Hc)]. exists first. split; [done|].
  apply chain_app in Hc as (r & H1 & H2). simpl in H2. destruct H2 as [-> _]. done.
Qed.

Lemma rep_list_live h m hd tl l x :
  rep_list h m hd tl l -> x ∈ hd :: l ++ [tl] -> is_Some (h !! x).
Proof.
  intros Hrl Hx. apply (fld_is_Some next).
  eapply chain_live; [apply (rl_next _ _ _ _ _ Hrl) | done].
Qed.

Lemma init_buckets_Ok w a m n :
  maps w !! a = Some m ->
  init_buckets a n w =
    Ok tt (mkWorld (nodes w) (next_loc w)
             (<[a := mkMap (head m) (tail m) (replicate (N.to_nat n) None) n
                           (element_count m)]> (maps w))).
Proof.
  intros Ha. unfold init_buckets.
  rewrite (bind_Ok _ _ _ _ _ (get_map_Ok _ _ _ Ha)). by eapply put_map_Ok.
Qed.

Lemma rehash_spec w a m hd tl l cs n :
  maps w !! a = Some m -> rep (nodes w) m hd tl l cs -> n <> 0%N ->
  exists w' m' cs', rehash a n w = Ok tt w' /\
    maps w' = <[a := m']> (maps w) /\ next_loc w' = next_loc w /\
    head m' = head m /\ tail m' = tail m /\
    bucket_count m' = n /\ element_count m' = element_count m /\
    same_lists (nodes w) (nodes w') /\
    (forall x, x ∉ l -> nodes w' !! x = nodes w !! x) /\
    rep (nodes w') m' hd tl l cs' /\
    (forall i, i < N.to_nat n ->
       cs' !! i = Some (reverse (bucket_nodes (nodes w) m' i l))).
Proof.
  intros Ha [Hrl Hri] Hn. unfold rehash.
  rewrite (bind_Ok _ _ _ _ _ (init_buckets_Ok _ _ _ n Ha)).
  set (m0 := mkMap (head m) (tail m) (replicate (N.to_nat n) None) n (element_count m)).
  set (w0 := mkWorld (nodes w) (next_loc w) (<[a := m0]> (maps w))).
  assert (maps w0 !! a = Some m0) as Ha0.
  { simpl. apply list_lookup_insert_eq. by eapply lookup_lt_Some. }
  rewrite (bind_Ok _ _ _ _ _ (get_map_Ok _ _ _ Ha0)).
  destruct (rep_list_first _ _ _ _ _ Hrl) as (first & Hf & Hc).
  simpl. rewrite (rl_head _ _ _ _ _ Hrl).
  rewrite (bind_Ok _ _ _ _ _ (load_fld next w0 hd first Hf)).
  unfold get_fuel at 1. unfold bind at 1.
  pose proof (rl_nodup _ _ _ _ _ Hrl) as Hnd. apply NoDup_cons in Hnd as [_ Hnd].
  destruct (rehash_loop_spec a tl l [] (S (base.size (nodes w0))) w0 m0
              (replicate (N.to_nat n) []) first)
    as (w' & m' & cs' & Hrun & Hmaps & Hnl & Hhd & Htl & Hbc & Hec & Hs & Hfr & Hri' & Hcs');
    try done.
  { apply (rl_tail _ _ _ _ _ Hrl). }
  { apply (rl_data _ _ _ _ _ Hrl). }
  { by eapply rep_index_empty. }
  { eapply (chain_fuel next); [exact Hc|]. by apply NoDup_app in Hnd as (? & _). }
  exists w', m', cs'. split; [exact Hrun|]. clear Hrun. simpl in *.
  rewrite list_insert_insert_eq in Hmaps.
  split_and!; try done.
  - rewrite Hhd. apply (rl_head _ _ _ _ _ Hrl).
  - split; [|done]. eapply rep_list_ext; [exact Hrl| |done..].
    intros x _. apply Hs.
  - intros i Hi. rewrite (Hcs' i []).
    + rewrite app_nil_r. do 2 f_equal. by apply bucket_nodes_ext.
    + apply lookup_replicate. done.
Qed.


(** ** [check_and_rehash] *)

Lemma pow2_range (k : N) : (4 <= k <= 63)%N -> (16 <= 2 ^ k <= 2 ^ 63)%N.
Proof.
  intros [H4 H63]. split.
  - change 16%N with (2 ^ 4)%N. by apply N.pow_le_mono_r.
  - by apply N.pow_le_mono_r.
Qed.

Lemma pow2_double (k : N) :
  (4 <= k <= 63)%N -> (2 ^ k)%N <> (2 ^ 63)%N ->
  (4 <= k + 1 <= 63)%N /\ (2 ^ k * 2 = 2 ^ (k + 1))%N /\ (2 ^ (k + 1) <= 2 ^ 63)%N.
Proof.
  intros [H4 H63] Hne.
  assert (k <> 63%N) as Hk by (by intros ->).
  split; [lia|]. split.
  - rewrite N.add_1_r, N.pow_succ_r'. lia.
  - apply N.pow_le_mono_r; lia.
Qed.

Lemma sized_range m : sized m -> (16 <= bucket_count m <= 2 ^ 63)%N.
Proof. intros [(k & Hk & ->) _]. by apply pow2_range. Qed.

Lemma over_load_factor_true m :
  over_load_factor m = true <-> (3 * bucket_count m < 4 * element_count m)%N.
Proof. unfold over_load_factor. by rewrite bool_decide_eq_true. Qed.

Lemma over_load_factor_false m :
  over_load_factor m = false <-> (4 * element_count m <= 3 * bucket_count m)%N.
Proof. unfold over_load_factor. rewrite bool_decide_eq_false. lia. Qed.

(** At the last capacity the doubling wraps to zero and [rehash(0)] takes a
    remainder by zero on the first node. *)
Lemma check_and_rehash_full w a m hd tl l cs :
  maps w !! a = Some m -> rep (nodes w) m hd tl l cs -> full m ->
  check_and_rehash a w = Undef.
Proof.
  intros Ha [Hrl Hri] [Hov Hbc]. unfold check_and_rehash.
  rewrite (bind_Ok _ _ _ _ _ (get_map_Ok _ _ _ Ha)). rewrite Hov, Hbc.
  change (wrap (2 ^ 63 * 2)) with 0%N. unfold rehash.
  rewrite (bind_Ok _ _ _ _ _ (init_buckets_Ok _ _ _ 0%N Ha)).
  set (m0 := mkMap (head m) (tail m) (replicate (N.to_nat 0) None) 0%N (element_count m)).
  set (w0 := mkWorld (nodes w) (next_loc w) (<[a := m0]> (maps w))).
  assert (maps w0 !! a = Some m0) as Ha0.
  { simpl. apply list_lookup_insert_eq. by eapply lookup_lt_Some. }
  rewrite (bind_Ok _ _ _ _ _ (get_map_Ok _ _ _ Ha0)).
  destruct (rep_list_first _ _ _ _ _ Hrl) as (first & Hf & Hc).
  simpl. rewrite (rl_head _ _ _ _ _ Hrl).
  rewrite (bind_Ok _ _ _ _ _ (load_fld next w0 hd first Hf)).
  unfold get_fuel at 1. unfold bind at 1.
  apply over_load_factor_true in Hov. rewrite (rl_count _ _ _ _ _ Hrl) in Hov.
  destruct l as [|x l]; [simpl in Hov; lia|].
  simpl in Hc. destruct Hc as [-> (y & Hy & Hc)].
  cbn [rehash_loop]. rewrite (bind_Ok _ _ _ _ _ (get_map_Ok _ _ _ Ha0)).
  assert (x <> tl) as Hxtl.
  { intros ->. pose proof (rl_nodup _ _ _ _ _ Hrl) as Hnd.
    apply NoDup_cons in Hnd as [_ Hnd]. simpl in Hnd.
    apply NoDup_cons in Hnd as [Hnd _]. apply Hnd, elem_of_app. right. by left. }
  simpl. rewrite (rl_tail _ _ _ _ _ Hrl).
  destruct (decide (Some x = Some tl)) as [[= ?]|_]; [done|].
  destruct (rl_data _ _ _ _ _ Hrl x) as [[k v] Hx]; [by left|].
  apply entry_of_Some in Hx as (n & Hn & Hdn).
  assert (nodes w0 !! x = Some n) as Hn0 by done.
  rewrite (bind_Ok _ _ _ _ _ (deref_Ok _ _ _ Hn0)).
  unfold deref_data at 1. rewrite Hdn. unfold bind at 1, ret at 1.
  unfold bucket_index at 1. simpl. done.
Qed.

Lemma check_and_rehash_spec w a m hd tl l cs :
  maps w !! a = Some m -> rep (nodes w) m hd tl l cs -> sized m -> ~ full m ->
  exists w' m' cs', check_and_rehash a w = Ok tt w' /\
    maps w' = <[a := m']> (maps w) /\ next_loc w' = next_loc w /\
    head m' = head m /\ tail m' = tail m /\ element_count m' = element_count m /\
    same_lists (nodes w) (nodes w') /\
    (forall x, x ∉ l -> nodes w' !! x = nodes w !! x) /\
    rep (nodes w') m' hd tl l cs' /\
    sized m' /\ (4 * element_count m' <= 3 * bucket_count m')%N /\
    (if over_load_factor m then bucket_count m' = (2 * bucket_count m)%N
     else bucket_count m' = bucket_count m).
Proof.
  intros Ha Hrep Hsz Hfull. unfold check_and_rehash.
  rewrite (bind_Ok _ _ _ _ _ (get_map_Ok _ _ _ Ha)).
  destruct (over_load_factor m) eqn:Hov.
  - pose proof Hsz as [(k & Hk & Hbc) Hload].
    assert ((2 ^ k)%N <> (2 ^ 63)%N) as Hne.
    { intros Heq. apply Hfull. split; [done | congruence]. }
    destruct (pow2_double k Hk Hne) as (Hk1 & Hdbl & Hle).
    assert (wrap (bucket_count m * 2) = (2 ^ (k + 1))%N) as Hw.
    { rewrite Hbc, Hdbl. apply wrap_small. unfold SIZE_MAX_plus_1.
      eapply N.le_lt_trans; [exact Hle|]. done. }
    rewrite Hw.
    destruct (rehash_spec w a m hd tl l cs (2 ^ (k + 1))%N Ha Hrep)
      as (w' & m' & cs' & Hrun & Hmaps & Hnl & Hhd & Htl & Hbc' & Hec & Hs & Hfr & Hrep' & _).
    { pose proof (pow2_range _ Hk1). lia. }
    exists w', m', cs'. split_and!; try done.
    + split.
      * exists (k + 1)%N. done.
      * rewrite Hbc', Hec, <- Hdbl, <- Hbc.
        pose proof (sized_range m Hsz). lia.
    + rewrite Hbc', Hec, <- Hdbl, <- Hbc.
      pose proof (sized_range m Hsz). lia.
    + rewrite Hbc', <- Hdbl, <- Hbc. lia.
  - exists w, m, cs. split_and!; try done.
    + symmetry. by apply list_insert_id.
    + by apply over_load_factor_false.
Qed.


(** ** The order list under insertion and removal *)

Lemma NoDup_reverse_2 {A} (l : list A) : NoDup l -> NoDup (reverse l).
Proof. by rewrite reverse_Permutation. Qed.

Lemma reverse_full (hd tl : positive) (l : list positive) :
  reverse (hd :: l ++ [tl]) = tl :: reverse l ++ [hd].
Proof. by rewrite reverse_cons, reverse_app. Qed.

(** The node in front of [tail]. *)
Lemma rep_list_last h m hd tl l :
  rep_list h m hd tl l ->
  exists lst pre, hd :: l = pre ++ [lst] /\
    fld prev h tl = Some (Some lst) /\ fld next h lst = Some (Some tl).
Proof.
  intros Hrl.
  destruct (reverse (hd :: l)) as [|lst rest] eqn:Hrev.
  { apply (f_equal length) in Hrev. rewrite length_reverse in Hrev. done. }
  assert (hd :: l = reverse rest ++ [lst]) as Hdec.
  { rewrite <- (reverse_involutive (hd :: l)), Hrev. by rewrite reverse_cons. }
  exists lst, (reverse rest). split; [done|]. split.
  - pose proof (rl_prev _ _ _ _ _ Hrl) as Hc. simpl in Hc.
    destruct Hc as [_ (y & Hy & Hc)]. rewrite Hy.
    rewrite reverse_cons in Hrev. rewrite Hrev in Hc. simpl in Hc.
    by destruct Hc as [-> _].
  - pose proof (rl_next _ _ _ _ _ Hrl) as Hc.
    change (hd :: l ++ [tl]) with ((hd :: l) ++ [tl]) in Hc.
    rewrite Hdec, <- app_assoc in Hc. apply chain_app in Hc as (r & _ & Hc).
    simpl in Hc. destruct Hc as [_ (y & Hy & [-> _])]. done.
Qed.

Lemma rep_list_snoc h h' m m' hd tl l x lst kv :
  rep_list h m hd tl l ->
  x ∉ hd :: l ++ [tl] ->
  fld prev h tl = Some (Some lst) ->
  fld next h' lst = Some (Some x) -> fld next h' x = Some (Some tl) ->
  fld prev h' tl = Some (Some x) -> fld prev h' x = Some (Some lst) ->
  entry_of h' x = Some kv ->
  (forall z, z <> x -> fld data h' z = fld data h z) ->
  (forall z, z <> x -> z <> lst -> fld next h' z = fld next h z) ->
  (forall z, z <> x -> z <> tl -> fld prev h' z = fld prev h z) ->
  (forall z, z ∈ l -> key_of h z <> Some (fst kv)) ->
  head m' = head m -> tail m' = tail m ->
  element_count m' = N.of_nat (S (length l)) ->
  rep_list h' m' hd tl (l ++ [x]).
Proof.
  intros Hrl Hx Hlst Hn1 Hn2 Hp1 Hp2 He Hdt Hnx Hpv Hkey Hh Ht Hc.
  destruct (rep_list_last _ _ _ _ _ Hrl) as (lst' & pre & Hdec & Hlst' & Hnl).
  rewrite Hlst in Hlst'. injection Hlst' as <-.
  pose proof (rl_nodup _ _ _ _ _ Hrl) as Hnd.
  assert (forall z, z ∈ hd :: l ++ [tl] -> z <> x) as Hne.
  { intros z Hz ->. done. }
  assert (hd :: l ++ [tl] = pre ++ lst :: [tl]) as HL.
  { change (hd :: l ++ [tl]) with ((hd :: l) ++ [tl]). by rewrite Hdec, <- app_assoc. }
  assert (hd :: (l ++ [x]) ++ [tl] = pre ++ lst :: x :: [tl]) as HL'.
  { rewrite <- app_assoc. change (hd :: l ++ [x] ++ [tl]) with ((hd :: l) ++ x :: [tl]).
    by rewrite Hdec, <- app_assoc. }
  split.
  - rewrite Hh. apply (rl_head _ _ _ _ _ Hrl).
  - rewrite Ht. apply (rl_tail _ _ _ _ _ Hrl).
  - rewrite HL'. rewrite HL in Hnd, Hx.
    apply NoDup_app in Hnd as (Hnd1 & Hnd2 & Hnd3).
    apply NoDup_app. split; [done|]. split.
    + intros z Hz [->|[->|Hz']%elem_of_cons]%elem_of_cons.
      * apply (Hnd2 _ Hz). by left.
      * apply Hx, elem_of_app. by left.
      * apply (Hnd2 _ Hz). by right.
    + apply NoDup_cons in Hnd3 as [Hl3 Hnd3]. apply NoDup_cons. split.
      * intros [->|Hz]%elem_of_cons; [|done].
        apply Hx, elem_of_app. right. by left.
      * apply NoDup_cons. split; [|done].
        intros Hz. apply Hx, elem_of_app. right. by right.
  - rewrite HL'. eapply (chain_insert_after (fld next h)); try done.
    + by rewrite <- HL.
    + by rewrite <- HL.
    + rewrite <- HL. apply (rl_next _ _ _ _ _ Hrl).
    + by rewrite Hnl.
  - rewrite reverse_snoc. simpl.
    eapply (chain_insert_after (fld prev h) (fld prev h') _ [] tl); simpl.
    + rewrite <- reverse_full. by apply NoDup_reverse_2.
    + rewrite <- reverse_full. by rewrite elem_of_reverse.
    + apply (rl_prev _ _ _ _ _ Hrl).
    + done.
    + by rewrite Hlst.
    + done.
  - rewrite <- (rl_data_hd _ _ _ _ _ Hrl). apply entry_of_ext, Hdt, Hne. by left.
  - rewrite <- (rl_data_tl _ _ _ _ _ Hrl). apply entry_of_ext, Hdt, Hne.
    right. apply elem_of_app. right. by left.
  - intros z [Hz| ->%list_elem_of_singleton]%elem_of_app; [|by eexists].
    rewrite (entry_of_ext h h' z).
    + by apply (rl_data _ _ _ _ _ Hrl).
    + apply Hdt, Hne. right. apply elem_of_app. by left.
  - assert (forall z, z ∈ l -> key_of h' z = key_of h z) as Hko.
    { intros z Hz. apply key_of_ext, Hdt, Hne. right. apply elem_of_app. by left. }
    assert (key_of h' x = Some (fst kv)) as Hkx.
    { unfold key_of. by rewrite He. }
    intros y z k [Hy| ->%list_elem_of_singleton]%elem_of_app
                 [Hz| ->%list_elem_of_singleton]%elem_of_app; try done.
    + rewrite (Hko y Hy), (Hko z Hz). by apply (rl_keys _ _ _ _ _ Hrl).
    + rewrite (Hko y Hy), Hkx. intros Hk1 [= <-]. by destruct (Hkey y Hy).
    + rewrite (Hko z Hz), Hkx. intros [= <-] Hk1. by destruct (Hkey z Hz).
  - rewrite Hc, length_app. simpl. f_equal. lia.
Qed.


(** Symbolic execution: solve a lookup in a heap or object table built from
    updates, then run the first action of a sequence with a given lemma. *)
Ltac heap_solve :=
  cbn [nodes maps next_loc];
  repeat first
    [ rewrite lookup_insert_eq
    | rewrite lookup_insert_ne by done
    | rewrite lookup_delete_ne by done
    | rewrite list_lookup_insert_eq by (rewrite ?length_insert; by eapply lookup_lt_Some)
    | rewrite list_lookup_insert_ne by done
    | rewrite lookup_app_l by (by eapply lookup_lt_Some) ];
  first [ eassumption | reflexivity | by apply list_lookup_middle | done ].

Ltac mstep lem :=
  match goal with
  | |- context [bind ?m ?k ?w] =>
    let H := fresh "Hstep" in
    eassert (m w = Ok _ _) as H by (eapply lem; heap_solve);
    rewrite (bind_Ok m k w _ _ H); clear H;
    cbn [nodes maps next_loc fst snd]
  end.

Lemma insert_existing w a m hd tl l cs k v x :
  maps w !! a = Some m -> rep (nodes w) m hd tl l cs ->
  x ∈ l -> key_of (nodes w) x = Some k ->
  insert a (k, v) w = Ok (mkIt (Some x) (Some a), false) w.
Proof.
  intros Ha Hrep Hx Hk. unfold insert. simpl.
  by rewrite (bind_Ok _ _ _ _ _ (find_node_unique _ _ _ _ _ _ _ _ _ Ha Hrep Hx Hk)).
Qed.

Lemma insert_new_spec w a m hd tl l cs k v :
  maps w !! a = Some m -> rep (nodes w) m hd tl l cs -> sized m -> ~ full m ->
  (forall z, is_Some (nodes w !! z) -> (z < next_loc w)%positive) ->
  (forall z, z ∈ l -> key_of (nodes w) z <> Some k) ->
  exists w' m' cs',
    insert a (k, v) w = Ok (mkIt (Some (next_loc w)) (Some a), true) w' /\
    maps w' = <[a := m']> (maps w) /\ next_loc w' = Pos.succ (next_loc w) /\
    head m' = head m /\ tail m' = tail m /\
    rep (nodes w') m' hd tl (l ++ [next_loc w]) cs' /\ sized m' /\
    element_count m' = (element_count m + 1)%N /\
    (if over_load_factor m then bucket_count m' = (2 * bucket_count m)%N
     else bucket_count m' = bucket_count m) /\
    entry_of (nodes w') (next_loc w) = Some (k, v) /\
    (forall z, z <> next_loc w -> fld data (nodes w') z = fld data (nodes w) z) /\
    (forall z, z ∉ hd :: l ++ [tl] -> z <> next_loc w -> nodes w' !! z = nodes w !! z).
Proof.
  intros Ha Hrep Hsz Hfull Hfresh Hkey. unfold insert. simpl.
  rewrite (bind_Ok _ _ _ _ _ (find_node_absent _ _ _ _ _ _ _ _ Ha Hrep Hkey)).
  destruct (check_and_rehash_spec w a m hd tl l cs Ha Hrep Hsz Hfull)
    as (w1 & m1 & cs1 & Hrun & Hmaps & Hnl & Hhd & Htl & Hec & Hs & Hfr & [Hrl Hri] & Hsz1 & Hload & Hbc).
  rewrite (bind_Ok _ _ _ _ _ Hrun). clear Hrun.
  set (x := next_loc w).
  assert (nodes w1 !! x = None) as Hx1.
  { destruct (nodes w1 !! x) eqn:E; [|done].
    assert (is_Some (nodes w !! x)) as Hl by (apply (same_lists_live _ _ x Hs); by eexists).
    apply Hfresh in Hl. unfold x in Hl. lia. }
  assert (maps w1 !! a = Some m1) as Ha1.
  { rewrite Hmaps. apply list_lookup_insert_eq. by eapply lookup_lt_Some. }
  destruct (rep_list_last _ _ _ _ _ Hrl) as (lst & pre & Hdec & Hlst & Hnlst).
  pose proof (rl_tail _ _ _ _ _ Hrl) as Htl1.
  assert (exists ntl, nodes w1 !! tl = Some ntl /\ prev ntl = Some lst) as (ntl & Hntl & Hptl).
  { unfold fld in Hlst. destruct (nodes w1 !! tl) as [ntl|]; [|done].
    exists ntl. split; [done|]. by injection Hlst. }
  assert (exists nlst, nodes w1 !! lst = Some nlst) as (nlst & Hnl1).
  { apply (fld_is_Some next). by rewrite Hnlst. }
  pose proof (rl_nodup _ _ _ _ _ Hrl) as Hnd.
  assert (lst ∈ hd :: l) as Hlin by (rewrite Hdec, elem_of_app; right; by left).
  assert (tl <> lst) as Htl_lst.
  { intros <-. change (hd :: l ++ [tl]) with ((hd :: l) ++ [tl]) in Hnd.
    apply NoDup_app in Hnd as (_ & Hnd & _). apply (Hnd tl Hlin). by left. }
  assert (x <> tl) as Hxtl by (intros ->; by rewrite Hntl in Hx1).
  assert (x <> lst) as Hxlst by (intros ->; by rewrite Hnl1 in Hx1).
  assert (lst <> tl) as Hlst_tl by done.
  assert (tl <> x) as Htlx by done.
  assert (lst <> x) as Hlstx by done.
  pose proof (bucket_of_lt m1 l cs1 _ k Hri) as Hlt.
  destruct (lookup_lt_is_Some_2 (buckets m1) _ Hlt) as [b Hb].
  pose proof Hlt as Hlt'. rewrite <- (ri_len _ _ _ _ Hri) in Hlt'.
  destruct (lookup_lt_is_Some_2 cs1 _ Hlt') as [c Hcs].
  pose proof (ri_bc_pos _ _ _ _ Hri) as Hpos.
  pose proof Hlt as Hlt0. pose proof Hb as Hb0.
  unfold bucket_of in Hlt0, Hb0.
  unfold new_Node at 1. unfold bind at 1. rewrite Hnl. fold x.
  mstep get_map_Ok. rewrite Htl1.
  mstep (load_Ok prev). rewrite Hptl.
  mstep store_Ok.
  mstep store_Ok.
  mstep (load_Ok prev). rewrite Hptl.
  mstep store_Ok.
  mstep store_Ok.
  mstep bucket_index_Ok.
  mstep bucket_get_Ok.
  mstep store_Ok.
  mstep bucket_set_Ok.
  mstep get_map_Ok.
  mstep put_map_Ok.
  rewrite list_insert_insert_eq.
  cbn [set_prev set_next set_hash_next data prev next hash_next].
  unfold ret.
  match goal with |- context [Ok _ (mkWorld ?h _ (<[a := ?m2]> _))] =>
    set (h' := h); set (m' := m2) end.
  assert (h' !! x = Some (mkNode (Some (k, v)) (Some lst) (Some tl) b)) as Hx'.
  { unfold h'. by rewrite lookup_insert_eq. }
  assert (h' !! tl = Some (set_prev (Some x) ntl)) as Htl'.
  { unfold h'. rewrite lookup_insert_ne by done. by rewrite lookup_insert_eq. }
  assert (h' !! lst = Some (set_next (Some x) nlst)) as Hlst'.
  { unfold h'. rewrite !lookup_insert_ne by done. by rewrite lookup_insert_eq. }
  assert (forall z, z <> x -> z <> tl -> z <> lst -> h' !! z = nodes w1 !! z) as Hoth.
  { intros z ? ? ?. unfold h'. by rewrite !lookup_insert_ne by done. }
  assert (forall z, z <> x -> fld data h' z = fld data (nodes w1) z) as Hdata.
  { intros z Hz. destruct (decide (z = tl)) as [->|?]; [|destruct (decide (z = lst)) as [->|?]].
    - by rewrite (fld_Some _ _ _ _ Htl'), (fld_Some _ _ _ _ Hntl).
    - by rewrite (fld_Some _ _ _ _ Hlst'), (fld_Some _ _ _ _ Hnl1).
    - unfold fld. by rewrite Hoth. }
  clearbody h'.
  exists (mkWorld h' (Pos.succ x) (<[a := m']> (maps w1))), m',
    (<[bucket_of m1 k := x :: c]> cs1).
  split; [reflexivity|]. cbn [nodes maps next_loc].
  pose proof (sized_range m1 Hsz1) as Hrange.
  assert (wrap (element_count m1 + 1) = (element_count m + 1)%N) as Hwrap.
  { rewrite <- Hec. apply wrap_small. unfold SIZE_MAX_plus_1.
    assert (2 ^ 63 < 2 ^ 64)%N by done. lia. }
  assert (forall z, z ∈ l -> z <> x /\ z <> tl) as Hl.
  { intros z Hz. split.
    - intros ->. assert (is_Some (nodes w1 !! x)) as [? ?]; [|congruence].
      eapply rep_list_live; [exact Hrl|]. right. apply elem_of_app. by left.
    - intros ->. apply NoDup_cons in Hnd as [_ Hnd].
      apply NoDup_app in Hnd as (_ & Hnd & _). apply (Hnd tl Hz). by left. }
  split_and!.
  - by rewrite Hmaps, list_insert_insert_eq.
  - done.
  - done.
  - done.
  - split.
    + eapply (rep_list_snoc (nodes w1) h' m1 m' hd tl l x lst (k, v)); try done.
      * intros Hin. assert (is_Some (nodes w1 !! x)) as [? ?]; [|congruence].
        by eapply rep_list_live.
      * by rewrite (fld_Some _ _ _ _ Hlst').
      * by rewrite (fld_Some _ _ _ _ Hx').
      * by rewrite (fld_Some _ _ _ _ Htl').
      * by rewrite (fld_Some _ _ _ _ Hx').
      * unfold entry_of. by rewrite Hx'.
      * intros z Hz1 Hz2. destruct (decide (z = tl)) as [->|?].
        -- by rewrite (fld_Some _ _ _ _ Htl'), (fld_Some _ _ _ _ Hntl).
        -- unfold fld. by rewrite Hoth.
      * intros z Hz1 Hz2. destruct (decide (z = lst)) as [->|?].
        -- by rewrite (fld_Some _ _ _ _ Hlst'), (fld_Some _ _ _ _ Hnl1).
        -- unfold fld. by rewrite Hoth.
      * intros z Hz. rewrite (key_of_ext (nodes w) (nodes w1) z) by apply Hs.
        by apply Hkey.
      * simpl. rewrite Hwrap, <- Hec, (rl_count _ _ _ _ _ Hrl). lia.
    + eapply (rep_index_prepend (nodes w1) h' m1 m' l cs1 x k b c); try done.
      * intros Hin. by destruct (Hl x Hin).
      * intros z Hz. destruct (Hl z Hz). destruct (decide (z = lst)) as [->|?].
        -- by rewrite (fld_Some _ _ _ _ Hlst'), (fld_Some _ _ _ _ Hnl1).
        -- unfold fld. by rewrite Hoth.
      * intros z Hz. apply Hdata. by destruct (Hl z Hz).
      * unfold key_of, entry_of. by rewrite Hx'.
      * by rewrite (fld_Some _ _ _ _ Hx').
  - destruct Hsz1 as [Hp2 Hld]. split; [done|]. simpl. rewrite Hwrap. lia.
  - done.
  - done.
  - unfold entry_of. by rewrite Hx'.
  - intros z Hz. rewrite Hdata by done. apply Hs.
  - intros z Hz1 Hz2. rewrite Hoth, Hfr; try done.
    + intros Hin. apply Hz1. right. apply elem_of_app. by left.
    + intros ->. apply Hz1. right. apply elem_of_app. right. by left.
    + intros ->. apply Hz1. change (hd :: l ++ [tl]) with ((hd :: l) ++ [tl]).
      apply elem_of_app. by left.
Qed.


Lemma full_split (hd tl x : positive) (l1 l2 : list positive) :
  hd :: (l1 ++ x :: l2) ++ [tl] = (hd :: l1) ++ x :: (l2 ++ [tl]).
Proof. simpl. by rewrite <- app_assoc. Qed.

Lemma full_join (hd tl : positive) (l1 l2 : list positive) :
  hd :: (l1 ++ l2) ++ [tl] = (hd :: l1) ++ (l2 ++ [tl]).
Proof. simpl. by rewrite <- app_assoc. Qed.

(** The neighbours of an interior node. *)
Lemma rep_list_neighbours h m hd tl l1 x l2 :
  rep_list h m hd tl (l1 ++ x :: l2) ->
  exists p n pre post, hd :: l1 = pre ++ [p] /\ l2 ++ [tl] = n :: post /\
    fld prev h x = Some (Some p) /\ fld next h x = Some (Some n).
Proof.
  intros Hrl.
  destruct (reverse (hd :: l1)) as [|p rest] eqn:Hrev.
  { apply (f_equal length) in Hrev. rewrite length_reverse in Hrev. done. }
  assert (hd :: l1 = reverse rest ++ [p]) as Hpre.
  { rewrite <- (reverse_involutive (hd :: l1)), Hrev. by rewrite reverse_cons. }
  destruct (l2 ++ [tl]) as [|n post] eqn:Hpost.
  { apply (f_equal length) in Hpost. rewrite length_app in Hpost. simpl in Hpost. lia. }
  exists p, n, (reverse rest), post. split; [done|]. split; [done|]. split.
  - pose proof (rl_prev _ _ _ _ _ Hrl) as Hc. rewrite <- reverse_full in Hc.
    assert (reverse (hd :: (l1 ++ x :: l2) ++ [tl]) =
            reverse (l2 ++ [tl]) ++ x :: reverse (hd :: l1)) as Heq.
    { rewrite full_split. change (x :: l2 ++ [tl]) with ([x] ++ (l2 ++ [tl])).
      rewrite !reverse_app. simpl. by rewrite <- app_assoc. }
    rewrite Heq in Hc. apply chain_app in Hc as (r & _ & Hc). simpl in Hc.
    destruct Hc as [_ (y & Hy & Hc)]. rewrite Hrev in Hc. simpl in Hc.
    destruct Hc as [-> _]. done.
  - pose proof (rl_next _ _ _ _ _ Hrl) as Hc.
    rewrite full_split in Hc.
    apply chain_app in Hc as (r & _ & Hc). simpl in Hc.
    destruct Hc as [_ (y & Hy & Hc)]. rewrite Hpost in Hc. simpl in Hc.
    destruct Hc as [-> _]. done.
Qed.

Lemma rep_list_remove h h' m m' hd tl l1 x l2 p n :
  rep_list h m hd tl (l1 ++ x :: l2) ->
  fld prev h x = Some (Some p) -> fld next h x = Some (Some n) ->
  fld next h' p = Some (Some n) -> fld prev h' n = Some (Some p) ->
  (forall z, z <> x -> fld data h' z = fld data h z) ->
  (forall z, z <> x -> z <> p -> fld next h' z = fld next h z) ->
  (forall z, z <> x -> z <> n -> fld prev h' z = fld prev h z) ->
  head m' = head m -> tail m' = tail m ->
  element_count m' = N.of_nat (length (l1 ++ l2)) ->
  rep_list h' m' hd tl (l1 ++ l2).
Proof.
  intros Hrl Hp Hn Hn' Hp' Hdt Hnx Hpv Hh Ht Hc.
  destruct (rep_list_neighbours _ _ _ _ _ _ _ Hrl)
    as (p0 & n0 & pre & post & Hpre & Hpost & Hp0 & Hn0).
  rewrite Hp in Hp0. injection Hp0 as <-. rewrite Hn in Hn0. injection Hn0 as <-.
  assert (hd :: (l1 ++ x :: l2) ++ [tl] = pre ++ p :: x :: n :: post) as HL.
  { by rewrite full_split, Hpre, Hpost, <- app_assoc. }
  assert (hd :: (l1 ++ l2) ++ [tl] = pre ++ p :: n :: post) as HL'.
  { by rewrite full_join, Hpre, Hpost, <- app_assoc. }
  pose proof (rl_nodup _ _ _ _ _ Hrl) as Hnd. rewrite HL in Hnd.
  assert (forall z, z ∈ hd :: (l1 ++ l2) ++ [tl] -> z <> x) as Hne.
  { rewrite HL'. intros z Hz ->. apply NoDup_app in Hnd as (_ & Hd1 & Hd2).
    apply NoDup_cons in Hd2 as [Hd2 Hd3]. apply NoDup_cons in Hd3 as [Hd3 _].
    apply elem_of_app in Hz as [Hz|[->|Hz]%elem_of_cons].
    - apply (Hd1 x Hz). right. by left.
    - apply Hd2. by left.
    - done. }
  assert (forall z, z ∈ l1 ++ l2 -> z ∈ l1 ++ x :: l2) as Hsub.
  { intros z [Hz|Hz]%elem_of_app; apply elem_of_app; [by left | right; by right]. }
  assert (forall z, z ∈ l1 ++ l2 -> z ∈ hd :: (l1 ++ l2) ++ [tl]) as Hin.
  { intros z Hz. right. apply elem_of_app. by left. }
  split.
  - rewrite Hh. apply (rl_head _ _ _ _ _ Hrl).
  - rewrite Ht. apply (rl_tail _ _ _ _ _ Hrl).
  - rewrite HL'. apply NoDup_app in Hnd as (Hd1 & Hd2 & Hd3). apply NoDup_app.
    split; [done|]. split.
    + intros z Hz [->|[->|Hz']%elem_of_cons]%elem_of_cons.
      * apply (Hd2 _ Hz). by left.
      * apply (Hd2 _ Hz). right. right. by left.
      * apply (Hd2 _ Hz). right. right. by right.
    + apply NoDup_cons in Hd3 as [Ha Hd3]. apply NoDup_cons in Hd3 as [Hb Hd3].
      apply NoDup_cons. split; [|done].
      intros Hz. apply Ha. by right.
  - rewrite HL'. eapply (chain_remove_after (fld next h)); try done.
    + rewrite <- HL. apply (rl_next _ _ _ _ _ Hrl).
    + by rewrite Hn.
  - rewrite <- reverse_full, HL'.
    assert (reverse (pre ++ p :: n :: post) = reverse post ++ n :: p :: reverse pre) as ->.
    { change (pre ++ p :: n :: post) with (pre ++ [p] ++ [n] ++ post).
      rewrite !reverse_app. simpl. by rewrite <- !app_assoc. }
    eapply (chain_remove_after (fld prev h) (fld prev h') _ (reverse post) n x).
    + assert (reverse post ++ n :: x :: p :: reverse pre = reverse (pre ++ p :: x :: n :: post)) as ->.
      { change (pre ++ p :: x :: n :: post) with (pre ++ [p] ++ [x] ++ [n] ++ post).
        rewrite !reverse_app. simpl. by rewrite <- !app_assoc. }
      by apply NoDup_reverse_2.
    + assert (reverse post ++ n :: x :: p :: reverse pre = reverse (pre ++ p :: x :: n :: post)) as ->.
      { change (pre ++ p :: x :: n :: post) with (pre ++ [p] ++ [x] ++ [n] ++ post).
        rewrite !reverse_app. simpl. by rewrite <- !app_assoc. }
      rewrite <- HL, reverse_full. apply (rl_prev _ _ _ _ _ Hrl).
    + by rewrite Hp.
    + done.
  - rewrite <- (rl_data_hd _ _ _ _ _ Hrl). apply entry_of_ext, Hdt, Hne. by left.
  - rewrite <- (rl_data_tl _ _ _ _ _ Hrl). apply entry_of_ext, Hdt, Hne.
    right. apply elem_of_app. right. by left.
  - intros z Hz. rewrite (entry_of_ext h h' z).
    + by apply (rl_data _ _ _ _ _ Hrl), Hsub.
    + by apply Hdt, Hne, Hin.
  - intros y z k Hy Hz.
    rewrite (key_of_ext h h' y) by (by apply Hdt, Hne, Hin).
    rewrite (key_of_ext h h' z) by (by apply Hdt, Hne, Hin).
    apply (rl_keys _ _ _ _ _ Hrl); by apply Hsub.
  - done.
Qed.


(** ** Unchaining a node from its bucket *)

Lemma filter_ne_notin (x : positive) (c : list positive) :
  x ∉ c -> filter (fun z => z <> x) c = c.
Proof.
  induction c as [|z c IH]; [done|]. intros Hx.
  rewrite filter_cons_True; [rewrite IH; [done|] |].
  - intros Hin. apply Hx. by right.
  - intros ->. apply Hx. by left.
Qed.

(** The scan has left the bucket head behind and stands at the
    [hash_next] field of node [y]. *)
Lemma erase_loop_chain a x nx : forall c y ny fuel w,
  nodes w !! x = Some nx ->
  nodes w !! y = Some ny ->
  chain (fld hash_next (nodes w)) (hash_next ny) c None ->
  NoDup (y :: c) -> x ∈ c ->
  length c < fuel ->
  exists w', erase_loop fuel a (Some x) (hash_next_place (Some y)) w = Ok tt w' /\
    maps w' = maps w /\ next_loc w' = next_loc w /\
    same_lists (nodes w) (nodes w') /\
    (forall z, z ∉ y :: c -> nodes w' !! z = nodes w !! z) /\
    nodes w' !! x = Some nx /\
    chain (fld hash_next (nodes w')) (Some y) (y :: filter (fun z => z <> x) c) None.
Proof.
  induction c as [|z c IH]; intros y ny fuel w Hx Hy Hc Hnd Hin Hfuel;
    [by apply elem_of_nil in Hin|].
  destruct fuel as [|fuel]; [simpl in Hfuel; lia|].
  simpl in Hc. destruct Hc as [Hyz (t & Ht & Hc)].
  apply NoDup_cons in Hnd as [Hyc Hnd]. apply NoDup_cons in Hnd as [Hzc Hnd].
  assert (y <> z) as Hyz' by (intros ->; apply Hyc; by left).
  cbn [erase_loop read_place].
  rewrite (bind_Ok _ _ _ _ _ (load_Ok hash_next _ _ _ Hy)). rewrite Hyz.
  destruct (decide (Some z = Some x)) as [[= ->]|Hne].
  - rewrite (bind_Ok _ _ _ _ _ (load_Ok hash_next _ _ _ Hx)).
    cbn [write_place]. rewrite (store_Ok _ _ _ _ Hy).
    rewrite (fld_Some _ _ _ _ Hx) in Ht. injection Ht as <-.
    eexists. split; [reflexivity|]. cbn [nodes maps next_loc].
    split_and!; try done.
    + by apply same_lists_store.
    + intros z Hz. apply lookup_insert_ne. intros ->. apply Hz. by left.
    + by rewrite lookup_insert_ne.
    + rewrite filter_cons_False by (intros Hn; by apply Hn).
      rewrite filter_ne_notin by done. simpl. split; [done|].
      exists (hash_next nx). split; [by rewrite fld_insert_eq|].
      eapply chain_ext; [|exact Hc]. intros z Hz. symmetry. apply fld_insert_ne.
      intros ->. apply Hyc. by right.
  - assert (x ∈ c) as Hin'.
    { apply elem_of_cons in Hin as [->|?]; [done|done]. }
    assert (exists nz, nodes w !! z = Some nz /\ hash_next nz = t) as (nz & Hz & Hnz).
    { unfold fld in Ht. destruct (nodes w !! z) as [nz|]; [|done].
      exists nz. split; [done|]. by injection Ht. }
    subst t.
    destruct (IH z nz fuel w Hx Hz Hc) as (w' & Hrun & Hm & Hnl & Hs & Hfr & Hx' & Hc').
    { by apply NoDup_cons. }
    { done. }
    { simpl in Hfuel. lia. }
    exists w'. split; [done|]. split_and!; try done.
    + intros u Hu. apply Hfr. intros Hin2. apply Hu. by right.
    + rewrite filter_cons_True by (intros ->; done).
      simpl. split; [done|]. exists (Some z). split; [|exact Hc'].
      unfold fld. rewrite Hfr.
      * rewrite Hy. simpl. by rewrite Hyz.
      * intros [->|Hyin]%elem_of_cons; [done|]. apply Hyc. by right.
Qed.

Lemma set_buckets_id m : set_buckets (buckets m) m = m.
Proof. by destruct m. Qed.

Lemma read_place_bucket_Ok w a m idx b :
  maps w !! a = Some m -> buckets m !! N.to_nat idx = Some b ->
  read_place a (bucket_place idx) w = Ok b w.
Proof.
  intros Ha Hb. simpl. rewrite (bind_Ok _ _ _ _ _ (get_map_Ok _ _ _ Ha)).
  by apply bucket_get_Ok.
Qed.

(** The scan from the bucket head. *)
Lemma erase_loop_bucket w a m x nx idx b c fuel :
  maps w !! a = Some m -> nodes w !! x = Some nx ->
  buckets m !! N.to_nat idx = Some b ->
  chain (fld hash_next (nodes w)) b c None -> NoDup c -> x ∈ c ->
  length c < fuel ->
  exists w' b', erase_loop fuel a (Some x) (bucket_place idx) w = Ok tt w' /\
    maps w' = <[a := set_buckets (<[N.to_nat idx := b']> (buckets m)) m]> (maps w) /\
    next_loc w' = next_loc w /\
    same_lists (nodes w) (nodes w') /\
    (forall z, z ∉ c -> nodes w' !! z = nodes w !! z) /\
    nodes w' !! x = Some nx /\
    chain (fld hash_next (nodes w')) b' (filter (fun z => z <> x) c) None.
Proof.
  intros Ha Hx Hb Hc Hnd Hin Hfuel.
  destruct c as [|z c]; [by apply elem_of_nil in Hin|].
  destruct fuel as [|fuel]; [simpl in Hfuel; lia|].
  simpl in Hc. destruct Hc as [-> (t & Ht & Hc)].
  apply NoDup_cons in Hnd as [Hzc Hnd].
  cbn [erase_loop].
  rewrite (bind_Ok _ _ _ _ _ (read_place_bucket_Ok _ _ _ _ _ Ha Hb)).
  destruct (decide (Some z = Some x)) as [[= ->]|Hne].
  - rewrite (bind_Ok _ _ _ _ _ (load_Ok hash_next _ _ _ Hx)).
    cbn [write_place]. rewrite (bucket_set_Ok _ _ _ _ _ Ha) by (by eapply lookup_lt_Some).
    rewrite (fld_Some _ _ _ _ Hx) in Ht. injection Ht as <-.
    eexists _, (hash_next nx). split; [reflexivity|]. cbn [nodes maps next_loc].
    split_and!; try done.
    rewrite filter_cons_False by (intros Hn; by apply Hn).
    by rewrite filter_ne_notin.
  - assert (x ∈ c) as Hin'.
    { apply elem_of_cons in Hin as [->|?]; [done|done]. }
    assert (exists nz, nodes w !! z = Some nz /\ hash_next nz = t) as (nz & Hz & Hnz).
    { unfold fld in Ht. destruct (nodes w !! z) as [nz|]; [|done].
      exists nz. split; [done|]. by injection Ht. }
    subst t.
    destruct (erase_loop_chain a x nx c z nz fuel w Hx Hz Hc)
      as (w' & Hrun & Hm & Hnl & Hs & Hfr & Hx' & Hc').
    { by apply NoDup_cons. }
    { done. }
    { simpl in Hfuel. lia. }
    exists w', (Some z). split; [done|]. split_and!; try done.
    + rewrite Hm, (list_insert_id (buckets m) _ _ Hb), set_buckets_id.
      symmetry. by apply list_insert_id.
    + by rewrite filter_cons_True by (intros ->; done).
Qed.


Lemma rep_index_remove h h' m m' l l' cs x k c b' :
  rep_index h m l cs ->
  (forall z, z ∈ l' <-> z ∈ l /\ z <> x) ->
  x ∈ l -> key_of h x = Some k ->
  cs !! bucket_of m k = Some c ->
  (forall z, z ∈ l' -> fld data h' z = fld data h z) ->
  (forall z, z ∈ l' -> z ∉ c -> fld hash_next h' z = fld hash_next h z) ->
  buckets m' = <[bucket_of m k := b']> (buckets m) ->
  bucket_count m' = bucket_count m ->
  chain (fld hash_next h') b' (filter (fun z => z <> x) c) None ->
  rep_index h' m' l' (<[bucket_of m k := filter (fun z => z <> x) c]> cs).
Proof.
  intros Hri Hl' Hx Hk Hc Hdt Hhn Hbs Hbcs Hch'.
  pose proof Hri as [Hbc Hpos Hlen Hch Hnd Hmem].
  assert (forall k, bucket_of m' k = bucket_of m k) as Hbo.
  { intros k'. unfold bucket_of. by rewrite Hbcs. }
  assert (forall z, z ∈ l' -> key_of h' z = key_of h z) as Hko.
  { intros z Hz. by apply key_of_ext, Hdt. }
  pose proof (lookup_lt_Some _ _ _ Hc) as Hlt.
  split.
  - rewrite Hbs, Hbcs, length_insert. done.
  - by rewrite Hbcs.
  - by rewrite Hbs, !length_insert.
  - intros i b0 c0 Hb0 Hc0. rewrite Hbs in Hb0.
    destruct (decide (bucket_of m k = i)) as [<-|Hne].
    + rewrite list_lookup_insert_eq in Hb0 by (by rewrite <- Hlen).
      rewrite list_lookup_insert_eq in Hc0 by done.
      injection Hb0 as <-. injection Hc0 as <-. done.
    + rewrite list_lookup_insert_ne in Hb0 by done.
      rewrite list_lookup_insert_ne in Hc0 by done.
      eapply chain_ext; [|by eapply Hch]. intros z Hz. symmetry.
      apply (Hmem i c0 z Hc0) in Hz as [Hzl (k' & Hk' & Hi)].
      assert (z <> x) as Hzx by (intros ->; congruence).
      apply Hhn.
      * by apply Hl'.
      * intros Hzc. apply (Hmem _ c z Hc) in Hzc as [_ (k'' & Hk'' & Hi'')]. congruence.
  - intros i c0 Hc0. destruct (decide (bucket_of m k = i)) as [<-|Hne].
    + rewrite list_lookup_insert_eq in Hc0 by done. injection Hc0 as <-.
      apply NoDup_filter. by eapply Hnd.
    + rewrite list_lookup_insert_ne in Hc0 by done. by eapply Hnd.
  - intros i c0 z Hc0. rewrite Hl'.
    destruct (decide (bucket_of m k = i)) as [<-|Hne].
    + rewrite list_lookup_insert_eq in Hc0 by done. injection Hc0 as <-.
      rewrite list_elem_of_filter, (Hmem _ c z Hc). split.
      * intros [Hzx [Hz (k' & Hk' & Hi)]]. split; [done|]. exists k'.
        rewrite Hko, Hbo by (by apply Hl'). done.
      * intros [[Hz Hzx] (k' & Hk' & Hi)]. split; [done|]. split; [done|].
        exists k'. rewrite Hko, Hbo in * by (by apply Hl'). done.
    + rewrite list_lookup_insert_ne in Hc0 by done.
      rewrite (Hmem _ c0 z Hc0). split.
      * intros [Hz (k' & Hk' & Hi)].
        assert (z <> x) as Hzx by (intros ->; congruence).
        split; [done|]. exists k'. rewrite Hko, Hbo by (by apply Hl'). done.
      * intros [[Hz Hzx] (k' & Hk' & Hi)]. split; [done|].
        exists k'. rewrite Hko, Hbo in * by (by apply Hl'). done.
Qed.


(** ** [erase] *)

Lemma deref_data_Ok n kv : data n = Some kv -> forall w, deref_data n w = Ok kv w.
Proof. intros Hd w. unfold deref_data. by rewrite Hd. Qed.

Lemma elem_of_remove_middle (l1 l2 : list positive) (x z : positive) :
  NoDup (l1 ++ x :: l2) -> z ∈ l1 ++ l2 <-> z ∈ l1 ++ x :: l2 /\ z <> x.
Proof.
  intros Hnd. apply NoDup_app in Hnd as (_ & Hd & Hnd).
  apply NoDup_cons in Hnd as [Hx2 _].
  rewrite !elem_of_app, elem_of_cons. split.
  - intros [Hz|Hz].
    + split; [by left|]. intros ->. apply (Hd x Hz). by left.
    + split; [right; by right|]. by intros ->.
  - intros [[Hz|[->|Hz]] Hne]; [by left | done | by right].
Qed.

Lemma erase_spec w a m hd tl l1 x l2 cs :
  maps w !! a = Some m -> rep (nodes w) m hd tl (l1 ++ x :: l2) cs -> sized m ->
  exists w' m' cs', erase a (mkIt (Some x) (Some a)) w = Ok tt w' /\
    maps w' = <[a := m']> (maps w) /\ next_loc w' = next_loc w /\
    head m' = head m /\ tail m' = tail m /\ bucket_count m' = bucket_count m /\
    rep (nodes w') m' hd tl (l1 ++ l2) cs' /\ sized m' /\
    (element_count m' + 1 = element_count m)%N /\
    nodes w' !! x = None /\
    (forall z, z <> x -> fld data (nodes w') z = fld data (nodes w) z) /\
    (forall z, z ∉ hd :: (l1 ++ x :: l2) ++ [tl] -> nodes w' !! z = nodes w !! z).
Proof.
  intros Ha [Hrl Hri] Hsz.
  destruct (rep_list_neighbours _ _ _ _ _ _ _ Hrl)
    as (p & n & pre & post & Hpre & Hpost & Hp & Hn).
  pose proof (rl_nodup _ _ _ _ _ Hrl) as Hnd.
  pose proof (rl_head _ _ _ _ _ Hrl) as Hhd.
  pose proof (rl_tail _ _ _ _ _ Hrl) as Htl.
  assert (hd :: (l1 ++ x :: l2) ++ [tl] = pre ++ p :: x :: n :: post) as HL.
  { by rewrite full_split, Hpre, Hpost, <- app_assoc. }
  assert (x ∈ l1 ++ x :: l2) as Hxl by (apply elem_of_app; right; by left).
  assert (x <> hd /\ x <> tl /\ x <> p /\ x <> n /\ p <> n) as (Hxhd & Hxtl & Hxp & Hxn & Hpn).
  { pose proof Hnd as Hnd'. apply NoDup_cons in Hnd' as [Hh Hnd'].
    apply NoDup_app in Hnd' as (_ & Ht & _). rewrite HL in Hnd.
    apply NoDup_app in Hnd as (_ & _ & Hnd).
    apply NoDup_cons in Hnd as [Hp1 Hnd]. apply NoDup_cons in Hnd as [Hx1 _].
    split_and!.
    - intros ->. apply Hh. apply elem_of_app. by left.
    - intros ->. apply (Ht tl Hxl). by left.
    - intros ->. apply Hp1. by left.
    - intros ->. apply Hx1. by left.
    - intros ->. apply Hp1. right. by left. }
  destruct (rl_data _ _ _ _ _ Hrl x Hxl) as [[k v] He].
  apply entry_of_Some in He as He'. destruct He' as (nx & Hx & Hdx).
  assert (prev nx = Some p) as Hpx by (rewrite (fld_Some _ _ _ _ Hx) in Hp; by injection Hp).
  assert (next nx = Some n) as Hnx by (rewrite (fld_Some _ _ _ _ Hx) in Hn; by injection Hn).
  assert (exists np, nodes w !! p = Some np) as (np & Hnp).
  { eapply rep_list_live; [exact Hrl|]. rewrite HL. apply elem_of_app. right. by left. }
  assert (exists nn, nodes w !! n = Some nn) as (nn & Hnn).
  { eapply rep_list_live; [exact Hrl|]. rewrite HL. apply elem_of_app.
    right. right. right. by left. }
  assert (p <> x) as Hpx' by done. assert (n <> x) as Hnx' by done.
  assert (n <> p) as Hnp' by done.
  assert (key_of (nodes w) x = Some k) as Hk by (apply key_of_Some; by exists v).
  pose proof (ri_bc_pos _ _ _ _ Hri) as Hpos.
  pose proof (bucket_of_lt m _ cs _ k Hri) as Hlt.
  destruct (lookup_lt_is_Some_2 (buckets m) _ Hlt) as [b Hb].
  pose proof Hlt as Hlt'. rewrite <- (ri_len _ _ _ _ Hri) in Hlt'.
  destruct (lookup_lt_is_Some_2 cs _ Hlt') as [c Hcs].
  pose proof Hb as Hb0. unfold bucket_of in Hb0.
  assert (x ∈ c) as Hxc.
  { apply (ri_mem _ _ _ _ Hri _ c x Hcs). split; [done|]. by exists k. }
  unfold erase.
  mstep get_map_Ok. cbn [node map]. rewrite Hhd, Htl.
  destruct (decide _) as [[Hbad|[[= Hbad]|[= Hbad]]]|_]; [done..|].
  mstep (load_Ok prev). rewrite Hpx.
  mstep (load_Ok next). rewrite Hnx.
  mstep store_Ok.
  mstep (load_Ok next). rewrite Hnx.
  mstep (load_Ok prev). rewrite Hpx.
  mstep store_Ok.
  mstep deref_Ok.
  mstep deref_data_Ok.
  mstep bucket_index_Ok.
  mstep bucket_get_Ok.
  unfold get_fuel at 1. unfold bind at 1. cbn [nodes].
  set (h2 := <[n := set_prev (Some p) nn]> (<[p := set_next (Some n) np]> (nodes w))).
  set (w2 := mkWorld h2 (next_loc w) (maps w)).
  assert (forall z, fld hash_next h2 z = fld hash_next (nodes w) z) as Hhn2.
  { intros z. unfold h2.
    rewrite (fld_insert_same hash_next _ n z nn) by (by rewrite ?lookup_insert_ne).
    by rewrite (fld_insert_same hash_next _ p z np). }
  assert (forall z, fld data h2 z = fld data (nodes w) z) as Hdt2.
  { intros z. unfold h2.
    rewrite (fld_insert_same data _ n z nn) by (by rewrite ?lookup_insert_ne).
    by rewrite (fld_insert_same data _ p z np). }
  assert (h2 !! x = Some nx) as Hx2.
  { unfold h2. by rewrite !lookup_insert_ne. }
  pose proof (ri_chain _ _ _ _ Hri _ _ _ Hb Hcs) as Hc.
  pose proof (ri_nodup _ _ _ _ Hri _ _ Hcs) as Hcnd.
  destruct (erase_loop_bucket w2 a m x nx (hash_func k mod bucket_count m)%N b c
              (S (base.size h2)) Ha Hx2 Hb0)
    as (w3 & b' & Hrun & Hm3 & Hnl3 & Hs3 & Hfr3 & Hx3 & Hc3).
  { eapply chain_ext; [|exact Hc]. intros z _. symmetry. apply Hhn2. }
  { done. }
  { done. }
  { eapply (chain_fuel hash_next w2); [|exact Hcnd].
    eapply chain_ext; [|exact Hc]. intros z _. symmetry. apply Hhn2. }
  rewrite (bind_Ok _ _ _ _ _ Hrun). clear Hrun.
  simpl in Hm3, Hnl3, Hs3, Hfr3.
  set (m3 := set_buckets (<[N.to_nat (hash_func k mod bucket_count m) := b']> (buckets m)) m) in *.
  assert (maps w3 !! a = Some m3) as Ha3.
  { rewrite Hm3. apply list_lookup_insert_eq. by eapply lookup_lt_Some. }
  mstep delete_Node_Ok.
  mstep get_map_Ok.
  erewrite put_map_Ok by heap_solve. cbn [nodes maps next_loc].
  set (m' := set_element_count (wrap_pred (element_count m3)) m3).
  set (h' := delete x (nodes w3)).
  exists (mkWorld h' (next_loc w3) (<[a := m']> (maps w3))), m',
    (<[bucket_of m k := filter (fun z => z <> x) c]> cs).
  split; [reflexivity|]. cbn [nodes maps next_loc].
  assert (forall {A} (f : Node -> A) z, z <> x -> fld f h' z = fld f (nodes w3) z) as Hh'.
  { intros A f z Hz. unfold h'. by apply fld_delete_ne. }
  assert (element_count m = N.of_nat (length (l1 ++ l2)) + 1)%N as Hcnt.
  { rewrite (rl_count _ _ _ _ _ Hrl), !length_app. simpl. lia. }
  pose proof (sized_range m Hsz) as Hrange. pose proof (sized_load _ Hsz) as Hload.
  assert (wrap_pred (element_count m) = N.of_nat (length (l1 ++ l2))) as Hwp.
  { rewrite Hcnt. apply wrap_pred_succ. unfold SIZE_MAX_plus_1.
    assert (2 ^ 63 < 2 ^ 64)%N by done. lia. }
  split_and!.
  - by rewrite Hm3, list_insert_insert_eq.
  - done.
  - done.
  - done.
  - done.
  - split.
    + eapply (rep_list_remove (nodes w) h' m m' hd tl l1 x l2 p n); try done.
      * rewrite Hh' by done. destruct (Hs3 p) as (_ & -> & _).
        unfold h2. rewrite fld_insert_ne by done. by rewrite fld_insert_eq.
      * rewrite Hh' by done. destruct (Hs3 n) as (_ & _ & ->).
        unfold h2. by rewrite fld_insert_eq.
      * intros z Hz. rewrite Hh' by done. destruct (Hs3 z) as (-> & _ & _). apply Hdt2.
      * intros z Hz1 Hz2. rewrite Hh' by done. destruct (Hs3 z) as (_ & -> & _).
        unfold h2. rewrite (fld_insert_same next _ n z nn) by (by rewrite ?lookup_insert_ne).
        by rewrite fld_insert_ne.
      * intros z Hz1 Hz2. rewrite Hh' by done. destruct (Hs3 z) as (_ & _ & ->).
        unfold h2. rewrite fld_insert_ne by done.
        by rewrite (fld_insert_same prev _ p z np).
    + assert (forall z, z ∈ l1 ++ l2 <-> z ∈ l1 ++ x :: l2 /\ z <> x) as Hl'.
      { intros z. apply elem_of_remove_middle.
        apply NoDup_cons in Hnd as [_ Hnd]. by apply NoDup_app in Hnd as (? & _). }
      eapply (rep_index_remove (nodes w) h' m m' _ (l1 ++ l2) cs x k c b'); try done.
      * intros z Hz. apply Hl' in Hz as [_ Hz].
        rewrite Hh' by done. destruct (Hs3 z) as (-> & _ & _). apply Hdt2.
      * intros z Hz Hzc. apply Hl' in Hz as [_ Hz]. rewrite Hh' by done.
        unfold fld. rewrite Hfr3 by done. apply Hhn2.
      * eapply chain_ext; [|exact Hc3]. intros z Hz. symmetry. apply Hh'.
        apply list_elem_of_filter in Hz as [Hz _]. done.
  - destruct Hsz as [Hp2 Hld]. split; [done|]. simpl. rewrite Hwp. lia.
  - simpl. rewrite Hwp. lia.
  - unfold h'. apply lookup_delete_eq.
  - intros z Hz. rewrite Hh' by done. destruct (Hs3 z) as (-> & _ & _). apply Hdt2.
  - intros z Hz.
    assert (z <> x /\ z <> p /\ z <> n) as (Hz1 & Hz2 & Hz3).
    { rewrite HL in Hz. split_and!; intros ->; apply Hz, elem_of_app; right.
      - right. by left.
      - by left.
      - right. right. by left. }
    unfold h'. rewrite lookup_delete_ne by done. rewrite Hfr3.
    + unfold h2. by rewrite !lookup_insert_ne.
    + intros Hzc. apply Hz. right. apply elem_of_app. left.
      by apply (ri_mem _ _ _ _ Hri _ c z Hcs).
Qed.


Lemma erase_raise w a m pos :
  maps w !! a = Some m ->
  map pos <> Some a \/ node pos = tail m \/ node pos = head m ->
  erase a pos w = Raise invalid_iterator w.
Proof.
  intros Ha Hbad. unfold erase. rewrite (bind_Ok _ _ _ _ _ (get_map_Ok _ _ _ Ha)).
  by destruct (decide _).
Qed.

(** ** [clear] *)

Lemma clear_loop_spec a tl : forall l fuel w m curr,
  maps w !! a = Some m -> tail m = Some tl -> NoDup (l ++ [tl]) ->
  chain (fld next (nodes w)) curr l (Some tl) -> length l < fuel ->
  exists w', clear_loop fuel a curr w = Ok tt w' /\
    maps w' = maps w /\ next_loc w' = next_loc w /\
    (forall z, z ∈ l -> nodes w' !! z = None) /\
    (forall z, z ∉ l -> nodes w' !! z = nodes w !! z).
Proof.
  induction l as [|x l IH]; intros fuel w m curr Ha Htl Hnd Hc Hfuel;
    (destruct fuel as [|fuel]; [simpl in Hfuel; lia|]); simpl in Hc; cbn [clear_loop].
  - subst curr. rewrite (bind_Ok _ _ _ _ _ (get_map_Ok _ _ _ Ha)). rewrite Htl.
    destruct (decide _); [|done]. exists w. split_and!; try done.
    by intros z ?%elem_of_nil.
  - destruct Hc as [-> (y & Hy & Hc)].
    rewrite (bind_Ok _ _ _ _ _ (get_map_Ok _ _ _ Ha)). rewrite Htl.
    simpl in Hnd. apply NoDup_cons in Hnd as [Hx Hnd].
    destruct (decide (Some x = Some tl)) as [[= ->]|_].
    { destruct Hx. apply elem_of_app. right. by left. }
    assert (exists nx, nodes w !! x = Some nx /\ next nx = y) as (nx & Hnx & Hy').
    { unfold fld in Hy. destruct (nodes w !! x) as [nx|]; [|done].
      exists nx. split; [done|]. by injection Hy. }
    subst y.
    rewrite (bind_Ok _ _ _ _ _ (load_Ok next _ _ _ Hnx)).
    rewrite (bind_Ok _ _ _ _ _ (delete_Node_Ok _ _ _ Hnx)).
    destruct (IH fuel (mkWorld (delete x (nodes w)) (next_loc w) (maps w)) m (next nx))
      as (w' & Hrun & Hm & Hnl & Hdel & Hfr); try done.
    { simpl. eapply chain_ext; [|exact Hc]. intros z Hz. symmetry.
      apply fld_delete_ne. intros ->. apply Hx. apply elem_of_app. by left. }
    { simpl in Hfuel. lia. }
    exists w'. split; [done|]. simpl in *. split_and!; try done.
    + intros z [->|Hz]%elem_of_cons; [|by apply Hdel].
      destruct (decide (x ∈ l)) as [Hin|Hnin]; [by apply Hdel|].
      rewrite Hfr by done. apply lookup_delete_eq.
    + intros z Hz. rewrite Hfr.
      * apply lookup_delete_ne. intros ->. apply Hz. by left.
      * intros Hin. apply Hz. by right.
Qed.

Lemma null_buckets_spec a : forall rounds i w m,
  maps w !! a = Some m -> N.to_nat i + rounds <= length (buckets m) ->
  exists bs, null_buckets rounds a i w =
      Ok tt (mkWorld (nodes w) (next_loc w) (<[a := set_buckets bs m]> (maps w))) /\
    length bs = length (buckets m) /\
    (forall j, j < N.to_nat i -> bs !! j = buckets m !! j) /\
    (forall j, N.to_nat i <= j < N.to_nat i + rounds -> bs !! j = Some None).
Proof.
  induction rounds as [|rounds IH]; intros i w m Ha Hlen; cbn [null_buckets].
  - exists (buckets m). rewrite set_buckets_id, list_insert_id by done.
    destruct w. split_and!; try done. intros j Hj. lia.
  - rewrite (bind_Ok _ _ _ _ _ (bucket_set_Ok _ _ _ i None Ha ltac:(lia))).
    set (m1 := set_buckets (<[N.to_nat i := None]> (buckets m)) m).
    destruct (IH (i + 1)%N (mkWorld (nodes w) (next_loc w) (<[a := m1]> (maps w))) m1)
      as (bs & Hrun & Hl & Hlo & Hhi).
    { simpl. apply list_lookup_insert_eq. by eapply lookup_lt_Some. }
    { simpl. rewrite length_insert. lia. }
    exists bs. simpl in *. rewrite list_insert_insert_eq in Hrun.
    rewrite length_insert in Hl. split_and!; try done.
    + intros j Hj. rewrite Hlo by lia. apply list_lookup_insert_ne. lia.
    + intros j Hj. destruct (decide (j = N.to_nat i)) as [->|Hne].
      * rewrite Hlo by lia. apply list_lookup_insert_eq. lia.
      * apply Hhi. lia.
Qed.

Lemma chain_end F p l x q : chain F p (l ++ [x]) q -> F x = Some q.
Proof.
  intros Hc. apply chain_app in Hc as (r & _ & Hc). simpl in Hc.
  by destruct Hc as [_ (y & Hy & ->)].
Qed.

Lemma rep_list_ends h m hd tl l :
  rep_list h m hd tl l -> fld next h tl = Some None /\ fld prev h hd = Some None.
Proof.
  intros Hrl. split.
  - pose proof (rl_next _ _ _ _ _ Hrl) as Hc.
    change (hd :: l ++ [tl]) with ((hd :: l) ++ [tl]) in Hc. by eapply chain_end.
  - pose proof (rl_prev _ _ _ _ _ Hrl) as Hc.
    change (tl :: reverse l ++ [hd]) with ((tl :: reverse l) ++ [hd]) in Hc.
    by eapply chain_end.
Qed.

Lemma clear_spec w a m hd tl l cs :
  maps w !! a = Some m -> rep (nodes w) m hd tl l cs ->
  exists w' m', clear a w = Ok tt w' /\
    maps w' = <[a := m']> (maps w) /\ next_loc w' = next_loc w /\
    head m' = head m /\ tail m' = tail m /\ bucket_count m' = bucket_count m /\
    element_count m' = 0%N /\
    rep (nodes w') m' hd tl [] (replicate (length (buckets m)) []) /\
    (forall z, z ∈ l -> nodes w' !! z = None) /\
    (forall z, is_Some (nodes w' !! z) -> is_Some (nodes w !! z)) /\
    (forall z, z ∉ hd :: l ++ [tl] -> nodes w' !! z = nodes w !! z).
Proof.
  intros Ha [Hrl Hri].
  pose proof (rl_nodup _ _ _ _ _ Hrl) as Hnd.
  pose proof (rl_head _ _ _ _ _ Hrl) as Hhd.
  pose proof (rl_tail _ _ _ _ _ Hrl) as Htl.
  destruct (rep_list_first _ _ _ _ _ Hrl) as (first & Hf & Hc).
  destruct (rep_list_ends _ _ _ _ _ Hrl) as [Hnt Hph].
  apply NoDup_cons in Hnd as [Hhdl Hnd].
  assert (hd <> tl) as Hht.
  { intros ->. apply Hhdl, elem_of_app. right. by left. }
  assert (tl <> hd) as Hth by done.
  assert (hd ∉ l) as Hhl by (intros ?; apply Hhdl, elem_of_app; by left).
  assert (tl ∉ l) as Htll.
  { intros Hin. apply NoDup_app in Hnd as (_ & Hd & _). apply (Hd tl Hin). by left. }
  assert (exists nh, nodes w !! hd = Some nh) as (nh & Hnh).
  { apply (fld_is_Some next). by rewrite Hf. }
  assert (exists nt, nodes w !! tl = Some nt) as (nt & Hnt').
  { apply (fld_is_Some next). by rewrite Hnt. }
  unfold clear.
  mstep get_map_Ok. rewrite Hhd, Htl.
  rewrite (bind_Ok _ _ _ _ _ (load_fld next w hd first Hf)).
  unfold get_fuel at 1. unfold bind at 1.
  destruct (clear_loop_spec a tl l (S (base.size (nodes w))) w m first)
    as (w1 & Hrun & Hm1 & Hnl1 & Hdel & Hfr); try done.
  { eapply (chain_fuel next); [exact Hc|]. by apply NoDup_app in Hnd as (? & _). }
  rewrite (bind_Ok _ _ _ _ _ Hrun). clear Hrun.
  assert (nodes w1 !! hd = Some nh) as Hnh1 by (by rewrite Hfr).
  assert (nodes w1 !! tl = Some nt) as Hnt1 by (by rewrite Hfr).
  assert (maps w1 !! a = Some m) as Ha1 by (by rewrite Hm1).
  mstep store_Ok.
  mstep store_Ok.
  mstep put_map_Ok.
  set (m2 := set_element_count 0 m).
  set (h' := <[tl := set_prev (Some hd) nt]> (<[hd := set_next (Some tl) nh]> (nodes w1))).
  destruct (null_buckets_spec a (N.to_nat (bucket_count m)) 0%N
              (mkWorld h' (next_loc w1) (<[a := m2]> (maps w1))) m2)
    as (bs & Hrun & Hl & _ & Hhi).
  { simpl. apply list_lookup_insert_eq. by eapply lookup_lt_Some. }
  { simpl. rewrite (ri_bc _ _ _ _ Hri). lia. }
  rewrite Hrun. clear Hrun. simpl in Hl, Hhi.
  assert (bs = replicate (N.to_nat (bucket_count m)) None) as ->.
  { apply list_eq. intros j. destruct (decide (j < length bs)) as [Hj|Hj].
    - rewrite Hhi by (rewrite (ri_bc _ _ _ _ Hri); lia).
      symmetry. apply lookup_replicate. split; [done|].
      rewrite (ri_bc _ _ _ _ Hri). lia.
    - rewrite !lookup_ge_None_2; [done| |lia].
      rewrite length_replicate, (ri_bc _ _ _ _ Hri). lia. }
  exists (mkWorld h' (next_loc w1)
            (<[a := set_buckets (replicate (N.to_nat (bucket_count m)) None) m2]>
               (<[a := m2]> (maps w1)))),
    (set_buckets (replicate (N.to_nat (bucket_count m)) None) m2).
  split; [reflexivity|]. cbn [nodes maps next_loc].
  rewrite list_insert_insert_eq.
  assert (h' !! hd = Some (set_next (Some tl) nh)) as Hh'.
  { unfold h'. rewrite lookup_insert_ne by done. by rewrite lookup_insert_eq. }
  assert (h' !! tl = Some (set_prev (Some hd) nt)) as Ht'.
  { unfold h'. by rewrite lookup_insert_eq. }
  split_and!; try done.
  - by rewrite Hm1.
  - split.
    + split; simpl; try done.
      * apply NoDup_cons. split; [by intros ?%list_elem_of_singleton|].
        apply NoDup_singleton.
      * split; [done|]. exists (Some tl). split; [by rewrite (fld_Some _ _ _ _ Hh')|].
        split; [done|]. exists None. split; [|done].
        rewrite (fld_Some _ _ _ _ Ht'). simpl.
        rewrite (fld_Some _ _ _ _ Hnt') in Hnt. done.
      * split; [done|]. exists (Some hd). split; [by rewrite (fld_Some _ _ _ _ Ht')|].
        split; [done|]. exists None. split; [|done].
        rewrite (fld_Some _ _ _ _ Hh'). simpl.
        rewrite (fld_Some _ _ _ _ Hnh) in Hph. done.
      * unfold entry_of. rewrite Hh'. simpl.
        pose proof (rl_data_hd _ _ _ _ _ Hrl) as Hd. unfold entry_of in Hd.
        by rewrite Hnh in Hd.
      * unfold entry_of. rewrite Ht'. simpl.
        pose proof (rl_data_tl _ _ _ _ _ Hrl) as Hd. unfold entry_of in Hd.
        by rewrite Hnt' in Hd.
      * by intros x ?%elem_of_nil.
      * by intros x y k ?%elem_of_nil.
    + assert (length (buckets m) = N.to_nat (bucket_count m)) as ->
        by (rewrite (ri_bc _ _ _ _ Hri); lia).
      eapply (rep_index_empty h' _ (bucket_count m)); [|reflexivity].
      apply (ri_bc_pos _ _ _ _ Hri).
  - intros z Hz. unfold h'. rewrite !lookup_insert_ne by (intros ->; done).
    by apply Hdel.
  - intros z. unfold h'. destruct (decide (z = tl)) as [->|?]; [by eexists|].
    destruct (decide (z = hd)) as [->|?]; [by eexists|].
    rewrite !lookup_insert_ne by done.
    destruct (decide (z ∈ l)) as [Hin|Hnin].
    + rewrite Hdel by done. by intros [? ?].
    + by rewrite Hfr.
  - intros z Hz. unfold h'.
    rewrite !lookup_insert_ne.
    + apply Hfr. intros Hin. apply Hz. right. apply elem_of_app. by left.
    + intros ->. apply Hz. by left.
    + intros ->. apply Hz. right. apply elem_of_app. right. by left.
Qed.


(** ** The invariant of the whole world *)

Lemma owns_iff h m hd tl l z :
  rep_list h m hd tl l -> owns m l z <-> z ∈ hd :: l ++ [tl].
Proof.
  intros Hrl. unfold owns.
  rewrite (rl_head _ _ _ _ _ Hrl), (rl_tail _ _ _ _ _ Hrl).
  rewrite elem_of_cons, elem_of_app, list_elem_of_singleton. split.
  - intros [[= ->]|[[= ->]|Hz]]; auto.
  - intros [->|[Hz| ->]]; auto.
Qed.

Lemma owns_live h m hd tl l z :
  rep_list h m hd tl l -> owns m l z -> is_Some (h !! z).
Proof.
  intros Hrl Hz. eapply rep_list_live; [exact Hrl|]. by apply (owns_iff h m hd tl l z Hrl).
Qed.

(** Nodes outside a container's footprint do not matter to it. *)
Lemma rep_frame h h' m hd tl l cs :
  rep h m hd tl l cs ->
  (forall z, z ∈ hd :: l ++ [tl] -> h' !! z = h !! z) ->
  rep h' m hd tl l cs.
Proof.
  intros [Hrl Hri] Hfr.
  assert (forall {A} (f : Node -> A) z, z ∈ hd :: l ++ [tl] -> fld f h' z = fld f h z) as Hf.
  { intros A f z Hz. unfold fld. by rewrite Hfr. }
  assert (forall z, z ∈ l -> z ∈ hd :: l ++ [tl]) as Hin.
  { intros z Hz. right. apply elem_of_app. by left. }
  split.
  - eapply rep_list_ext; [exact Hrl| |done..]. intros z Hz. split_and!; by apply Hf.
  - eapply rep_index_ext; [exact Hri| | |done..]; intros z Hz; by apply Hf, Hin.
Qed.

(** One container [a] of a well-formed world is updated (its other
    containers are untouched, and so are the nodes outside its footprint,
    up to fresh allocations). *)
Lemma winv_update w w' ls a m m' l l' hd tl cs cs' :
  winv w ls ->
  maps w !! a = Some m -> ls !! a = Some l ->
  rep (nodes w) m hd tl l cs ->
  maps w' = <[a := m']> (maps w) ->
  rep (nodes w') m' hd tl l' cs' -> sized m' ->
  (forall z, z ∈ l' -> z ∈ l \/ (next_loc w <= z)%positive) ->
  (forall z, z ∉ hd :: l ++ [tl] -> (z < next_loc w)%positive ->
             nodes w' !! z = nodes w !! z) ->
  (forall z, is_Some (nodes w' !! z) -> (z < next_loc w')%positive) ->
  winv w' (<[a := l']> ls) /\
  (forall b lb, b <> a -> ls !! b = Some lb ->
     entries (nodes w') lb = entries (nodes w) lb).
Proof.
  intros Hinv Ha Hla Hrep Hmaps Hrep' Hsz' Hl' Hfr Hfresh.
  destruct Hinv as [Hlen Hreps Hdisj Hfr0].
  assert (forall b mb lb z, b <> a -> maps w !! b = Some mb -> ls !! b = Some lb ->
            owns mb lb z -> nodes w' !! z = nodes w !! z) as Hother.
  { intros b mb lb z Hne Hb Hlb Hz.
    destruct (Hreps b mb lb Hb Hlb) as [(hdb & tlb & csb & [Hrlb _]) _].
    apply Hfr.
    - intros Hin. apply (Hdisj b a mb m lb l z Hne Hb Ha Hlb Hla Hz).
      destruct Hrep as [Hrl _]. by apply (owns_iff _ _ _ _ _ z Hrl).
    - apply Hfr0. by eapply owns_live. }
  split; [split|].
  - by rewrite length_insert, Hmaps, length_insert.
  - intros b mb lb Hb Hlb. rewrite Hmaps in Hb.
    destruct (decide (a = b)) as [<-|Hne].
    + rewrite list_lookup_insert_eq in Hb by (by eapply lookup_lt_Some).
      rewrite list_lookup_insert_eq in Hlb by (by eapply lookup_lt_Some).
      injection Hb as <-. injection Hlb as <-. split; [|done]. by exists hd, tl, cs'.
    + rewrite list_lookup_insert_ne in Hb by done.
      rewrite list_lookup_insert_ne in Hlb by done.
      destruct (Hreps b mb lb Hb Hlb) as [(hdb & tlb & csb & Hrb) Hszb].
      split; [|done]. exists hdb, tlb, csb. eapply rep_frame; [exact Hrb|].
      intros z Hz. apply (Hother b mb lb z); try done.
      destruct Hrb as [Hrlb _]. by apply (owns_iff _ _ _ _ _ z Hrlb).
  - assert (forall b mb lb z, b <> a -> maps w !! b = Some mb -> ls !! b = Some lb ->
              owns mb lb z -> owns m' l' z -> False) as Hda.
    { intros b mb lb z Hne Hb Hlb Hzb Hza.
      destruct Hrep as [Hrl _]. destruct Hrep' as [Hrl' _].
      destruct (Hreps b mb lb Hb Hlb) as [(hdb & tlb & csb & [Hrlb _]) _].
      assert (owns m l z \/ (next_loc w <= z)%positive) as [Hz|Hz].
      { apply (owns_iff _ _ _ _ _ z Hrl') in Hza.
        rewrite (owns_iff _ _ _ _ _ z Hrl).
        rewrite elem_of_cons, elem_of_app in Hza |- *.
        destruct Hza as [->|[Hz|Hz]]; [left; by left| |left; right; by right].
        destruct (Hl' z Hz) as [?|?]; [left; right; by left | by right]. }
      - by apply (Hdisj b a mb m lb l z Hne Hb Ha Hlb Hla Hzb).
      - assert (z < next_loc w)%positive; [|lia].
        apply Hfr0. by eapply owns_live. }
    intros b c mb mc lb lc z Hne Hb Hc Hlb Hlc Hzb Hzc. rewrite Hmaps in Hb, Hc.
    destruct (decide (a = b)) as [<-|Hab]; [|destruct (decide (a = c)) as [<-|Hac]].
    + rewrite list_lookup_insert_eq in Hb by (by eapply lookup_lt_Some).
      rewrite list_lookup_insert_eq in Hlb by (by eapply lookup_lt_Some).
      rewrite list_lookup_insert_ne in Hc by done.
      rewrite list_lookup_insert_ne in Hlc by done.
      injection Hb as <-. injection Hlb as <-.
      by apply (Hda c mc lc z).
    + rewrite list_lookup_insert_eq in Hc by (by eapply lookup_lt_Some).
      rewrite list_lookup_insert_eq in Hlc by (by eapply lookup_lt_Some).
      rewrite list_lookup_insert_ne in Hb by done.
      rewrite list_lookup_insert_ne in Hlb by done.
      injection Hc as <-. injection Hlc as <-.
      by apply (Hda b mb lb z).
    + rewrite list_lookup_insert_ne in Hb, Hc by done.
      rewrite list_lookup_insert_ne in Hlb, Hlc by done.
      by apply (Hdisj b c mb mc lb lc z).
  - done.
  - intros b lb Hne Hlb.
    assert (is_Some (maps w !! b)) as [mb Hb].
    { apply lookup_lt_is_Some. rewrite <- Hlen. by eapply lookup_lt_Some. }
    apply entries_ext. intros z Hz. unfold fld.
    rewrite (Hother b mb lb z); try done. right. by right.
Qed.


(** ** Entries of an order list *)

Lemma entries_length h l :
  (forall x, x ∈ l -> is_Some (entry_of h x)) -> length (entries h l) = length l.
Proof.
  induction l as [|x l IH]; intros Hd; [done|].
  destruct (Hd x) as [e He]; [by left|]. rewrite (entries_cons_Some _ _ _ _ He). simpl.
  rewrite IH; [done|]. intros z Hz. apply Hd. by right.
Qed.

Lemma entries_lookup h l i x :
  (forall x, x ∈ l -> is_Some (entry_of h x)) ->
  l !! i = Some x -> entries h l !! i = entry_of h x.
Proof.
  revert i. induction l as [|y l IH]; intros i Hd Hi; [done|].
  destruct (Hd y) as [e He]; [by left|]. rewrite (entries_cons_Some _ _ _ _ He).
  destruct i as [|i]; simpl in *.
  - injection Hi as <-. done.
  - apply IH; [|done]. intros z Hz. apply Hd. by right.
Qed.

Lemma entries_delete h l i :
  (forall x, x ∈ l -> is_Some (entry_of h x)) ->
  entries h (delete i l) = delete i (entries h l).
Proof.
  revert i. induction l as [|y l IH]; intros i Hd; [done|].
  destruct (Hd y) as [e He]; [by left|]. rewrite (entries_cons_Some _ _ _ _ He).
  destruct i as [|i]; [done|].
  change (entries h (y :: delete i l) = e :: delete i (entries h l)).
  rewrite (entries_cons_Some _ _ _ _ He). f_equal. apply IH.
  intros z Hz. apply Hd. by right.
Qed.

Lemma entries_keys h l k :
  (forall x, x ∈ l -> is_Some (entry_of h x)) ->
  k ∈ (entries h l).*1 <-> exists x, x ∈ l /\ key_of h x = Some k.
Proof.
  intros Hd. induction l as [|y l IH].
  - simpl. split; [by intros ?%elem_of_nil | by intros (x & ?%elem_of_nil & _)].
  - destruct (Hd y) as [[k' v'] He]; [by left|]. rewrite (entries_cons_Some _ _ _ _ He).
    rewrite fmap_cons, elem_of_cons, IH by (intros z Hz; apply Hd; by right). simpl.
    assert (key_of h y = Some k') as Hky by (apply key_of_Some; by exists v').
    split.
    + intros [->|(x & Hx & Hk)]; [exists y; split; [by left|done] |].
      exists x. split; [by right|done].
    + intros (x & [->|Hx]%elem_of_cons & Hk); [left; congruence|].
      right. by exists x.
Qed.

(** The index of a key in the entries is the index of its node. *)
Lemma entries_key_index h l k x :
  (forall x, x ∈ l -> is_Some (entry_of h x)) ->
  (forall x y k, x ∈ l -> y ∈ l -> key_of h x = Some k -> key_of h y = Some k -> x = y) ->
  x ∈ l -> key_of h x = Some k ->
  l !! key_index k (entries h l) = Some x.
Proof.
  intros Hd Hu Hx Hk. induction l as [|y l IH]; [by apply elem_of_nil in Hx|].
  destruct (Hd y) as [[k' v'] He]; [by left|]. rewrite (entries_cons_Some _ _ _ _ He).
  assert (key_of h y = Some k') as Hky by (apply key_of_Some; by exists v').
  simpl. destruct (decide (k' = k)) as [->|Hne].
  - simpl. f_equal. apply (Hu y x k); [by left|done|done|done].
  - simpl. apply IH.
    + intros z Hz. apply Hd. by right.
    + intros a b k0 Ha Hb. apply Hu; by right.
    + apply elem_of_cons in Hx as [->|Hx]; [congruence|done].
Qed.

Lemma entries_key_index_absent h l k :
  (forall x, x ∈ l -> is_Some (entry_of h x)) ->
  (forall x, x ∈ l -> key_of h x <> Some k) ->
  key_index k (entries h l) = length l.
Proof.
  intros Hd Hno. induction l as [|y l IH]; [done|].
  destruct (Hd y) as [[k' v'] He]; [by left|]. rewrite (entries_cons_Some _ _ _ _ He).
  assert (key_of h y = Some k') as Hky by (apply key_of_Some; by exists v').
  simpl. destruct (decide (k' = k)) as [->|Hne].
  - destruct (Hno y); [by left|done].
  - f_equal. apply IH.
    + intros z Hz. apply Hd. by right.
    + intros z Hz. apply Hno. by right.
Qed.

(** ** Stepping along the order list *)

Lemma chain_adjacent F p L1 y x L2 q :
  chain F p (L1 ++ y :: x :: L2) q -> F y = Some (Some x).
Proof.
  intros Hc. apply chain_app in Hc as (r & _ & Hc). simpl in Hc.
  by destruct Hc as [_ (t & Ht & [-> _])].
Qed.

Lemma lookup_adjacent {A} (L : list A) i y x :
  L !! i = Some y -> L !! S i = Some x ->
  exists L1 L2, L = L1 ++ y :: x :: L2.
Proof.
  intros Hy Hx. exists (take i L), (drop (S (S i)) L).
  rewrite <- (take_drop_middle L i y Hy) at 1. f_equal. f_equal.
  apply (drop_S L x (S i)) in Hx. by rewrite <- Hx.
Qed.

Lemma rep_list_next h m hd tl l i y x :
  rep_list h m hd tl l ->
  (hd :: l ++ [tl]) !! i = Some y -> (hd :: l ++ [tl]) !! S i = Some x ->
  fld next h y = Some (Some x) /\ fld prev h x = Some (Some y).
Proof.
  intros Hrl Hy Hx. destruct (lookup_adjacent _ _ _ _ Hy Hx) as (L1 & L2 & HL). split.
  - pose proof (rl_next _ _ _ _ _ Hrl) as Hc. rewrite HL in Hc. by eapply chain_adjacent.
  - pose proof (rl_prev _ _ _ _ _ Hrl) as Hc. rewrite <- reverse_full, HL in Hc.
    change (L1 ++ y :: x :: L2) with (L1 ++ [y] ++ [x] ++ L2) in Hc.
    rewrite !reverse_app in Hc. simpl in Hc. rewrite <- !app_assoc in Hc. simpl in Hc.
    by eapply chain_adjacent.
Qed.


(** ** The operations on a well-formed world *)

Lemma winv_lookup w ls a m :
  winv w ls -> maps w !! a = Some m ->
  exists l hd tl cs, ls !! a = Some l /\ rep (nodes w) m hd tl l cs /\ sized m.
Proof.
  intros Hinv Ha.
  assert (is_Some (ls !! a)) as [l Hl].
  { apply lookup_lt_is_Some. rewrite (winv_len _ _ Hinv). by eapply lookup_lt_Some. }
  destruct (winv_rep _ _ Hinv a m l Ha Hl) as [(hd & tl & cs & Hrep) Hsz].
  by exists l, hd, tl, cs.
Qed.

Lemma has_key_true h l k :
  (forall x, x ∈ l -> is_Some (entry_of h x)) ->
  has_key k (entries h l) = true <-> exists x, x ∈ l /\ key_of h x = Some k.
Proof. intros Hd. unfold has_key. rewrite bool_decide_eq_true. by apply entries_keys. Qed.

Lemma has_key_false h l k :
  (forall x, x ∈ l -> is_Some (entry_of h x)) ->
  has_key k (entries h l) = false <-> forall x, x ∈ l -> key_of h x <> Some k.
Proof.
  intros Hd. unfold has_key. rewrite bool_decide_eq_false, (entries_keys h l k Hd).
  split.
  - intros Hno x Hx Hk. apply Hno. by exists x.
  - intros Hno (x & Hx & Hk). by apply (Hno x).
Qed.

Lemma insert_present w ls a m l k v :
  winv w ls -> maps w !! a = Some m -> ls !! a = Some l ->
  has_key k (entries (nodes w) l) = true ->
  exists x, x ∈ l /\ key_of (nodes w) x = Some k /\
    insert a (k, v) w = Ok (mkIt (Some x) (Some a), false) w.
Proof.
  intros Hinv Ha Hl Hk.
  destruct (winv_rep _ _ Hinv a m l Ha Hl) as [(hd & tl & cs & Hrep) Hsz].
  pose proof Hrep as [Hrl _].
  apply (has_key_true _ _ _ (rl_data _ _ _ _ _ Hrl)) in Hk as (x & Hx & Hkx).
  exists x. split; [done|]. split; [done|]. by eapply insert_existing.
Qed.

Lemma insert_absent_full w ls a m l k v :
  winv w ls -> maps w !! a = Some m -> ls !! a = Some l ->
  has_key k (entries (nodes w) l) = false -> full m ->
  insert a (k, v) w = Undef.
Proof.
  intros Hinv Ha Hl Hk Hfull.
  destruct (winv_rep _ _ Hinv a m l Ha Hl) as [(hd & tl & cs & Hrep) Hsz].
  pose proof Hrep as [Hrl _].
  pose proof (proj1 (has_key_false _ _ k (rl_data _ _ _ _ _ Hrl)) Hk) as Hk'.
  clear Hk. rename Hk' into Hk.
  unfold insert. simpl.
  rewrite (bind_Ok _ _ _ _ _ (find_node_absent _ _ _ _ _ _ _ _ Ha Hrep Hk)).
  unfold bind. by rewrite (check_and_rehash_full _ _ _ _ _ _ _ Ha Hrep Hfull).
Qed.

Lemma insert_absent w ls a m l k v :
  winv w ls -> maps w !! a = Some m -> ls !! a = Some l ->
  has_key k (entries (nodes w) l) = false -> ~ full m ->
  exists w' m', insert a (k, v) w = Ok (mkIt (Some (next_loc w)) (Some a), true) w' /\
    winv w' (<[a := l ++ [next_loc w]]> ls) /\
    maps w' = <[a := m']> (maps w) /\
    head m' = head m /\ tail m' = tail m /\
    element_count m' = (element_count m + 1)%N /\
    (if over_load_factor m then bucket_count m' = (2 * bucket_count m)%N
     else bucket_count m' = bucket_count m) /\
    entries (nodes w') (l ++ [next_loc w]) = entries (nodes w) l ++ [(k, v)] /\
    (forall b lb, b <> a -> ls !! b = Some lb ->
       entries (nodes w') lb = entries (nodes w) lb) /\
    (forall z, z <> next_loc w -> fld data (nodes w') z = fld data (nodes w) z) /\
    (forall z, z <> next_loc w -> fld next (nodes w') z = fld next (nodes w) z
                                   \/ owns m l z) /\
    entry_of (nodes w') (next_loc w) = Some (k, v).
Proof.
  intros Hinv Ha Hl Hk Hfull.
  destruct (winv_rep _ _ Hinv a m l Ha Hl) as [(hd & tl & cs & Hrep) Hsz].
  pose proof Hrep as [Hrl _].
  pose proof (proj1 (has_key_false _ _ k (rl_data _ _ _ _ _ Hrl)) Hk) as Hk'.
  clear Hk. rename Hk' into Hk.
  destruct (insert_new_spec w a m hd tl l cs k v Ha Hrep Hsz Hfull (winv_fresh _ _ Hinv) Hk)
    as (w' & m' & cs' & Hrun & Hmaps & Hnl & Hhd & Htl & Hrep' & Hsz' & Hec & Hbc & He & Hdt & Hfr).
  exists w', m'. split; [done|].
  assert (forall z, is_Some (nodes w' !! z) -> (z < next_loc w')%positive) as Hfresh'.
  { intros z Hz. rewrite Hnl. destruct (decide (z = next_loc w)) as [->|Hne]; [lia|].
    apply (fld_is_Some data) in Hz. rewrite Hdt in Hz by done.
    apply fld_is_Some, (winv_fresh _ _ Hinv) in Hz. lia. }
  destruct (winv_update w w' ls a m m' l (l ++ [next_loc w]) hd tl cs cs')
    as [Hinv' Hent]; try done.
  { intros z [Hz| ->%list_elem_of_singleton]%elem_of_app; [by left | right; lia]. }
  { intros z Hz1 Hz2. apply Hfr; [done|]. lia. }
  split_and!; try done.
  - rewrite entries_app. f_equal.
    + apply entries_ext. intros z Hz. apply Hdt. intros ->.
      assert (is_Some (nodes w !! next_loc w)) as Hlive.
      { eapply rep_list_live; [exact Hrl|]. right. apply elem_of_app. by left. }
      apply (winv_fresh _ _ Hinv) in Hlive. lia.
    + by rewrite (entries_cons_Some _ _ _ _ He).
  - intros z Hz. destruct (decide (z ∈ hd :: l ++ [tl])) as [Hin|Hnin].
    + right. by apply (owns_iff _ _ _ _ _ z Hrl).
    + left. unfold fld. by rewrite Hfr.
Qed.


(** ** Constructors *)

Lemma rep_fresh h hd tl n ec :
  h !! hd = Some (mkNode None None (Some tl) None) ->
  h !! tl = Some (mkNode None (Some hd) None None) ->
  hd <> tl -> n <> 0%N -> ec = 0%N ->
  rep h (mkMap (Some hd) (Some tl) (replicate (N.to_nat n) None) n ec) hd tl []
      (replicate (N.to_nat n) []).
Proof.
  intros Hh Ht Hne Hn ->. split.
  - split; simpl; try done.
    + apply NoDup_cons. split; [by intros ?%list_elem_of_singleton|].
      apply NoDup_singleton.
    + split; [done|]. exists (Some tl). split; [by rewrite (fld_Some _ _ _ _ Hh)|].
      split; [done|]. exists None. split; [|done]. by rewrite (fld_Some _ _ _ _ Ht).
    + split; [done|]. exists (Some hd). split; [by rewrite (fld_Some _ _ _ _ Ht)|].
      split; [done|]. exists None. split; [|done]. by rewrite (fld_Some _ _ _ _ Hh).
    + unfold entry_of. by rewrite Hh.
    + unfold entry_of. by rewrite Ht.
    + by intros x ?%elem_of_nil.
    + by intros x y k ?%elem_of_nil.
  - by eapply rep_index_empty.
Qed.

(** A new container, built from fresh nodes, joins a well-formed world. *)
Lemma winv_add w w' ls m' hd tl cs' :
  winv w ls ->
  maps w' = maps w ++ [m'] ->
  rep (nodes w') m' hd tl [] cs' -> sized m' ->
  (next_loc w <= hd)%positive -> (next_loc w <= tl)%positive ->
  (forall z, (z < next_loc w)%positive -> nodes w' !! z = nodes w !! z) ->
  (forall z, is_Some (nodes w' !! z) -> (z < next_loc w')%positive) ->
  winv w' (ls ++ [[]]) /\
  (forall b lb, ls !! b = Some lb -> entries (nodes w') lb = entries (nodes w) lb).
Proof.
  intros Hinv Hmaps Hrep' Hsz' Hhd Htl Hfr Hfresh.
  destruct Hinv as [Hlen Hreps Hdisj Hfr0].
  assert (forall b mb lb z, maps w !! b = Some mb -> ls !! b = Some lb ->
            owns mb lb z -> (z < next_loc w)%positive) as Hold.
  { intros b mb lb z Hb Hlb Hz.
    destruct (Hreps b mb lb Hb Hlb) as [(hdb & tlb & csb & [Hrlb _]) _].
    apply Hfr0. by eapply owns_live. }
  assert (forall z, owns m' [] z -> (next_loc w <= z)%positive) as Hnew.
  { intros z Hz. destruct Hrep' as [Hrl' _].
    apply (owns_iff _ _ _ _ _ z Hrl') in Hz. simpl in Hz.
    apply elem_of_cons in Hz as [->|Hz]; [done|].
    apply list_elem_of_singleton in Hz as ->. done. }
  split; [split|].
  - by rewrite Hmaps, !length_app, Hlen.
  - intros b mb lb Hb Hlb. rewrite Hmaps in Hb.
    apply lookup_snoc_Some in Hb as [[Hlt Hb]|[-> <-]].
    + apply lookup_snoc_Some in Hlb as [[_ Hlb]|[-> _]]; [|lia].
      destruct (Hreps b mb lb Hb Hlb) as [(hdb & tlb & csb & Hrb) Hszb].
      split; [|done]. exists hdb, tlb, csb. eapply rep_frame; [exact Hrb|].
      intros z Hz. apply Hfr. apply (Hold b mb lb z Hb Hlb).
      destruct Hrb as [Hrlb _]. by apply (owns_iff _ _ _ _ _ z Hrlb).
    + apply lookup_snoc_Some in Hlb as [[Hlt _]|[_ <-]]; [lia|].
      split; [|done]. by exists hd, tl, cs'.
  - intros b c mb mc lb lc z Hne Hb Hc Hlb Hlc Hzb Hzc. rewrite Hmaps in Hb, Hc.
    apply lookup_snoc_Some in Hb as [[Hltb Hb]|[-> <-]];
      apply lookup_snoc_Some in Hc as [[Hltc Hc]|[-> <-]]; try lia.
    + apply lookup_snoc_Some in Hlb as [[_ Hlb]|[-> _]]; [|lia].
      apply lookup_snoc_Some in Hlc as [[_ Hlc]|[-> _]]; [|lia].
      by apply (Hdisj b c mb mc lb lc z).
    + apply lookup_snoc_Some in Hlb as [[_ Hlb]|[-> _]]; [|lia].
      apply lookup_snoc_Some in Hlc as [[? _]|[_ <-]]; [lia|].
      pose proof (Hold b mb lb z Hb Hlb Hzb). pose proof (Hnew z Hzc). lia.
    + apply lookup_snoc_Some in Hlc as [[_ Hlc]|[-> _]]; [|lia].
      apply lookup_snoc_Some in Hlb as [[? _]|[_ <-]]; [lia|].
      pose proof (Hold c mc lc z Hc Hlc Hzc). pose proof (Hnew z Hzb). lia.
  - done.
  - intros b lb Hlb.
    assert (is_Some (maps w !! b)) as [mb Hb].
    { apply lookup_lt_is_Some. rewrite <- Hlen. by eapply lookup_lt_Some. }
    apply entries_ext. intros z Hz. unfold fld. rewrite Hfr; [done|].
    apply (Hold b mb lb z Hb Hlb). right. by right.
Qed.

Lemma construct_spec w ls :
  winv w ls ->
  exists w', construct w = Ok (length (maps w)) w' /\
    winv w' (ls ++ [[]]) /\
    (forall b lb, ls !! b = Some lb -> entries (nodes w') lb = entries (nodes w) lb) /\
    (exists m', maps w' = maps w ++ [m'] /\
       bucket_count m' = INITIAL_BUCKET_COUNT /\ element_count m' = 0%N).
Proof.
  intros Hinv. unfold construct.
  unfold new_Node at 1. unfold bind at 1.
  unfold new_Node at 1. unfold bind at 1. cbn [nodes maps next_loc].
  unfold new_map at 1. unfold bind at 1. cbn [nodes maps next_loc].
  set (hd := next_loc w). set (tl := Pos.succ hd).
  assert (hd <> tl) as Hne by (unfold tl; lia). assert (tl <> hd) as Hne' by done.
  mstep store_Ok.
  mstep store_Ok.
  mstep init_buckets_Ok.
  cbn [nodes maps next_loc head tail element_count]. unfold ret.
  cbn [set_next set_prev data prev next hash_next].
  set (m0 := mkMap (Some hd) (Some tl) [] 0 0).
  set (m' := mkMap (Some hd) (Some tl) (replicate (N.to_nat INITIAL_BUCKET_COUNT) None)
                   INITIAL_BUCKET_COUNT 0).
  assert (<[length (maps w) := m']> (maps w ++ [m0]) = maps w ++ [m']) as Hmaps.
  { rewrite insert_app_r_alt by lia. by rewrite Nat.sub_diag. }
  rewrite Hmaps.
  match goal with |- context [mkWorld ?h _ _] => set (h' := h) end.
  eexists. split; [reflexivity|].
  assert (h' !! hd = Some (mkNode None None (Some tl) None)) as Hh.
  { unfold h'. rewrite lookup_insert_ne by done. by rewrite lookup_insert_eq. }
  assert (h' !! tl = Some (mkNode None (Some hd) None None)) as Ht.
  { unfold h'. by rewrite lookup_insert_eq. }
  assert (rep h' m' hd tl [] (replicate (N.to_nat INITIAL_BUCKET_COUNT) [])) as Hrep'
    by (by apply rep_fresh).
  assert (sized m') as Hsz'.
  { split; [by exists 4%N | simpl; unfold INITIAL_BUCKET_COUNT; lia]. }
  assert (forall z, (z < next_loc w)%positive -> h' !! z = nodes w !! z) as Hfr.
  { intros z Hz. unfold h'. rewrite !lookup_insert_ne; [done|unfold tl, hd; lia..]. }
  assert (forall z, is_Some (h' !! z) -> (z < Pos.succ tl)%positive) as Hfresh.
  { intros z Hz. unfold h' in Hz.
    destruct (decide (z = tl)) as [->|?]; [lia|].
    destruct (decide (z = hd)) as [->|?]; [unfold tl; lia|].
    rewrite !lookup_insert_ne in Hz by done.
    apply (winv_fresh _ _ Hinv) in Hz. unfold tl, hd. lia. }
  destruct (winv_add w (mkWorld h' (Pos.succ tl) (maps w ++ [m'])) ls m' hd tl
              (replicate (N.to_nat INITIAL_BUCKET_COUNT) []) Hinv eq_refl Hrep' Hsz'
              ltac:(unfold hd; lia) ltac:(unfold tl, hd; lia) Hfr Hfresh)
    as [Hinv' Hent].
  split; [done|]. split; [done|]. by exists m'.
Qed.


(** ** Copying *)

Lemma sized_not_full m n :
  sized m -> (4 * (n + 1) <= 3 * 2 ^ 63 + 4)%N -> element_count m = n -> ~ full m.
Proof.
  intros Hsz Hn Hec [Hov Hbc]. apply over_load_factor_true in Hov.
  rewrite Hbc, Hec in Hov. lia.
Qed.

Lemma sized_bound m : sized m -> (4 * element_count m <= 3 * 2 ^ 63 + 4)%N.
Proof.
  intros Hsz. pose proof (sized_range m Hsz). pose proof (sized_load m Hsz). lia.
Qed.

Lemma copy_loop_spec this other : forall rest done fuel w ls mo lo lt tlo curr,
  this <> other -> winv w ls ->
  maps w !! other = Some mo -> ls !! other = Some lo -> ls !! this = Some lt ->
  lo = done ++ rest ->
  entries (nodes w) lt = entries (nodes w) done ->
  tail mo = Some tlo -> (rest ++ [tlo]) !! 0 = curr ->
  length rest < fuel ->
  exists w' lt', copy_loop fuel this other curr w = Ok tt w' /\
    winv w' (<[this := lt']> ls) /\
    entries (nodes w') lt' = entries (nodes w) lo /\
    (forall b lb, b <> this -> ls !! b = Some lb ->
       entries (nodes w') lb = entries (nodes w) lb) /\
    (forall b, b <> this -> maps w' !! b = maps w !! b).
Proof.
  induction rest as [|x rest IH];
    intros done fuel w ls mo lo lt tlo curr Hne Hinv Ho Hlo Hlt Hsplit Hent Htl Hcurr Hfuel;
    (destruct fuel as [|fuel]; [simpl in Hfuel; lia|]); cbn [copy_loop];
    rewrite (bind_Ok _ _ _ _ _ (get_map_Ok _ _ _ Ho)); rewrite Htl;
    simpl in Hcurr; subst curr.
  - destruct (decide _); [|done]. rewrite app_nil_r in Hsplit. subst done.
    exists w, lt. split_and!; try done. by rewrite list_insert_id.
  - destruct (winv_rep _ _ Hinv other mo lo Ho Hlo) as [(hdo & tlo' & cso & [Hrlo Hrio]) Hszo].
    pose proof (rl_tail _ _ _ _ _ Hrlo) as Htl'. rewrite Htl in Htl'. injection Htl' as <-.
    pose proof (rl_nodup _ _ _ _ _ Hrlo) as Hnd. rewrite Hsplit in Hnd.
    assert (x ∈ lo) as Hxlo by (rewrite Hsplit; apply elem_of_app; right; by left).
    assert (x <> tlo) as Hxtl.
    { intros ->. apply NoDup_cons in Hnd as [_ Hnd].
      apply NoDup_app in Hnd as (_ & Hd & _). apply (Hd tlo); [|by left].
      by rewrite <- Hsplit. }
    destruct (decide (Some x = Some tlo)) as [[= ?]|_]; [done|].
    destruct (rl_data _ _ _ _ _ Hrlo x Hxlo) as [[k v] He].
    apply entry_of_Some in He as He'. destruct He' as (nx & Hnx & Hdx).
    mstep deref_Ok. mstep deref_data_Ok.
    assert (is_Some (maps w !! this)) as [mt Ht].
    { apply lookup_lt_is_Some. rewrite <- (winv_len _ _ Hinv). by eapply lookup_lt_Some. }
    destruct (winv_rep _ _ Hinv this mt lt Ht Hlt) as [(hdt & tlt & cst & [Hrlt Hrit]) Hszt].
    assert (length lt = length done) as Hlen.
    { rewrite <- (entries_length (nodes w) lt (rl_data _ _ _ _ _ Hrlt)), Hent.
      apply entries_length. intros z Hz. apply (rl_data _ _ _ _ _ Hrlo).
      rewrite Hsplit. apply elem_of_app. by left. }
    assert (has_key k (entries (nodes w) lt) = false) as Hk.
    { rewrite Hent. apply has_key_false.
      - intros z Hz. apply (rl_data _ _ _ _ _ Hrlo). rewrite Hsplit. apply elem_of_app. by left.
      - intros z Hz Hkz.
        assert (z = x) as ->.
        { apply (rl_keys _ _ _ _ _ Hrlo z x k); try done.
          - rewrite Hsplit. apply elem_of_app. by left.
          - apply key_of_Some. by exists v. }
        apply NoDup_cons in Hnd as [_ Hnd]. rewrite <- app_assoc in Hnd.
        apply NoDup_app in Hnd as (_ & Hd & _). apply (Hd x Hz). by left. }
    assert (~ full mt) as Hfull.
    { eapply (sized_not_full mt (N.of_nat (length lt))); [done| |apply (rl_count _ _ _ _ _ Hrlt)].
      pose proof (sized_bound mo Hszo) as Hb. rewrite (rl_count _ _ _ _ _ Hrlo) in Hb.
      rewrite Hsplit, length_app in Hb. simpl in Hb. lia. }
    destruct (insert_absent w ls this mt lt k v Hinv Ht Hlt Hk Hfull)
      as (w1 & mt1 & Hrun & Hinv1 & Hmaps1 & _ & _ & _ & _ & Hent1 & Hoth1 & Hdt1 & _).
    rewrite (bind_Ok _ _ _ _ _ Hrun). clear Hrun.
    assert (maps w1 !! other = Some mo) as Ho1.
    { rewrite Hmaps1. by rewrite list_lookup_insert_ne. }
    assert (<[this := lt ++ [next_loc w]]> ls !! other = Some lo) as Hlo1.
    { by rewrite list_lookup_insert_ne. }
    destruct (winv_rep _ _ Hinv1 other mo lo Ho1 Hlo1) as [(hdo1 & tlo1 & cso1 & [Hrlo1 _]) _].
    pose proof (rl_tail _ _ _ _ _ Hrlo1) as Htl1. rewrite Htl in Htl1. injection Htl1 as <-.
    assert (exists c, (rest ++ [tlo]) !! 0 = Some c) as (c & Hc).
    { destruct rest; by eexists. }
    assert (fld next (nodes w1) x = Some (Some c)) as Hnext.
    { eapply (rep_list_next _ _ _ _ _ (S (length done)) x c Hrlo1).
      - rewrite Hsplit. simpl. rewrite <- app_assoc. by apply list_lookup_middle.
      - rewrite Hsplit. simpl. rewrite <- app_assoc.
        rewrite lookup_app_r by lia. rewrite Nat.sub_succ_l, Nat.sub_diag by lia.
        simpl. done. }
    rewrite (bind_Ok _ _ _ _ _ (load_fld next w1 x _ Hnext)).
    assert (forall z, z ∈ lo -> z <> next_loc w) as Hold.
    { intros z Hz ->.
      assert (is_Some (nodes w !! next_loc w)) as Hlive.
      { eapply rep_list_live; [exact Hrlo|]. right. apply elem_of_app. by left. }
      apply (winv_fresh _ _ Hinv) in Hlive. lia. }
    destruct (IH (done ++ [x]) fuel w1 (<[this := lt ++ [next_loc w]]> ls) mo lo
                 (lt ++ [next_loc w]) tlo (Some c))
      as (w' & lt' & Hrun & Hinv' & Hent' & Hoth' & Hmaps'); try done.
    { apply list_lookup_insert_eq. by eapply lookup_lt_Some. }
    { by rewrite <- app_assoc. }
    { rewrite Hent1, Hent, entries_app. f_equal.
      - symmetry. apply entries_ext. intros z Hz. apply Hdt1, Hold.
        rewrite Hsplit. apply elem_of_app. by left.
      - assert (entry_of (nodes w1) x = Some (k, v)) as He1.
        { rewrite <- He. apply entry_of_ext, Hdt1, Hold. done. }
        by rewrite (entries_cons_Some _ _ _ _ He1). }
    { simpl in Hfuel. lia. }
    rewrite list_insert_insert_eq in Hinv'.
    exists w', lt'. split_and!; try done.
    + rewrite Hent'. by apply (Hoth1 other lo).
    + intros b lb Hb Hlb. rewrite (Hoth' b lb); [by apply (Hoth1 b lb)|done|].
      by rewrite list_lookup_insert_ne.
    + intros b Hb. rewrite Hmaps' by done. rewrite Hmaps1.
      by rewrite list_lookup_insert_ne.
Qed.


Lemma clear_winv w ls a m l :
  winv w ls -> maps w !! a = Some m -> ls !! a = Some l ->
  exists w' m', clear a w = Ok tt w' /\
    winv w' (<[a := []]> ls) /\
    maps w' = <[a := m']> (maps w) /\
    bucket_count m' = bucket_count m /\ element_count m' = 0%N /\
    (forall b lb, b <> a -> ls !! b = Some lb ->
       entries (nodes w') lb = entries (nodes w) lb).
Proof.
  intros Hinv Ha Hl.
  destruct (winv_rep _ _ Hinv a m l Ha Hl) as [(hd & tl & cs & Hrep) Hsz].
  destruct (clear_spec w a m hd tl l cs Ha Hrep)
    as (w' & m' & Hrun & Hmaps & Hnl & Hhd & Htl & Hbc & Hec & Hrep' & Hdel & Hlive & Hfr).
  exists w', m'. split; [done|].
  destruct (winv_update w w' ls a m m' l [] hd tl cs (replicate (length (buckets m)) []))
    as [Hinv' Hent]; try done.
  - destruct Hsz as [Hp2 Hld]. split; [by rewrite Hbc | rewrite Hec; lia].
  - by intros z ?%elem_of_nil.
  - intros z Hz _. by apply Hfr.
  - intros z Hz. rewrite Hnl. by apply (winv_fresh _ _ Hinv), Hlive.
Qed.

Lemma copy_construct_spec w ls other mo lo :
  winv w ls -> maps w !! other = Some mo -> ls !! other = Some lo ->
  exists w' lt, copy_construct other w = Ok (length (maps w)) w' /\
    winv w' (ls ++ [lt]) /\
    entries (nodes w') lt = entries (nodes w) lo /\
    (forall b lb, ls !! b = Some lb -> entries (nodes w') lb = entries (nodes w) lb) /\
    (forall b, b < length (maps w) -> maps w' !! b = maps w !! b) /\
    length (maps w') = S (length (maps w)).
Proof.
  intros Hinv Ho Hlo. unfold copy_construct.
  destruct (winv_rep _ _ Hinv other mo lo Ho Hlo) as [(hdo & tlo & cso & [Hrlo Hrio]) Hszo].
  pose proof (lookup_lt_Some _ _ _ Ho) as Hlt.
  assert (length (maps w) <> other) as Hneo by lia.
  mstep get_map_Ok.
  unfold new_Node at 1. unfold bind at 1.
  unfold new_Node at 1. unfold bind at 1. cbn [nodes maps next_loc].
  unfold new_map at 1. unfold bind at 1. cbn [nodes maps next_loc].
  set (hd := next_loc w). set (tl := Pos.succ hd).
  assert (hd <> tl) as Hne by (unfold tl; lia). assert (tl <> hd) as Hne' by done.
  mstep store_Ok.
  mstep store_Ok.
  mstep get_map_Ok.
  mstep init_buckets_Ok.
  cbn [nodes maps next_loc head tail element_count].
  cbn [set_next set_prev data prev next hash_next].
  set (m0 := mkMap (Some hd) (Some tl) [] 0 0).
  set (m' := mkMap (Some hd) (Some tl) (replicate (N.to_nat (bucket_count mo)) None)
                   (bucket_count mo) 0).
  assert (<[length (maps w) := m']> (maps w ++ [m0]) = maps w ++ [m']) as Hmaps.
  { rewrite insert_app_r_alt by lia. by rewrite Nat.sub_diag. }
  rewrite Hmaps.
  match goal with |- context [mkWorld ?h _ _] => set (h' := h) end.
  assert (h' !! hd = Some (mkNode None None (Some tl) None)) as Hh.
  { unfold h'. rewrite lookup_insert_ne by done. by rewrite lookup_insert_eq. }
  assert (h' !! tl = Some (mkNode None (Some hd) None None)) as Ht.
  { unfold h'. by rewrite lookup_insert_eq. }
  assert (rep h' m' hd tl [] (replicate (N.to_nat (bucket_count mo)) [])) as Hrep'.
  { apply rep_fresh; try done. apply (ri_bc_pos _ _ _ _ Hrio). }
  assert (sized m') as Hsz'.
  { destruct Hszo as [Hp2 _]. split; [done | simpl; lia]. }
  assert (forall z, (z < next_loc w)%positive -> h' !! z = nodes w !! z) as Hfr.
  { intros z Hz. unfold h'. rewrite !lookup_insert_ne; [done|unfold tl, hd; lia..]. }
  assert (forall z, is_Some (h' !! z) -> (z < Pos.succ tl)%positive) as Hfresh.
  { intros z Hz. unfold h' in Hz.
    destruct (decide (z = tl)) as [->|?]; [lia|].
    destruct (decide (z = hd)) as [->|?]; [unfold tl; lia|].
    rewrite !lookup_insert_ne in Hz by done.
    apply (winv_fresh _ _ Hinv) in Hz. unfold tl, hd. lia. }
  set (w1 := mkWorld h' (Pos.succ tl) (maps w ++ [m'])).
  destruct (winv_add w w1 ls m' hd tl
              (replicate (N.to_nat (bucket_count mo)) []) Hinv eq_refl Hrep' Hsz'
              ltac:(unfold hd; lia) ltac:(unfold tl, hd; lia) Hfr Hfresh)
    as [Hinv1 Hent1].
  assert (maps w1 !! other = Some mo) as Ho1.
  { simpl. by rewrite lookup_app_l. }
  assert ((ls ++ [[]]) !! other = Some lo) as Hlo1.
  { rewrite lookup_app_l; [done|]. by eapply lookup_lt_Some. }
  rewrite (bind_Ok _ _ _ _ _ (get_map_Ok _ _ _ Ho1)).
  destruct (winv_rep _ _ Hinv1 other mo lo Ho1 Hlo1) as [(hdo1 & tlo1 & cso1 & [Hrlo1 _]) _].
  destruct (rep_list_first _ _ _ _ _ Hrlo1) as (first & Hf & Hc).
  rewrite (rl_head _ _ _ _ _ Hrlo1).
  rewrite (bind_Ok _ _ _ _ _ (load_fld next w1 hdo1 first Hf)).
  unfold get_fuel at 1. unfold bind at 1.
  pose proof (winv_len _ _ Hinv) as Hlen.
  destruct (copy_loop_spec (length (maps w)) other lo [] (S (base.size (nodes w1))) w1
              (ls ++ [[]]) mo lo [] tlo1 first)
    as (w' & lt' & Hrun & Hinv' & Hent' & Hoth' & Hmaps'); try done.
  { rewrite <- Hlen. by apply list_lookup_middle. }
  { apply (rl_tail _ _ _ _ _ Hrlo1). }
  { destruct lo as [|x lo']; simpl in *.
    - by rewrite Hc.
    - by destruct Hc as [-> _]. }
  { eapply (chain_fuel next); [exact Hc|].
    pose proof (rl_nodup _ _ _ _ _ Hrlo1) as Hnd. apply NoDup_cons in Hnd as [_ Hnd].
    by apply NoDup_app in Hnd as (? & _). }
  rewrite (bind_Ok _ _ _ _ _ Hrun). unfold ret.
  exists w', lt'. split; [done|].
  rewrite <- Hlen in Hinv'. rewrite insert_app_r_alt, Nat.sub_diag in Hinv' by lia.
  simpl in Hinv'.
  split_and!; try done.
  - rewrite Hent'. by apply (Hent1 other lo).
  - intros b lb Hlb. rewrite (Hoth' b lb).
    + by apply (Hent1 b lb).
    + apply lookup_lt_Some in Hlb. lia.
    + rewrite lookup_app_l; [done|]. by eapply lookup_lt_Some.
  - intros b Hb. rewrite Hmaps' by lia. simpl. by rewrite lookup_app_l.
  - rewrite <- (winv_len _ _ Hinv'), length_app, Hlen. simpl. lia.
Qed.

Lemma assign_spec w ls this other mt mo lt lo :
  winv w ls -> maps w !! this = Some mt -> maps w !! other = Some mo ->
  ls !! this = Some lt -> ls !! other = Some lo ->
  exists w' lt', assign this other w = Ok tt w' /\
    winv w' (<[this := lt']> ls) /\
    entries (nodes w') lt' = entries (nodes w) lo /\
    (forall b lb, b <> this -> ls !! b = Some lb ->
       entries (nodes w') lb = entries (nodes w) lb) /\
    (forall b, b <> this -> maps w' !! b = maps w !! b).
Proof.
  intros Hinv Ht Ho Hlt Hlo. unfold assign.
  mstep get_map_Ok. mstep get_map_Ok.
  destruct (decide (this = other)) as [->|Hne].
  - exists w, lt. unfold ret. rewrite list_insert_id by done.
    split_and!; try done. congruence.
  - destruct (clear_winv w ls this mt lt Hinv Ht Hlt)
      as (w1 & mt1 & Hrun & Hinv1 & Hmaps1 & _ & _ & Hent1).
    rewrite (bind_Ok _ _ _ _ _ Hrun). clear Hrun.
    assert (maps w1 !! other = Some mo) as Ho1.
    { rewrite Hmaps1. by rewrite list_lookup_insert_ne. }
    assert (<[this := []]> ls !! other = Some lo) as Hlo1.
    { by rewrite list_lookup_insert_ne. }
    rewrite (bind_Ok _ _ _ _ _ (get_map_Ok _ _ _ Ho1)).
    destruct (winv_rep _ _ Hinv1 other mo lo Ho1 Hlo1) as [(hdo1 & tlo1 & cso1 & [Hrlo1 _]) _].
    destruct (rep_list_first _ _ _ _ _ Hrlo1) as (first & Hf & Hc).
    rewrite (rl_head _ _ _ _ _ Hrlo1).
    rewrite (bind_Ok _ _ _ _ _ (load_fld next w1 hdo1 first Hf)).
    unfold get_fuel at 1. unfold bind at 1.
    destruct (copy_loop_spec this other lo [] (S (base.size (nodes w1))) w1
                (<[this := []]> ls) mo lo [] tlo1 first)
      as (w' & lt' & Hrun & Hinv' & Hent' & Hoth' & Hmaps'); try done.
    { apply list_lookup_insert_eq. by eapply lookup_lt_Some. }
    { apply (rl_tail _ _ _ _ _ Hrlo1). }
    { destruct lo as [|x lo']; simpl in *.
      - by rewrite Hc.
      - by destruct Hc as [-> _]. }
    { eapply (chain_fuel next); [exact Hc|].
      pose proof (rl_nodup _ _ _ _ _ Hrlo1) as Hnd. apply NoDup_cons in Hnd as [_ Hnd].
      by apply NoDup_app in Hnd as (? & _). }
    rewrite list_insert_insert_eq in Hinv'.
    exists w', lt'. split_and!; try done.
    + rewrite Hent'. by apply (Hent1 other lo).
    + intros b lb Hb Hlb. rewrite (Hoth' b lb); [by apply (Hent1 b lb)|done|].
      by rewrite list_lookup_insert_ne.
    + intros b Hb. rewrite Hmaps' by done. rewrite Hmaps1.
      by rewrite list_lookup_insert_ne.
Qed.


(** ** Positions *)

Lemma ms_lookup h (ls : list (list positive)) a l :
  ls !! a = Some l -> (entries h <$> ls) !!! a = entries h l.
Proof.
  intros Hl. apply list_lookup_total_correct. by rewrite list_lookup_fmap, Hl.
Qed.

Lemma snoc_lookup_tail (l : list positive) (tl : positive) i :
  NoDup (l ++ [tl]) -> (l ++ [tl]) !! i = Some tl <-> i = length l.
Proof.
  intros Hnd. split.
  - intros Hi. apply lookup_snoc_Some in Hi as [[Hlt Hi]|[-> _]]; [|done].
    apply NoDup_app in Hnd as (_ & Hd & _). destruct (Hd tl); [|by left].
    by eapply list_elem_of_lookup_2.
  - intros ->. by apply list_lookup_middle.
Qed.

Lemma begin_spec w a m hd tl l cs :
  maps w !! a = Some m -> rep (nodes w) m hd tl l cs ->
  exists c, (l ++ [tl]) !! 0 = Some c /\ begin a w = Ok (mkIt (Some c) (Some a)) w.
Proof.
  intros Ha [Hrl _]. unfold begin.
  assert (exists c, (l ++ [tl]) !! 0 = Some c) as (c & Hc) by (destruct l; by eexists).
  exists c. split; [done|].
  destruct (rep_list_next _ _ _ _ _ 0 hd c Hrl) as [Hn _]; [done|done|].
  mstep get_map_Ok. rewrite (rl_head _ _ _ _ _ Hrl).
  by rewrite (bind_Ok _ _ _ _ _ (load_fld next w hd _ Hn)).
Qed.

Lemma end_spec w a m hd tl l cs :
  maps w !! a = Some m -> rep (nodes w) m hd tl l cs ->
  end_ a w = Ok (mkIt (Some tl) (Some a)) w.
Proof.
  intros Ha [Hrl _]. unfold end_. mstep get_map_Ok.
  by rewrite (rl_tail _ _ _ _ _ Hrl).
Qed.

Lemma find_spec w a m hd tl l cs k :
  maps w !! a = Some m -> rep (nodes w) m hd tl l cs ->
  exists x, (l ++ [tl]) !! key_index k (entries (nodes w) l) = Some x /\
    find a k w = Ok (mkIt (Some x) (Some a)) w /\
    (x = tl <-> has_key k (entries (nodes w) l) = false) /\
    (x <> tl -> x ∈ l /\ key_of (nodes w) x = Some k).
Proof.
  intros Ha Hrep. pose proof Hrep as [Hrl _]. unfold find.
  pose proof (rl_nodup _ _ _ _ _ Hrl) as Hnd. apply NoDup_cons in Hnd as [_ Hnd].
  destruct (find_node_spec w a m hd tl l cs k Ha Hrep) as ([x|] & Hrun & Hspec);
    rewrite (bind_Ok _ _ _ _ _ Hrun).
  - destruct Hspec as [Hx Hk]. exists x.
    assert (x <> tl) as Hxtl.
    { intros ->. apply NoDup_app in Hnd as (_ & Hd & _). apply (Hd tl Hx). by left. }
    split_and!; try done.
    + rewrite lookup_app_l.
      * by apply entries_key_index; [apply (rl_data _ _ _ _ _ Hrl)|apply (rl_keys _ _ _ _ _ Hrl)|..].
      * eapply lookup_lt_Some.
        by apply entries_key_index; [apply (rl_data _ _ _ _ _ Hrl)|apply (rl_keys _ _ _ _ _ Hrl)|..].
    + split; [done|]. intros Hf.
      pose proof (proj1 (has_key_false _ _ k (rl_data _ _ _ _ _ Hrl)) Hf) as Hno.
      by destruct (Hno x Hx).
  - exists tl. rewrite (end_spec w a m hd tl l cs Ha Hrep).
    rewrite (entries_key_index_absent _ _ _ (rl_data _ _ _ _ _ Hrl) Hspec).
    split_and!; try done.
    + by apply list_lookup_middle.
    + split; [|done]. intros _. by apply has_key_false; [apply (rl_data _ _ _ _ _ Hrl)|].
Qed.

Lemma incr_spec w a m hd tl l cs i x :
  maps w !! a = Some m -> rep (nodes w) m hd tl l cs ->
  (l ++ [tl]) !! i = Some x ->
  (i = length l /\ incr (mkIt (Some x) (Some a)) w = Raise invalid_iterator w) \/
  (i < length l /\ exists y, (l ++ [tl]) !! S i = Some y /\
     incr (mkIt (Some x) (Some a)) w = Ok (mkIt (Some y) (Some a)) w).
Proof.
  intros Ha [Hrl _] Hi. unfold incr. cbn [node map map_of].
  pose proof (rl_nodup _ _ _ _ _ Hrl) as Hnd. apply NoDup_cons in Hnd as [_ Hnd].
  mstep get_map_Ok. rewrite (rl_tail _ _ _ _ _ Hrl).
  destruct (decide (Some x = Some tl)) as [[= ->]|Hne].
  - left. split; [|done]. by apply (snoc_lookup_tail l tl i Hnd).
  - right. apply lookup_snoc_Some in Hi as Hi'. destruct Hi' as [[Hlt Hi']|[_ <-]]; [|done].
    split; [done|].
    assert (exists y, (l ++ [tl]) !! S i = Some y) as (y & Hy).
    { apply lookup_lt_is_Some. rewrite length_app. simpl. lia. }
    exists y. split; [done|].
    destruct (rep_list_next _ _ _ _ _ (S i) x y Hrl) as [Hn _]; [done|done|].
    by rewrite (bind_Ok _ _ _ _ _ (load_fld next w x _ Hn)).
Qed.

Lemma decr_spec w a m hd tl l cs i x :
  maps w !! a = Some m -> rep (nodes w) m hd tl l cs ->
  (l ++ [tl]) !! i = Some x ->
  match i with
  | O => decr (mkIt (Some x) (Some a)) w = Raise invalid_iterator w
  | S j => exists y, (l ++ [tl]) !! j = Some y /\
             decr (mkIt (Some x) (Some a)) w = Ok (mkIt (Some y) (Some a)) w
  end.
Proof.
  intros Ha [Hrl _] Hi. unfold decr. cbn [node map map_of].
  pose proof (rl_nodup _ _ _ _ _ Hrl) as Hnd.
  destruct i as [|j].
  - destruct (rep_list_next _ _ _ _ _ 0 hd x Hrl) as [_ Hp]; [done|done|].
    rewrite (bind_Ok _ _ _ _ _ (load_fld prev w x _ Hp)).
    mstep get_map_Ok. rewrite (rl_head _ _ _ _ _ Hrl).
    by destruct (decide _).
  - assert (exists y, (l ++ [tl]) !! j = Some y) as (y & Hy).
    { apply lookup_lt_is_Some. apply lookup_lt_Some in Hi. lia. }
    exists y. split; [done|].
    destruct (rep_list_next _ _ _ _ _ (S j) y x Hrl) as [_ Hp]; [done|done|].
    rewrite (bind_Ok _ _ _ _ _ (load_fld prev w x _ Hp)).
    mstep get_map_Ok. rewrite (rl_head _ _ _ _ _ Hrl).
    assert (y <> hd) as Hyhd.
    { intros ->. apply NoDup_cons in Hnd as [Hnd _]. apply Hnd.
      by eapply list_elem_of_lookup_2. }
    destruct (decide (Some y = Some hd)) as [[= ?]|_]; [done|].
    by rewrite (bind_Ok _ _ _ _ _ (load_fld prev w x _ Hp)).
Qed.

Lemma eval_pos_sim w ls e :
  winv w ls ->
  match eval_pos e w with
  | Ok it w' => w' = w /\
      exists p, m_eval e (entries (nodes w) <$> ls) = Some p /\ pos_rel w ls it p
  | Raise ex w' => w' = w /\ ex = invalid_iterator /\
      m_eval e (entries (nodes w) <$> ls) = None
  | Undef => exists a, a ∈ pos_maps e /\ maps w !! a = None
  | Timeout => False
  end.
Proof.
  intros Hinv. induction e as [|a|a|a k|e IH|e IH]; cbn [eval_pos m_eval].
  - split; [done|]. by exists ADefault.
  - destruct (maps w !! a) as [m|] eqn:Ha.
    + destruct (winv_lookup _ _ _ _ Hinv Ha) as (l & hd & tl & cs & Hl & Hrep & _).
      destruct (begin_spec w a m hd tl l cs Ha Hrep) as (c & Hc & ->).
      split; [done|]. exists (AAt a 0). split; [done|].
      exists m, l, tl, c. pose proof Hrep as [Hrl _].
      by rewrite (rl_tail _ _ _ _ _ Hrl).
    + unfold begin, bind, get_map. rewrite Ha. exists a. split; [by left|done].
  - destruct (maps w !! a) as [m|] eqn:Ha.
    + destruct (winv_lookup _ _ _ _ Hinv Ha) as (l & hd & tl & cs & Hl & Hrep & _).
      rewrite (end_spec w a m hd tl l cs Ha Hrep). pose proof Hrep as [Hrl _].
      split; [done|]. eexists. split; [done|].
      exists m, l, tl, tl. rewrite (rl_tail _ _ _ _ _ Hrl). split_and!; try done.
      rewrite (ms_lookup _ _ _ _ Hl), (entries_length _ _ (rl_data _ _ _ _ _ Hrl)).
      by apply list_lookup_middle.
    + unfold end_, bind, get_map. rewrite Ha. exists a. split; [by left|done].
  - destruct (maps w !! a) as [m|] eqn:Ha.
    + destruct (winv_lookup _ _ _ _ Hinv Ha) as (l & hd & tl & cs & Hl & Hrep & _).
      destruct (find_spec w a m hd tl l cs k Ha Hrep) as (x & Hx & -> & _).
      pose proof Hrep as [Hrl _].
      split; [done|]. eexists. split; [done|].
      exists m, l, tl, x. rewrite (rl_tail _ _ _ _ _ Hrl). split_and!; try done.
      by rewrite (ms_lookup _ _ _ _ Hl).
    + unfold find, find_node, bind, get_map. rewrite Ha. exists a. split; [by left|done].
  - unfold bind. cbn [pos_maps]. destruct (eval_pos e w) as [it w'|ex w'| |]; try done.
    + destruct IH as [-> (p & Hp & Hrel)]. rewrite Hp. destruct p as [|a i].
      * simpl in Hrel. subst it. done.
      * destruct Hrel as (m & l & tl & x & Ha & Hl & Htl & Hi & ->).
        destruct (winv_rep _ _ Hinv a m l Ha Hl) as [(hd & tl' & cs & Hrep) _].
        pose proof Hrep as [Hrl _].
        pose proof (rl_tail _ _ _ _ _ Hrl) as Htl'. rewrite Htl in Htl'. injection Htl' as <-.
        rewrite (ms_lookup _ _ _ _ Hl), (entries_length _ _ (rl_data _ _ _ _ _ Hrl)).
        destruct (incr_spec w a m hd tl l cs i x Ha Hrep Hi) as [[-> ->]|[Hlt (y & Hy & ->)]].
        -- split; [done|]. split; [done|]. destruct (decide _); [lia|done].
        -- split; [done|]. destruct (decide _); [|lia]. eexists. split; [done|].
           by exists m, l, tl, y.
    + destruct IH as (-> & -> & ->). done.
  - unfold bind. cbn [pos_maps]. destruct (eval_pos e w) as [it w'|ex w'| |]; try done.
    + destruct IH as [-> (p & Hp & Hrel)]. rewrite Hp. destruct p as [|a i].
      * simpl in Hrel. subst it. done.
      * destruct Hrel as (m & l & tl & x & Ha & Hl & Htl & Hi & ->).
        destruct (winv_rep _ _ Hinv a m l Ha Hl) as [(hd & tl' & cs & Hrep) _].
        pose proof Hrep as [Hrl _].
        pose proof (rl_tail _ _ _ _ _ Hrl) as Htl'. rewrite Htl in Htl'. injection Htl' as <-.
        pose proof (decr_spec w a m hd tl l cs i x Ha Hrep Hi) as Hd.
        destruct i as [|j].
        -- rewrite Hd. done.
        -- destruct Hd as (y & Hy & ->). split; [done|]. eexists. split; [done|].
           by exists m, l, tl, y.
    + destruct IH as (-> & -> & ->). done.
Qed.


(** ** [erase] on a well-formed world *)

Lemma delete_length {A} (l : list A) i : length l <= i -> delete i l = l.
Proof.
  intros Hi. rewrite delete_take_drop, take_ge, drop_ge by lia. by rewrite app_nil_r.
Qed.

(** Two abstractions of a world agree once the entry of [a] is replaced. *)
Lemma entries_insert_ext h h' (ls : list (list positive)) a X :
  (forall b lb, b <> a -> ls !! b = Some lb -> entries h' lb = entries h lb) ->
  <[a := X]> (entries h' <$> ls) = <[a := X]> (entries h <$> ls).
Proof.
  intros Hoth. apply list_eq. intros j. destruct (decide (a = j)) as [->|Hne].
  - destruct (decide (j < length ls)) as [Hlt|Hge].
    + by rewrite !list_lookup_insert_eq by (by rewrite length_fmap).
    + by rewrite !lookup_ge_None_2 by (rewrite length_insert, length_fmap; lia).
  - rewrite !list_lookup_insert_ne by done. rewrite !list_lookup_fmap.
    destruct (ls !! j) as [lj|] eqn:Hj; [|done]. simpl. f_equal. by apply (Hoth j lj).
Qed.

Lemma erase_winv w ls a m l i x :
  winv w ls -> maps w !! a = Some m -> ls !! a = Some l -> l !! i = Some x ->
  exists w' m', erase a (mkIt (Some x) (Some a)) w = Ok tt w' /\
    winv w' (<[a := delete i l]> ls) /\
    maps w' = <[a := m']> (maps w) /\
    bucket_count m' = bucket_count m /\
    (element_count m' + 1 = element_count m)%N /\
    entries (nodes w') (delete i l) = delete i (entries (nodes w) l) /\
    (forall b lb, b <> a -> ls !! b = Some lb ->
       entries (nodes w') lb = entries (nodes w) lb) /\
    nodes w' !! x = None /\
    (forall z, z <> x -> fld data (nodes w') z = fld data (nodes w) z).
Proof.
  intros Hinv Ha Hl Hi.
  destruct (winv_rep _ _ Hinv a m l Ha Hl) as [(hd & tl & cs & Hrep) Hsz].
  pose proof Hrep as [Hrl _].
  pose proof (take_drop_middle l i x Hi) as Hsplit.
  rewrite <- Hsplit in Hrep.
  destruct (erase_spec w a m hd tl (take i l) x (drop (S i) l) cs Ha Hrep Hsz)
    as (w' & m' & cs' & Hrun & Hmaps & Hnl & Hhd & Htl & Hbc & Hrep' & Hsz' & Hec & Hx & Hdt & Hfr).
  rewrite <- delete_take_drop in Hrep'. rewrite Hsplit in Hrep, Hfr.
  exists w', m'. split; [done|].
  destruct (winv_update w w' ls a m m' l (delete i l) hd tl cs cs')
    as [Hinv' Hent]; try done.
  - intros z Hz. left. by eapply list_elem_of_delete_inv.
  - intros z Hz _. by apply Hfr.
  - intros z Hz. rewrite Hnl. apply (winv_fresh _ _ Hinv).
    destruct (decide (z = x)) as [->|Hne]; [rewrite Hx in Hz; by destruct Hz|].
    apply (fld_is_Some data). rewrite <- Hdt by done. by apply fld_is_Some.
  - split_and!; try done.
    rewrite <- (entries_delete _ _ _ (rl_data _ _ _ _ _ Hrl)).
    apply entries_ext. intros z Hz. apply Hdt. intros ->.
    rewrite delete_take_drop in Hz.
    pose proof (rl_nodup _ _ _ _ _ Hrl) as Hnd. apply NoDup_cons in Hnd as [_ Hnd].
    apply NoDup_app in Hnd as (Hnd & _). rewrite <- Hsplit in Hnd.
    by apply (elem_of_remove_middle _ _ x x Hnd) in Hz as [_ ?].
Qed.

Lemma erase_sim w ls a m l it p :
  winv w ls -> maps w !! a = Some m -> ls !! a = Some l -> pos_rel w ls it p ->
  exists w', (erase a it w = Ok tt w' \/ erase a it w = Raise invalid_iterator w') /\
    exists l', winv w' (<[a := l']> ls) /\
    entries (nodes w') <$> <[a := l']> ls =
      m_erase a (Some p) (entries (nodes w) <$> ls).
Proof.
  intros Hinv Ha Hl Hrel.
  destruct (winv_rep _ _ Hinv a m l Ha Hl) as [(hd & tl & cs & Hrep) Hsz].
  pose proof Hrep as [Hrl _].
  assert (winv w (<[a := l]> ls) /\
          entries (nodes w) <$> <[a := l]> ls = entries (nodes w) <$> ls) as Hsame.
  { by rewrite list_insert_id. }
  destruct p as [|b i]; simpl in Hrel.
  - subst it. exists w. split.
    + right. by eapply erase_raise; [|left].
    + exists l. simpl. done.
  - destruct Hrel as (mb & lb & tlb & x & Hb & Hlb & Htlb & Hi & ->).
    cbn [m_erase]. destruct (decide (b = a)) as [->|Hne].
    + rewrite Ha in Hb. injection Hb as <-. rewrite Hl in Hlb. injection Hlb as <-.
      pose proof (rl_tail _ _ _ _ _ Hrl) as Htl. rewrite Htlb in Htl. injection Htl as ->.
      rewrite (ms_lookup _ _ _ _ Hl).
      apply lookup_snoc_Some in Hi as [[Hlt Hi]|[-> <-]].
      * destruct (erase_winv w ls a m l i x Hinv Ha Hl Hi)
          as (w' & m' & Hrun & Hinv' & Hmaps & _ & _ & Hent & Hoth & _).
        exists w'. split; [by left|]. exists (delete i l). split; [done|].
        rewrite list_fmap_insert, Hent. by apply entries_insert_ext.
      * exists w. split.
        -- right. eapply erase_raise; [done|]. right. left.
           by rewrite (rl_tail _ _ _ _ _ Hrl).
        -- exists l. split; [by apply Hsame|].
           rewrite delete_length by (by rewrite (entries_length _ _ (rl_data _ _ _ _ _ Hrl))).
           rewrite (list_insert_id ls a l Hl).
           rewrite list_insert_id; [done|]. by rewrite list_lookup_fmap, Hl.
    + exists w. split.
      * right. eapply erase_raise; [done|]. left. simpl. congruence.
      * exists l. done.
Qed.


(** ** Writing through a reference *)

Lemma key_of_None h x : key_of h x = None <-> entry_of h x = None.
Proof. unfold key_of. by destruct (entry_of h x). Qed.

Lemma key_of_is_Some h x : is_Some (key_of h x) <-> is_Some (entry_of h x).
Proof. unfold key_of. by rewrite fmap_is_Some. Qed.

(** A container only depends on the keys of its nodes, not on the mapped
    values. *)
Lemma rep_key_frame h h' m hd tl l cs :
  rep h m hd tl l cs ->
  (forall z, fld next h' z = fld next h z) ->
  (forall z, fld prev h' z = fld prev h z) ->
  (forall z, fld hash_next h' z = fld hash_next h z) ->
  (forall z, key_of h' z = key_of h z) ->
  rep h' m hd tl l cs.
Proof.
  intros [Hrl Hri] Hn Hp Hh Hk. split.
  - destruct Hrl as [Hhd Htl Hnd Hnx Hpv Hdh Hdt Hd Hkeys Hcnt]. split; try done.
    + eapply chain_ext; [|exact Hnx]. intros z _. symmetry. apply Hn.
    + eapply chain_ext; [|exact Hpv]. intros z _. symmetry. apply Hp.
    + apply key_of_None. rewrite Hk. by apply key_of_None.
    + apply key_of_None. rewrite Hk. by apply key_of_None.
    + intros z Hz. apply key_of_is_Some. rewrite Hk. by apply key_of_is_Some, Hd.
    + intros y z k Hy Hz. rewrite !Hk. by apply Hkeys.
  - destruct Hri as [Hbc Hpos Hlen Hch Hnd Hmem]. split; try done.
    + intros i b c Hb Hc. eapply chain_ext; [|by eapply Hch].
      intros z _. symmetry. apply Hh.
    + intros i c z Hc. rewrite (Hmem i c z Hc). by setoid_rewrite Hk.
Qed.

Lemma m_write_entries h h' l x k v :
  (forall z, z ∈ l -> is_Some (entry_of h z)) ->
  (forall z, z ∈ l -> key_of h z = Some k -> z = x) ->
  key_of h x = Some k -> entry_of h' x = Some (k, v) ->
  (forall z, z <> x -> entry_of h' z = entry_of h z) ->
  entries h' l = m_write k v (entries h l).
Proof.
  intros Hd Hu Hkx Hx' Hoth. unfold m_write.
  induction l as [|y l IH]; [done|].
  destruct (Hd y) as [[ky vy] Hy]; [by left|].
  assert (key_of h y = Some ky) as Hky by (apply key_of_Some; by exists vy).
  assert (entries h' l =
          (fun e : value_type => if decide (e.1 = k) then (e.1, v) else e) <$> entries h l) as IH'.
  { apply IH.
    - intros z Hz. apply Hd. by right.
    - intros z Hz. apply Hu. by right. }
  rewrite (entries_cons_Some h y l _ Hy), fmap_cons, <- IH'. cbn [fst].
  destruct (decide (y = x)) as [->|Hne].
  - rewrite (entries_cons_Some h' x l _ Hx'). rewrite Hkx in Hky. injection Hky as <-.
    by destruct (decide (k = k)).
  - assert (entry_of h' y = Some (ky, vy)) as Hy' by (by rewrite Hoth).
    rewrite (entries_cons_Some h' y l _ Hy').
    destruct (decide (ky = k)) as [->|?]; [|done].
    destruct Hne. apply Hu; [by left|done].
Qed.

Lemma m_write_absent k v (es : list value_type) :
  has_key k es = false -> m_write k v es = es.
Proof.
  unfold has_key, m_write. rewrite bool_decide_eq_false. intros Hk.
  induction es as [|e es IH]; [done|]. rewrite fmap_cons.
  rewrite fmap_cons, not_elem_of_cons in Hk. destruct Hk as [Hne Hk].
  destruct (decide (e.1 = k)) as [?|_]; [done|]. by rewrite IH.
Qed.

Lemma write_ref_winv w ls a m l x k v0 v :
  winv w ls -> maps w !! a = Some m -> ls !! a = Some l ->
  x ∈ l -> entry_of (nodes w) x = Some (k, v0) ->
  exists w', write_ref (Some x) v w = Ok tt w' /\
    winv w' ls /\ maps w' = maps w /\ next_loc w' = next_loc w /\
    entries (nodes w') <$> ls =
      <[a := m_write k v (entries (nodes w) l)]> (entries (nodes w) <$> ls).
Proof.
  intros Hinv Ha Hl Hx He.
  apply entry_of_Some in He as He'. destruct He' as (n & Hn & Hdn).
  unfold write_ref.
  mstep deref_Ok. mstep deref_data_Ok. rewrite (store_Ok _ _ _ _ Hn).
  set (h' := <[x := set_second v n]> (nodes w)).
  exists (mkWorld h' (next_loc w) (maps w)). split; [done|]. cbn [nodes maps next_loc].
  assert (entry_of h' x = Some (k, v)) as Hx'.
  { unfold entry_of, h'. rewrite lookup_insert_eq. simpl. by rewrite Hdn. }
  assert (forall z, z <> x -> entry_of h' z = entry_of (nodes w) z) as Hoth.
  { intros z Hz. unfold entry_of, h'. by rewrite lookup_insert_ne. }
  assert (forall z, key_of h' z = key_of (nodes w) z) as Hkey.
  { intros z. unfold key_of. destruct (decide (z = x)) as [->|Hz].
    - by rewrite Hx', He.
    - by rewrite Hoth. }
  destruct (winv_rep _ _ Hinv a m l Ha Hl) as [(hd & tl & cs & [Hrl Hri]) Hsz].
  split_and!; try done.
  - pose proof Hinv as [Hlen Hreps Hdisj Hfr]. split; simpl; try done.
    + intros b mb lb Hb Hlb.
      destruct (Hreps b mb lb Hb Hlb) as [(hdb & tlb & csb & Hrb) Hszb].
      split; [|done]. exists hdb, tlb, csb.
      eapply rep_key_frame; [exact Hrb| | | |done];
        intros z; unfold h'; by apply (fld_insert_same _ _ x z n).
    + intros z Hz. apply Hfr. unfold h' in Hz.
      destruct (decide (z = x)) as [->|?]; [by eexists|].
      by rewrite lookup_insert_ne in Hz.
  - rewrite <- (list_insert_id (entries h' <$> ls) a (entries h' l))
      by (by rewrite list_lookup_fmap, Hl).
    rewrite (m_write_entries (nodes w) h' l x k v); try done.
    + apply entries_insert_ext. intros b lb Hb Hlb.
      assert (x ∉ lb) as Hxlb.
      { intros Hin.
        assert (is_Some (maps w !! b)) as [mb Hmb].
        { apply lookup_lt_is_Some. rewrite <- (winv_len _ _ Hinv). by eapply lookup_lt_Some. }
        apply (winv_disj _ _ Hinv b a mb m lb l x Hb Hmb Ha Hlb Hl); right; by right. }
      clear -Hoth Hxlb. induction lb as [|y lb IH]; [done|].
      rewrite !entries_cons, Hoth.
      * rewrite IH; [done|]. intros Hin. apply Hxlb. by right.
      * intros ->. apply Hxlb. by left.
    + apply (rl_data _ _ _ _ _ Hrl).
    + intros z Hz Hkz. apply (rl_keys _ _ _ _ _ Hrl z x k); try done.
      apply key_of_Some. by exists v0.
    + apply key_of_Some. by exists v0.
Qed.


(** ** [at] and [operator[]] *)

Lemma at_present w a m hd tl l cs k x :
  maps w !! a = Some m -> rep (nodes w) m hd tl l cs ->
  x ∈ l -> key_of (nodes w) x = Some k ->
  at_ a k w = Ok (Some x) w.
Proof.
  intros Ha Hrep Hx Hk. unfold at_.
  rewrite (bind_Ok _ _ _ _ _ (find_node_unique _ _ _ _ _ _ _ _ _ Ha Hrep Hx Hk)).
  apply key_of_Some in Hk as (v & (n & Hn & Hd)%entry_of_Some).
  mstep deref_Ok. by mstep deref_data_Ok.
Qed.

Lemma at_absent w a m hd tl l cs k :
  maps w !! a = Some m -> rep (nodes w) m hd tl l cs ->
  (forall x, x ∈ l -> key_of (nodes w) x <> Some k) ->
  at_ a k w = Raise index_out_of_bound w.
Proof.
  intros Ha Hrep Hno. unfold at_.
  by rewrite (bind_Ok _ _ _ _ _ (find_node_absent _ _ _ _ _ _ _ _ Ha Hrep Hno)).
Qed.

Lemma index_present w a m hd tl l cs k x :
  maps w !! a = Some m -> rep (nodes w) m hd tl l cs ->
  x ∈ l -> key_of (nodes w) x = Some k ->
  index a k w = Ok (Some x) w.
Proof.
  intros Ha Hrep Hx Hk. unfold index.
  rewrite (bind_Ok _ _ _ _ _ (find_node_unique _ _ _ _ _ _ _ _ _ Ha Hrep Hx Hk)).
  apply key_of_Some in Hk as (v & (n & Hn & Hd)%entry_of_Some).
  mstep deref_Ok. by mstep deref_data_Ok.
Qed.

Lemma index_absent_full w ls a m l k :
  winv w ls -> maps w !! a = Some m -> ls !! a = Some l ->
  has_key k (entries (nodes w) l) = false -> full m ->
  index a k w = Undef.
Proof.
  intros Hinv Ha Hl Hk Hfull.
  destruct (winv_rep _ _ Hinv a m l Ha Hl) as [(hd & tl & cs & Hrep) Hsz].
  pose proof Hrep as [Hrl _].
  pose proof (proj1 (has_key_false _ _ k (rl_data _ _ _ _ _ Hrl)) Hk) as Hno.
  unfold index.
  rewrite (bind_Ok _ _ _ _ _ (find_node_absent _ _ _ _ _ _ _ _ Ha Hrep Hno)).
  unfold bind. by rewrite (insert_absent_full w ls a m l k default_T Hinv Ha Hl Hk Hfull).
Qed.

Lemma index_absent w ls a m l k :
  winv w ls -> maps w !! a = Some m -> ls !! a = Some l ->
  has_key k (entries (nodes w) l) = false -> ~ full m ->
  exists w' m', index a k w = Ok (Some (next_loc w)) w' /\
    insert a (k, default_T) w = Ok (mkIt (Some (next_loc w)) (Some a), true) w' /\
    winv w' (<[a := l ++ [next_loc w]]> ls) /\
    maps w' = <[a := m']> (maps w) /\
    entries (nodes w') (l ++ [next_loc w]) = entries (nodes w) l ++ [(k, default_T)] /\
    entry_of (nodes w') (next_loc w) = Some (k, default_T) /\
    (forall b lb, b <> a -> ls !! b = Some lb ->
       entries (nodes w') lb = entries (nodes w) lb).
Proof.
  intros Hinv Ha Hl Hk Hfull.
  destruct (winv_rep _ _ Hinv a m l Ha Hl) as [(hd & tl & cs & Hrep) Hsz].
  pose proof Hrep as [Hrl _].
  pose proof (proj1 (has_key_false _ _ k (rl_data _ _ _ _ _ Hrl)) Hk) as Hno.
  destruct (insert_absent w ls a m l k default_T Hinv Ha Hl Hk Hfull)
    as (w1 & m1 & Hrun & Hinv1 & Hmaps1 & _ & _ & _ & _ & Hent1 & Hoth1 & _).
  assert (maps w1 !! a = Some m1) as Ha1.
  { rewrite Hmaps1. apply list_lookup_insert_eq. by eapply lookup_lt_Some. }
  assert (<[a := l ++ [next_loc w]]> ls !! a = Some (l ++ [next_loc w])) as Hl1.
  { apply list_lookup_insert_eq. by eapply lookup_lt_Some. }
  destruct (winv_rep _ _ Hinv1 a m1 _ Ha1 Hl1) as [(? & ? & ? & [Hrl1 _]) _].
  assert (entry_of (nodes w1) (next_loc w) = Some (k, default_T)) as Hnew.
  { pose proof Hent1 as Hent2. rewrite entries_app in Hent2.
    apply app_inj_1 in Hent2 as [_ Hent2].
    - rewrite entries_cons in Hent2.
      destruct (entry_of (nodes w1) (next_loc w)); by simplify_eq.
    - rewrite !entries_length; [done|apply (rl_data _ _ _ _ _ Hrl)|].
      intros z Hz. apply (rl_data _ _ _ _ _ Hrl1). apply elem_of_app. by left. }
  exists w1, m1. split_and!; try done.
  unfold index.
  rewrite (bind_Ok _ _ _ _ _ (find_node_absent _ _ _ _ _ _ _ _ Ha Hrep Hno)).
  cbn zeta. rewrite (bind_Ok _ _ _ _ _ Hrun). cbn [fst node].
  apply entry_of_Some in Hnew as (n & Hn & Hdn).
  mstep deref_Ok. by mstep deref_data_Ok.
Qed.

Lemma entries_all_ext h h' (ls : list (list positive)) :
  (forall b lb, ls !! b = Some lb -> entries h' lb = entries h lb) ->
  entries h' <$> ls = entries h <$> ls.
Proof.
  intros Hoth. apply list_eq. intros j. rewrite !list_lookup_fmap.
  destruct (ls !! j) as [lj|] eqn:Hj; [|done]. simpl. f_equal. by apply (Hoth j lj).
Qed.

(** ** One call of a client program *)

Lemma run_op_sim o w ls :
  winv w ls ->
  match run_op o w with
  | Ok _ w' | Raise _ w' =>
    exists ls', winv w' ls' /\
      entries (nodes w') <$> ls' = m_step o (entries (nodes w) <$> ls)
  | Undef => undefined_call w o
  | Timeout => False
  end.
Proof.
  intros Hinv. destruct o as [|other|this other|this k v|this e|this|this k v|this k v];
    cbn [run_op m_step].
  - destruct (construct_spec w ls Hinv) as (w' & Hrun & Hinv' & Hent & _).
    rewrite (bind_Ok _ _ _ _ _ Hrun). unfold ret.
    exists (ls ++ [[]]). split; [done|]. rewrite fmap_app. f_equal.
    by apply entries_all_ext.
  - destruct (maps w !! other) as [mo|] eqn:Ho.
    + destruct (winv_lookup _ _ _ _ Hinv Ho) as (lo & hd & tl & cs & Hlo & Hrep & _).
      destruct (copy_construct_spec w ls other mo lo Hinv Ho Hlo)
        as (w' & lt & Hrun & Hinv' & Hent & Hoth & _).
      rewrite (bind_Ok _ _ _ _ _ Hrun). unfold ret.
      exists (ls ++ [lt]). split; [done|]. rewrite fmap_app. simpl.
      rewrite Hent, (ms_lookup _ _ _ _ Hlo). f_equal. by apply entries_all_ext.
    + unfold copy_construct, bind, get_map. rewrite Ho. left. exists other. split; [by left|done].
  - destruct (maps w !! this) as [mt|] eqn:Ht;
      [|unfold assign, bind, get_map; rewrite Ht; left; exists this; split; [by left|done]].
    destruct (maps w !! other) as [mo|] eqn:Ho;
      [|unfold assign, bind, get_map; rewrite Ht, Ho; left; exists other;
        split; [right; by left|done]].
    destruct (winv_lookup _ _ _ _ Hinv Ht) as (lt & ? & ? & ? & Hlt & _).
    destruct (winv_lookup _ _ _ _ Hinv Ho) as (lo & ? & ? & ? & Hlo & _).
    destruct (assign_spec w ls this other mt mo lt lo Hinv Ht Ho Hlt Hlo)
      as (w' & lt' & -> & Hinv' & Hent & Hoth & _).
    exists (<[this := lt']> ls). split; [done|].
    rewrite list_fmap_insert, Hent, (ms_lookup _ _ _ _ Hlo).
    by apply entries_insert_ext.
  - destruct (maps w !! this) as [m|] eqn:Ha;
      [|unfold insert, find_node, bind, get_map; rewrite Ha; left; exists this;
        split; [by left|done]].
    destruct (winv_lookup _ _ _ _ Hinv Ha) as (l & hd & tl & cs & Hl & Hrep & Hsz).
    rewrite (ms_lookup _ _ _ _ Hl). unfold m_insert.
    destruct (has_key k (entries (nodes w) l)) eqn:Hk.
    + destruct (insert_present w ls this m l k v Hinv Ha Hl Hk) as (x & _ & _ & Hrun).
      rewrite (bind_Ok _ _ _ _ _ Hrun). unfold ret.
      exists ls. split; [done|]. rewrite list_insert_id; [done|].
      by rewrite list_lookup_fmap, Hl.
    + destruct (decide (full m)) as [Hfull|Hfull].
      * unfold bind. rewrite (insert_absent_full w ls this m l k v Hinv Ha Hl Hk Hfull).
        right. exists this, m. split; [by left|done].
      * destruct (insert_absent w ls this m l k v Hinv Ha Hl Hk Hfull)
          as (w' & m' & Hrun & Hinv' & _ & _ & _ & _ & _ & Hent & Hoth & _).
        rewrite (bind_Ok _ _ _ _ _ Hrun). unfold ret.
        exists (<[this := l ++ [next_loc w]]> ls). split; [done|].
        rewrite list_fmap_insert, Hent. by apply entries_insert_ext.
  - pose proof (eval_pos_sim w ls e Hinv) as Hev. unfold bind.
    destruct (eval_pos e w) as [it w0|ex w0| |]; try done.
    + destruct Hev as [-> (p & Hp & Hrel)]. rewrite Hp.
      destruct (maps w !! this) as [m|] eqn:Ha;
        [|unfold erase, bind, get_map; rewrite Ha; left; exists this;
          split; [by left|done]].
      destruct (winv_lookup _ _ _ _ Hinv Ha) as (l & hd & tl & cs & Hl & Hrep & Hsz).
      destruct (erase_sim w ls this m l it p Hinv Ha Hl Hrel)
        as (w' & [-> | ->] & l' & Hinv' & Hent); by exists (<[this := l']> ls).
    + destruct Hev as (-> & -> & ->). by exists ls.
    + destruct Hev as (a & Hin & Hnone). left. exists a. split; [by right|done].
  - destruct (maps w !! this) as [m|] eqn:Ha;
      [|unfold clear, bind, get_map; rewrite Ha; left; exists this;
        split; [by left|done]].
    destruct (winv_lookup _ _ _ _ Hinv Ha) as (l & hd & tl & cs & Hl & Hrep & Hsz).
    destruct (clear_winv w ls this m l Hinv Ha Hl)
      as (w' & m' & -> & Hinv' & _ & _ & _ & Hoth).
    exists (<[this := []]> ls). split; [done|].
    rewrite list_fmap_insert. by apply entries_insert_ext.
  - destruct (maps w !! this) as [m|] eqn:Ha;
      [|unfold index, find_node, bind, get_map; rewrite Ha; left; exists this;
        split; [by left|done]].
    destruct (winv_lookup _ _ _ _ Hinv Ha) as (l & hd & tl & cs & Hl & Hrep & Hsz).
    pose proof Hrep as [Hrl _].
    rewrite (ms_lookup _ _ _ _ Hl). unfold m_index, m_insert.
    destruct (has_key k (entries (nodes w) l)) eqn:Hk.
    + apply (has_key_true _ _ _ (rl_data _ _ _ _ _ Hrl)) in Hk as (x & Hx & Hkx).
      rewrite (bind_Ok _ _ _ _ _ (index_present _ _ _ _ _ _ _ _ _ Ha Hrep Hx Hkx)).
      apply key_of_Some in Hkx as (v0 & He).
      destruct (write_ref_winv w ls this m l x k v0 v Hinv Ha Hl Hx He)
        as (w' & -> & Hinv' & _ & _ & Hent).
      by exists ls.
    + destruct (decide (full m)) as [Hfull|Hfull].
      * unfold bind. rewrite (index_absent_full w ls this m l k Hinv Ha Hl Hk Hfull).
        right. exists this, m. split; [by left|done].
      * destruct (index_absent w ls this m l k Hinv Ha Hl Hk Hfull)
          as (w1 & m1 & Hrun & _ & Hinv1 & Hmaps1 & Hent1 & Hnew & Hoth1).
        rewrite (bind_Ok _ _ _ _ _ Hrun).
        assert (maps w1 !! this = Some m1) as Ha1.
        { rewrite Hmaps1. apply list_lookup_insert_eq. by eapply lookup_lt_Some. }
        assert (<[this := l ++ [next_loc w]]> ls !! this = Some (l ++ [next_loc w])) as Hl1.
        { apply list_lookup_insert_eq. by eapply lookup_lt_Some. }
        destruct (write_ref_winv w1 _ this m1 _ (next_loc w) k default_T v Hinv1 Ha1 Hl1)
          as (w' & -> & Hinv' & _ & _ & Hent'); [apply elem_of_app; right; by left|done|].
        eexists. split; [exact Hinv'|]. rewrite Hent', Hent1.
        rewrite list_fmap_insert, list_insert_insert_eq.
        by apply entries_insert_ext.
  - destruct (maps w !! this) as [m|] eqn:Ha;
      [|unfold at_, find_node, bind, get_map; rewrite Ha; left; exists this;
        split; [by left|done]].
    destruct (winv_lookup _ _ _ _ Hinv Ha) as (l & hd & tl & cs & Hl & Hrep & Hsz).
    pose proof Hrep as [Hrl _].
    rewrite (ms_lookup _ _ _ _ Hl).
    destruct (has_key k (entries (nodes w) l)) eqn:Hk.
    + apply (has_key_true _ _ _ (rl_data _ _ _ _ _ Hrl)) in Hk as (x & Hx & Hkx).
      rewrite (bind_Ok _ _ _ _ _ (at_present _ _ _ _ _ _ _ _ _ Ha Hrep Hx Hkx)).
      apply key_of_Some in Hkx as (v0 & He).
      destruct (write_ref_winv w ls this m l x k v0 v Hinv Ha Hl Hx He)
        as (w' & -> & Hinv' & _ & _ & Hent).
      by exists ls.
    + rewrite (m_write_absent _ _ _ Hk).
      pose proof (proj1 (has_key_false _ _ k (rl_data _ _ _ _ _ Hrl)) Hk) as Hno.
      rewrite (bind_Raise _ _ _ _ _ (at_absent _ _ _ _ _ _ _ _ Ha Hrep Hno)).
      exists ls. split; [done|]. rewrite list_insert_id; [done|].
      by rewrite list_lookup_fmap, Hl.
Qed.


(** ** Whole programs *)

Lemma winv_init : winv init_world [].
Proof.
  split; simpl; try done.
  intros x [n Hn]. by rewrite lookup_empty in Hn.
Qed.

Lemma exec_sim ops : forall w ls w',
  winv w ls -> exec ops w = Some w' ->
  exists ls', winv w' ls' /\
    entries (nodes w') <$> ls' = m_exec ops (entries (nodes w) <$> ls).
Proof.
  induction ops as [|o ops IH]; intros w ls w' Hinv Hex; simpl in Hex.
  - injection Hex as <-. by exists ls.
  - pose proof (run_op_sim o w ls Hinv) as Hstep.
    destruct (run_op o w) as [[] w1|ex w1| |]; try done;
      destruct Hstep as (ls1 & Hinv1 & Hent1);
      destruct (IH w1 ls1 w' Hinv1 Hex) as (ls' & Hinv' & Hent');
      exists ls'; (split; [done|]); simpl; by rewrite <- Hent1.
Qed.

(** A state reached by a client program from the initial one is a
    well-formed world that implements what the abstract containers hold. *)
Lemma exec_init ops w :
  exec ops init_world = Some w ->
  exists ls, winv w ls /\ entries (nodes w) <$> ls = m_exec ops [].
Proof. intros Hex. by apply (exec_sim ops init_world [] w winv_init). Qed.

(** ** Iteration *)

Lemma star_Ok w x kv :
  entry_of (nodes w) x = Some kv -> forall a, star (mkIt (Some x) a) w = Ok kv w.
Proof.
  intros (n & Hn & Hd)%entry_of_Some a. unfold star. cbn [node].
  mstep deref_Ok. by apply deref_data_Ok.
Qed.

Lemma iterate_spec w a m hd tl l cs :
  maps w !! a = Some m -> rep (nodes w) m hd tl l cs ->
  forall rest done fuel c,
    l = done ++ rest -> (rest ++ [tl]) !! 0 = Some c -> length rest < fuel ->
    iterate fuel (mkIt (Some c) (Some a)) (mkIt (Some tl) (Some a)) w =
      Ok (entries (nodes w) rest) w.
Proof.
  intros Ha Hrep. pose proof Hrep as [Hrl _].
  pose proof (rl_nodup _ _ _ _ _ Hrl) as Hnd. apply NoDup_cons in Hnd as [_ Hnd].
  induction rest as [|x rest IH]; intros done fuel c Hsplit Hc Hfuel;
    (destruct fuel as [|fuel]; [simpl in Hfuel; lia|]); simpl in Hc; injection Hc as <-;
    cbn [iterate].
  - unfold iter_neq, iter_eq. simpl. by rewrite !bool_decide_eq_true_2.
  - assert (x ∈ l) as Hx by (rewrite Hsplit; apply elem_of_app; right; by left).
    assert (x <> tl) as Hxtl.
    { intros ->. apply NoDup_app in Hnd as (_ & Hd & _). apply (Hd tl Hx). by left. }
    unfold iter_neq, iter_eq. cbn [node map].
    rewrite bool_decide_eq_false_2 by congruence. cbn [andb negb].
    destruct (rl_data _ _ _ _ _ Hrl x Hx) as [kv He].
    rewrite (bind_Ok _ _ _ _ _ (star_Ok w x kv He (Some a))).
    assert ((l ++ [tl]) !! length done = Some x) as Hi.
    { rewrite Hsplit, <- app_assoc. by apply list_lookup_middle. }
    destruct (incr_spec w a m hd tl l cs (length done) x Ha Hrep Hi)
      as [[Hlen _]|[_ (y & Hy & Hrun)]].
    { rewrite Hsplit, length_app in Hlen. simpl in Hlen. lia. }
    rewrite (bind_Ok _ _ _ _ _ Hrun).
    assert (iterate fuel (mkIt (Some y) (Some a)) (mkIt (Some tl) (Some a)) w =
            Ok (entries (nodes w) rest) w) as Hrest.
    { apply (IH (done ++ [x]) fuel y).
      - by rewrite <- app_assoc.
      - rewrite Hsplit, <- app_assoc in Hy. simpl in Hy.
        rewrite lookup_app_r in Hy by lia.
        replace (S (length done) - length done) with 1 in Hy by lia. done.
      - simpl in Hfuel. lia. }
    rewrite (bind_Ok _ _ _ _ _ Hrest). unfold ret.
    by rewrite (entries_cons_Some _ _ _ _ He).
Qed.

Lemma to_list_spec w a m hd tl l cs :
  maps w !! a = Some m -> rep (nodes w) m hd tl l cs ->
  to_list a w = Ok (entries (nodes w) l) w.
Proof.
  intros Ha Hrep. pose proof Hrep as [Hrl _]. unfold to_list.
  destruct (begin_spec w a m hd tl l cs Ha Hrep) as (c & Hc & Hb).
  rewrite (bind_Ok _ _ _ _ _ Hb).
  rewrite (bind_Ok _ _ _ _ _ (end_spec w a m hd tl l cs Ha Hrep)).
  unfold get_fuel at 1. unfold bind at 1.
  apply (iterate_spec w a m hd tl l cs Ha Hrep l []); try done.
  destruct (rep_list_first _ _ _ _ _ Hrl) as (first & Hf & Hch).
  eapply (chain_fuel next); [exact Hch|].
  pose proof (rl_nodup _ _ _ _ _ Hrl) as Hnd. apply NoDup_cons in Hnd as [_ Hnd].
  by apply NoDup_app in Hnd as (? & _).
Qed.

Lemma to_list_winv w ls a m l :
  winv w ls -> maps w !! a = Some m -> ls !! a = Some l ->
  to_list a w = Ok (entries (nodes w) l) w.
Proof.
  intros Hinv Ha Hl.
  destruct (winv_rep _ _ Hinv a m l Ha Hl) as [(hd & tl & cs & Hrep) _].
  by eapply to_list_spec.
Qed.


(** ** Lookup on a well-formed world *)

Lemma find_present w a m hd tl l cs k x :
  maps w !! a = Some m -> rep (nodes w) m hd tl l cs ->
  x ∈ l -> key_of (nodes w) x = Some k ->
  find a k w = Ok (mkIt (Some x) (Some a)) w.
Proof.
  intros Ha Hrep Hx Hk. unfold find.
  by rewrite (bind_Ok _ _ _ _ _ (find_node_unique _ _ _ _ _ _ _ _ _ Ha Hrep Hx Hk)).
Qed.

Lemma find_absent w a m hd tl l cs k :
  maps w !! a = Some m -> rep (nodes w) m hd tl l cs ->
  (forall x, x ∈ l -> key_of (nodes w) x <> Some k) ->
  find a k w = Ok (mkIt (Some tl) (Some a)) w.
Proof.
  intros Ha Hrep Hno. unfold find.
  rewrite (bind_Ok _ _ _ _ _ (find_node_absent _ _ _ _ _ _ _ _ Ha Hrep Hno)).
  by eapply end_spec.
Qed.

Lemma entries_elem h l x e :
  x ∈ l -> entry_of h x = Some e -> e ∈ entries h l.
Proof.
  intros Hx He. induction l as [|y l IH]; [by apply elem_of_nil in Hx|].
  rewrite entries_cons. apply elem_of_cons in Hx as [->|Hx].
  - rewrite He. by left.
  - destruct (entry_of h y); [right|]; by apply IH.
Qed.

Lemma entries_elem_inv h l e :
  e ∈ entries h l -> exists x, x ∈ l /\ entry_of h x = Some e.
Proof.
  induction l as [|y l IH]; [by intros ?%elem_of_nil|].
  rewrite entries_cons. destruct (entry_of h y) as [e'|] eqn:Hy.
  - intros [->|He]%elem_of_cons.
    + exists y. split; [by left|done].
    + destruct (IH He) as (x & Hx & Hex). exists x. split; [by right|done].
  - intros He. destruct (IH He) as (x & Hx & Hex). exists x. split; [by right|done].
Qed.

(** A call that returns was made on an existing container. *)
Lemma to_list_valid w a es w' :
  to_list a w = Ok es w' -> is_Some (maps w !! a).
Proof.
  unfold to_list, begin, bind, get_map. destruct (maps w !! a); [by eexists|done].
Qed.

(** What a reachable world knows about one of its containers. *)
Lemma reachable_container ops w a m :
  exec ops init_world = Some w -> maps w !! a = Some m ->
  exists ls l hd tl cs, winv w ls /\ ls !! a = Some l /\
    rep (nodes w) m hd tl l cs /\ sized m /\
    entries (nodes w) <$> ls = m_exec ops [] /\
    to_list a w = Ok (entries (nodes w) l) w.
Proof.
  intros Hex Ha. destruct (exec_init ops w Hex) as (ls & Hinv & Hent).
  destruct (winv_lookup _ _ _ _ Hinv Ha) as (l & hd & tl & cs & Hl & Hrep & Hsz).
  exists ls, l, hd, tl, cs. split_and!; try done. by eapply to_list_spec.
Qed.


(** * The claims *)

(** C2.  In every state a client program can reach, inserting a key that
    the container [a] already holds changes nothing at all: the call
    returns the very state it was given (no node is created, moved or
    destroyed and the stored value is kept), together with the position of
    the existing entry, which is the one [find] returns and which still
    holds the old value, and the flag [false]. *)
Theorem insert_existing_key_is_noop
    (ops : list op) (w : world) (a : mref) (es : list value_type) (k : Key) (v : T) :
  exec ops init_world = Some w ->
  to_list a w = Ok es w ->
  k ∈ es.*1 ->
  exists it v0,
    insert a (k, v) w = Ok (it, false) w /\
    find a k w = Ok it w /\
    star it w = Ok (k, v0) w /\
    (k, v0) ∈ es.
Proof.
  intros Hex Hlist Hk.
  destruct (to_list_valid _ _ _ _ Hlist) as [m Ha].
  destruct (reachable_container ops w a m Hex Ha)
    as (ls & l & hd & tl & cs & Hinv & Hl & Hrep & Hsz & _ & Hlist').
  rewrite Hlist in Hlist'. injection Hlist' as ->.
  pose proof Hrep as [Hrl _].
  apply (entries_keys _ _ _ (rl_data _ _ _ _ _ Hrl)) in Hk as (x & Hx & Hkx).
  apply key_of_Some in Hkx as Hkx'. destruct Hkx' as (v0 & He).
  exists (mkIt (Some x) (Some a)), v0. split_and!.
  - by eapply insert_existing.
  - by eapply find_present.
  - by apply star_Ok.
  - by eapply entries_elem.
Qed.

(** C6.  In every reachable state, [at] in both variants and the read-only
    [operator[]] return a reference to the value mapped to a key that is
    present (reading through the reference yields that value) and throw
    [index_out_of_bound] for a key that is absent; the state is the same
    after the call in either case. *)
Theorem at_returns_value_or_throws
    (ops : list op) (w : world) (a : mref) (es : list value_type) (k : Key) :
  exec ops init_world = Some w ->
  to_list a w = Ok es w ->
  (forall v, (k, v) ∈ es ->
     exists r, at_ a k w = Ok r w /\ at_const a k w = Ok r w /\
       index_const a k w = Ok r w /\ read_ref r w = Ok v w) /\
  (k ∉ es.*1 ->
     at_ a k w = Raise index_out_of_bound w /\
     at_const a k w = Raise index_out_of_bound w /\
     index_const a k w = Raise index_out_of_bound w).
Proof.
  intros Hex Hlist.
  destruct (to_list_valid _ _ _ _ Hlist) as [m Ha].
  destruct (reachable_container ops w a m Hex Ha)
    as (ls & l & hd & tl & cs & Hinv & Hl & Hrep & Hsz & _ & Hlist').
  rewrite Hlist in Hlist'. injection Hlist' as ->.
  pose proof Hrep as [Hrl _]. unfold index_const, at_const. split.
  - intros v (x & Hx & He)%entries_elem_inv.
    assert (key_of (nodes w) x = Some k) as Hkx by (apply key_of_Some; by exists v).
    exists (Some x). rewrite (at_present w a m hd tl l cs k x Ha Hrep Hx Hkx).
    split_and!; try done.
    apply entry_of_Some in He as (n & Hn & Hd). unfold read_ref.
    mstep deref_Ok. by mstep deref_data_Ok.
  - intros Hk.
    assert (forall x, x ∈ l -> key_of (nodes w) x <> Some k) as Hno.
    { intros x Hx Hkx. apply Hk. apply (entries_keys _ _ _ (rl_data _ _ _ _ _ Hrl)).
      by exists x. }
    by rewrite (at_absent w a m hd tl l cs k Ha Hrep Hno).
Qed.


(** ** Where a position comes from *)

Lemma bind_Ok_inv {A B} (m : M A) (k : A -> M B) w b w' :
  bind m k w = Ok b w' -> exists a w1, m w = Ok a w1 /\ k a w1 = Ok b w'.
Proof.
  unfold bind. destruct (m w) as [a w1| | |]; try done. intros Hk. by exists a, w1.
Qed.

Lemma begin_map a w p w' : begin a w = Ok p w' -> map p = Some a.
Proof.
  unfold begin. intros (m & w1 & _ & (n & w2 & _ & H)%bind_Ok_inv)%bind_Ok_inv.
  unfold ret in H. by injection H as <- _.
Qed.

Lemma end_map a w p w' : end_ a w = Ok p w' -> map p = Some a.
Proof.
  unfold end_. intros (m & w1 & _ & H)%bind_Ok_inv.
  unfold ret in H. by injection H as <- _.
Qed.

Lemma find_map a k w p w' : find a k w = Ok p w' -> map p = Some a.
Proof.
  unfold find. intros ([x|] & w1 & _ & H)%bind_Ok_inv.
  - unfold ret in H. by injection H as <- _.
  - by eapply end_map.
Qed.

Lemma incr_map it w p w' : incr it w = Ok p w' -> map p = map it.
Proof.
  unfold incr. destruct (node it); [|done].
  intros (m & w1 & _ & H)%bind_Ok_inv. destruct (decide _); [done|].
  apply bind_Ok_inv in H as (nx & w2 & _ & H). unfold ret in H. by injection H as <- _.
Qed.

Lemma decr_map it w p w' : decr it w = Ok p w' -> map p = map it.
Proof.
  unfold decr. destruct (node it); [|done].
  intros (pv & w1 & _ & (m & w2 & _ & H)%bind_Ok_inv)%bind_Ok_inv.
  destruct (decide _); [done|].
  apply bind_Ok_inv in H as (nx & w3 & _ & H). unfold ret in H. by injection H as <- _.
Qed.

Lemma insert_map a kv w it b w' : insert a kv w = Ok (it, b) w' -> map it = Some a.
Proof.
  unfold insert. intros ([x|] & w1 & _ & H)%bind_Ok_inv.
  - unfold ret in H. by injection H as <- _ _.
  - repeat (apply bind_Ok_inv in H as (? & ? & _ & H)).
    unfold ret in H. by injection H as <- _ _.
Qed.

Lemma from_container_map e w p w' :
  from_container e = true -> eval_pos e w = Ok p w' -> exists a, map p = Some a.
Proof.
  revert w p w'. induction e as [|a|a|a k|e IH|e IH]; intros w p w' Hfc Hev;
    cbn [from_container eval_pos] in *; try done.
  - exists a. by eapply begin_map.
  - exists a. by eapply end_map.
  - exists a. by eapply find_map.
  - apply bind_Ok_inv in Hev as (it & w1 & Hit & Hp).
    destruct (IH w it w1 Hfc Hit) as (a & Ha). exists a.
    by rewrite (incr_map _ _ _ _ Hp).
  - apply bind_Ok_inv in Hev as (it & w1 & Hit & Hp).
    destruct (IH w it w1 Hfc Hit) as (a & Ha). exists a.
    by rewrite (decr_map _ _ _ _ Hp).
Qed.

(** C10.  On a default-constructed position every increment and decrement
    (prefix and postfix, [iterator] and [const_iterator]) throws
    [invalid_iterator] in any state whatsoever, and leaves that state as it
    is: the null test comes before any node or container is touched.  Two
    default-constructed positions compare equal, and a default-constructed
    position compares unequal, either way round, to every position obtained
    from a container, be it by [begin], [end], [find], by stepping such a
    position, or as the result of [insert]. *)
Theorem default_position_is_inert
    (w : world) (e : pos_expr) (p : iterator) (w' : world)
    (a : mref) (kv : value_type) (it : iterator) (b : bool) (w'' : world) :
  (incr default_iterator w = Raise invalid_iterator w /\
   post_incr default_iterator w = Raise invalid_iterator w /\
   decr default_iterator w = Raise invalid_iterator w /\
   post_decr default_iterator w = Raise invalid_iterator w /\
   const_incr default_iterator w = Raise invalid_iterator w /\
   const_post_incr default_iterator w = Raise invalid_iterator w /\
   const_decr default_iterator w = Raise invalid_iterator w /\
   const_post_decr default_iterator w = Raise invalid_iterator w) /\
  (iter_eq default_iterator default_iterator = true /\
   iter_neq default_iterator default_iterator = false) /\
  (from_container e = true -> eval_pos e w = Ok p w' ->
   iter_eq default_iterator p = false /\ iter_eq p default_iterator = false /\
   iter_neq default_iterator p = true /\ iter_neq p default_iterator = true) /\
  (insert a kv w = Ok (it, b) w'' ->
   iter_eq default_iterator it = false /\ iter_eq it default_iterator = false).
Proof.
  assert (forall q c, map q = Some c ->
            iter_eq default_iterator q = false /\ iter_eq q default_iterator = false) as Hneq.
  { intros q c Hq. unfold iter_eq. simpl. rewrite Hq.
    rewrite !(bool_decide_eq_false_2 (_ = _ :> option nat)) by done.
    by rewrite !andb_false_r. }
  split_and!; try done.
  - intros Hfc Hev. destruct (from_container_map e w p w' Hfc Hev) as (c & Hc).
    destruct (Hneq p c Hc) as [H1 H2]. unfold iter_neq. by rewrite H1, H2.
  - intros Hins. apply (Hneq it a). by eapply insert_map.
Qed.


(** ** Dereferencing *)

Lemma star_no_entry w x a :
  is_Some (nodes w !! x) -> entry_of (nodes w) x = None ->
  star (mkIt (Some x) a) w = Undef.
Proof.
  intros [n Hn] He. unfold star. cbn [node]. mstep deref_Ok.
  unfold entry_of in He. rewrite Hn in He. unfold deref_data. by rewrite He.
Qed.

Lemma star_sentinels w a m hd tl l cs :
  rep (nodes w) m hd tl l cs ->
  star (mkIt (tail m) (Some a)) w = Undef /\ star (mkIt (head m) (Some a)) w = Undef.
Proof.
  intros [Hrl _]. rewrite (rl_head _ _ _ _ _ Hrl), (rl_tail _ _ _ _ _ Hrl). split.
  - apply star_no_entry; [|apply (rl_data_tl _ _ _ _ _ Hrl)].
    eapply rep_list_live; [exact Hrl|]. right. apply elem_of_app. right. by left.
  - apply star_no_entry; [|apply (rl_data_hd _ _ _ _ _ Hrl)].
    eapply rep_list_live; [exact Hrl|]. by left.
Qed.

(** A position a program can hold is the default one, the end of its
    container, or stands at one of the container's entries. *)
Lemma position_cases w ls e p :
  winv w ls -> eval_pos e w = Ok p w ->
  p = default_iterator \/
  exists a m l hd tl cs i x, maps w !! a = Some m /\ ls !! a = Some l /\
    rep (nodes w) m hd tl l cs /\ (l ++ [tl]) !! i = Some x /\
    p = mkIt (Some x) (Some a) /\
    ((i = length l /\ x = tl) \/ (i < length l /\ l !! i = Some x /\ x <> tl)).
Proof.
  intros Hinv Hev. pose proof (eval_pos_sim w ls e Hinv) as Hsim. rewrite Hev in Hsim.
  destruct Hsim as [_ ([|a i] & _ & Hrel)]; simpl in Hrel; [by left|right].
  destruct Hrel as (m & l & tl & x & Ha & Hl & Htl & Hi & ->).
  destruct (winv_rep _ _ Hinv a m l Ha Hl) as [(hd & tl' & cs & Hrep) _].
  pose proof Hrep as [Hrl _].
  pose proof (rl_tail _ _ _ _ _ Hrl) as Htl'. rewrite Htl in Htl'. injection Htl' as <-.
  exists a, m, l, hd, tl, cs, i, x. split_and!; try done.
  pose proof (rl_nodup _ _ _ _ _ Hrl) as Hnd. apply NoDup_cons in Hnd as [_ Hnd].
  apply lookup_snoc_Some in Hi as [[Hlt Hi]|[-> <-]]; [right|by left].
  split_and!; try done. intros ->.
  apply NoDup_app in Hnd as (_ & Hd & _). apply (Hd tl); [|by left].
  by eapply list_elem_of_lookup_2.
Qed.

(** C9, amended.  In every reachable state, dereferencing a position that
    a program can hold yields an entry exactly when the position stands at
    a live non-sentinel node, and then it is an entry of the position's
    container and the state is untouched.  Dereferencing the default
    position or an end position is not checked: [operator*] dereferences
    the null [data] pointer of the sentinel, which is undefined behaviour,
    and nothing is thrown.  The same holds for the two sentinels of every
    container, [tail] (end) and [head] (before-begin), however the
    position was come by. *)
Theorem dereference_needs_interior_position (ops : list op) (w : world) :
  exec ops init_world = Some w ->
  (forall e p, eval_pos e w = Ok p w ->
     match star p w with
     | Ok kv w' =>
       w' = w /\ p <> default_iterator /\ (forall b, end_ b w <> Ok p w) /\
       exists a es, map p = Some a /\ to_list a w = Ok es w /\ kv ∈ es
     | Undef => p = default_iterator \/ exists b, end_ b w = Ok p w
     | Raise _ _ => False
     | Timeout => False
     end) /\
  (forall a m, maps w !! a = Some m ->
     star (mkIt (tail m) (Some a)) w = Undef /\
     star (mkIt (head m) (Some a)) w = Undef) /\
  star default_iterator w = Undef.
Proof.
  intros Hex. destruct (exec_init ops w Hex) as (ls & Hinv & _). split_and!.
  - intros e p Hev.
    destruct (position_cases w ls e p Hinv Hev)
      as [->|(a & m & l & hd & tl & cs & i & x & Ha & Hl & Hrep & Hi & -> & Hcase)].
    { by left. }
    pose proof Hrep as [Hrl _].
    destruct Hcase as [[-> ->]|(Hlt & Hx & Hne)].
    + pose proof (star_sentinels w a m hd tl l cs Hrep) as [Hs _].
      rewrite (rl_tail _ _ _ _ _ Hrl) in Hs. rewrite Hs.
      right. exists a. by eapply end_spec.
    + assert (x ∈ l) as Hxl by (by eapply list_elem_of_lookup_2).
      destruct (rl_data _ _ _ _ _ Hrl x Hxl) as [kv He].
      rewrite (star_Ok w x kv He). split_and!; try done.
      * intros b Hend. pose proof (end_map _ _ _ _ Hend) as Hb. simpl in Hb.
        injection Hb as <-. rewrite (end_spec w a m hd tl l cs Ha Hrep) in Hend.
        by injection Hend as ->.
      * exists a, (entries (nodes w) l). split_and!; try done.
        -- by eapply to_list_spec.
        -- by eapply entries_elem.
  - intros a m Ha.
    destruct (winv_lookup _ _ _ _ Hinv Ha) as (l & hd & tl & cs & Hl & Hrep & _).
    by eapply star_sentinels.
  - done.
Qed.


(** ** Stepping and erasing at a position *)

Lemma post_incr_incr it w :
  post_incr it w =
    match incr it w with
    | Ok p w' => Ok (it, p) w'
    | Raise ex w' => Raise ex w'
    | Undef => Undef
    | Timeout => Timeout
    end.
Proof.
  unfold post_incr, incr. destruct (node it); [|done]. unfold bind.
  destruct (map_of it w) as [m w1| | |]; try done.
  destruct (decide _); [done|]. by destruct (load next _ w1).
Qed.

Lemma post_decr_decr it w :
  post_decr it w =
    match decr it w with
    | Ok p w' => Ok (it, p) w'
    | Raise ex w' => Raise ex w'
    | Undef => Undef
    | Timeout => Timeout
    end.
Proof.
  unfold post_decr, decr. destruct (node it); [|done]. unfold bind.
  destruct (load prev _ w) as [pv w1| | |]; try done.
  destruct (map_of it w1) as [m w2| | |]; try done.
  destruct (decide _); [done|]. by destruct (load prev _ w2).
Qed.

(** C5.  In every reachable state, for every position [p] a program can
    hold and every container [a]:
    - [erase] on [a] throws [invalid_iterator] exactly when [p] does not
      belong to [a] (a default-constructed position belongs to no
      container) or is the end position of [a], and otherwise returns;
    - [++p] and [p++] throw exactly when [p] is default-constructed or is
      the end position of its container, and otherwise return;
    - [--p] and [p--] throw exactly when [p] is default-constructed or is
      the first position of its container (the one right after [head],
      which is the end position when the container is empty), and
      otherwise return;
    and a call that throws leaves the whole state as it was. *)
Theorem invalid_position_raises
    (ops : list op) (w : world) (e : pos_expr) (p : iterator)
    (a : mref) (m : linked_hashmap) :
  exec ops init_world = Some w ->
  eval_pos e w = Ok p w ->
  maps w !! a = Some m ->
  match erase a p w with
  | Raise ex w' =>
    ex = invalid_iterator /\ w' = w /\ (map p <> Some a \/ end_ a w = Ok p w)
  | Ok _ _ => map p = Some a /\ end_ a w <> Ok p w
  | Undef => False
  | Timeout => False
  end /\
  match incr p w with
  | Raise ex w' =>
    ex = invalid_iterator /\ w' = w /\
    (p = default_iterator \/ exists b, end_ b w = Ok p w) /\
    post_incr p w = Raise ex w'
  | Ok p' w' =>
    w' = w /\ p <> default_iterator /\ (forall b, end_ b w <> Ok p w) /\
    post_incr p w = Ok (p, p') w'
  | Undef => False
  | Timeout => False
  end /\
  match decr p w with
  | Raise ex w' =>
    ex = invalid_iterator /\ w' = w /\
    (p = default_iterator \/ exists b, begin b w = Ok p w) /\
    post_decr p w = Raise ex w'
  | Ok p' w' =>
    w' = w /\ p <> default_iterator /\ (forall b, begin b w <> Ok p w) /\
    post_decr p w = Ok (p, p') w'
  | Undef => False
  | Timeout => False
  end.
Proof.
  intros Hex Hev Ha. destruct (exec_init ops w Hex) as (ls & Hinv & _).
  destruct (winv_lookup _ _ _ _ Hinv Ha) as (la & hda & tla & csa & Hla & Hrepa & _).
  rewrite post_incr_incr, post_decr_decr.
  destruct (position_cases w ls e p Hinv Hev)
    as [->|(b & mb & l & hd & tl & cs & i & x & Hb & Hl & Hrep & Hi & -> & Hcase)].
  { rewrite (erase_raise w a m default_iterator Ha) by (by left).
    cbn [incr decr default_iterator node]. unfold throw.
    split_and!; try done; by left. }
  pose proof Hrep as [Hrl _].
  pose proof (rl_nodup _ _ _ _ _ Hrl) as Hnd. apply NoDup_cons in Hnd as [_ Hnd].
  split_and!.
  - destruct (decide (b = a)) as [->|Hne].
    + rewrite Ha in Hb. injection Hb as <-. rewrite Hla in Hl. injection Hl as <-.
      destruct Hcase as [[-> ->]|(Hlt & Hx & Hxtl)].
      * rewrite (erase_raise w a m _ Ha) by (right; left; by rewrite (rl_tail _ _ _ _ _ Hrl)).
        split_and!; try done. right. by eapply end_spec.
      * destruct (erase_winv w ls a m la i x Hinv Ha Hla Hx) as (w' & m' & -> & _).
        split; [done|]. rewrite (end_spec w a m hd tl la cs Ha Hrep).
        by intros [= ->].
    + rewrite (erase_raise w a m _ Ha) by (left; simpl; congruence).
      split_and!; try done. left. simpl. congruence.
  - destruct (incr_spec w b mb hd tl l cs i x Hb Hrep Hi) as [[-> ->]|[Hlt (y & Hy & ->)]].
    + split_and!; try done. right. exists b.
      assert (x = tl) as -> by (by rewrite list_lookup_middle in Hi; [injection Hi|]).
      by eapply end_spec.
    + split_and!; try done. intros c Hend.
      pose proof (end_map _ _ _ _ Hend) as Hc. simpl in Hc. injection Hc as <-.
      rewrite (end_spec w b mb hd tl l cs Hb Hrep) in Hend. injection Hend as <-.
      apply (snoc_lookup_tail l tl i Hnd) in Hi. lia.
  - pose proof (decr_spec w b mb hd tl l cs i x Hb Hrep Hi) as Hd.
    destruct (begin_spec w b mb hd tl l cs Hb Hrep) as (c & Hc & Hbeg).
    destruct i as [|j].
    + rewrite Hd. split_and!; try done. right. exists b.
      rewrite Hc in Hi. by injection Hi as ->.
    + destruct Hd as (y & Hy & ->). split_and!; try done. intros b' Hbeg'.
      pose proof (begin_map _ _ _ _ Hbeg') as Hb'. simpl in Hb'. injection Hb' as <-.
      rewrite Hbeg in Hbeg'. injection Hbeg' as ->.
      pose proof (NoDup_lookup _ _ _ _ Hnd Hc Hi). lia.
Qed.

(** ** Programs of insertions and erasures *)

Lemma m_insert_length k v es : length (m_insert k v es) <= S (length es).
Proof.
  unfold m_insert. destruct (has_key k es); [lia|]. rewrite length_app. simpl. lia.
Qed.

Lemma m_step_insert_erase a o ms :
  insert_erase_on a o = true -> a < length ms ->
  length (m_step o ms) = length ms /\
  length (m_step o ms !!! a) <= S (length (ms !!! a)).
Proof.
  intros Ho Ha.
  destruct o as [|other|this other|this k v|this e|this|this k v|this k v];
    try done; cbn [insert_erase_on m_step] in *.
  - apply bool_decide_eq_true in Ho as ->. rewrite length_insert. split; [done|].
    rewrite list_lookup_total_insert_eq by done. apply m_insert_length.
  - apply andb_prop in Ho as [Ho _]. apply bool_decide_eq_true in Ho as ->.
    unfold m_erase. destruct (m_eval e ms) as [[|b i]|]; [split; [done|lia]| |split; [done|lia]].
    destruct (decide (b = a)); [|split; [done|lia]].
    rewrite length_insert, list_lookup_total_insert_eq by done. split; [done|].
    destruct (decide (i < length (ms !!! a))) as [Hi|Hi].
    + rewrite length_delete by by apply lookup_lt_is_Some. lia.
    + rewrite delete_length by lia. lia.
Qed.

Lemma op_maps_insert_erase a o b :
  insert_erase_on a o = true -> b ∈ op_maps o -> b = a.
Proof.
  destruct o as [|other|this other|this k v|this e|this|this k v|this k v];
    try done; cbn [insert_erase_on op_maps]; intros Ho Hb.
  - apply bool_decide_eq_true in Ho as ->. by apply list_elem_of_singleton in Hb.
  - apply andb_prop in Ho as [Ho He]. apply bool_decide_eq_true in Ho as ->.
    apply elem_of_cons in Hb as [->|Hb]; [done|].
    rewrite forallb_forall in He. apply list_elem_of_In, He in Hb.
    by apply bool_decide_eq_true in Hb.
Qed.

Lemma winv_model_length w ls a :
  winv w ls -> a < length ls ->
  length ((entries (nodes w) <$> ls) !!! a) = length (ls !!! a).
Proof.
  intros Hinv Ha.
  destruct (lookup_lt_is_Some_2 ls a Ha) as [l Hl].
  assert (is_Some (maps w !! a)) as [m Hm].
  { apply lookup_lt_is_Some. by rewrite <- (winv_len _ _ Hinv). }
  destruct (winv_rep _ _ Hinv a m l Hm Hl) as [(hd & tl & cs & [Hrl _]) _].
  rewrite (list_lookup_total_correct _ _ _ Hl).
  erewrite list_lookup_total_correct by (by rewrite list_lookup_fmap, Hl).
  apply entries_length, (rl_data _ _ _ _ _ Hrl).
Qed.

Lemma exec_insert_erase ops : forall w ls,
  winv w ls -> length ls = 1 ->
  forallb (insert_erase_on 0) ops = true ->
  (N.of_nat (length (ls !!! 0%nat) + length ops) < 2 ^ 62)%N ->
  exists w', exec ops w = Some w'.
Proof.
  induction ops as [|o ops IH]; intros w ls Hinv Hlen Hops Hbound.
  - by exists w.
  - cbn [forallb] in Hops. apply andb_prop in Hops as [Ho Hops].
    cbn [exec]. pose proof (run_op_sim o w ls Hinv) as Hstep.
    assert (forall w1, (exists ls1, winv w1 ls1 /\
               entries (nodes w1) <$> ls1 = m_step o (entries (nodes w) <$> ls)) ->
             exists w', exec ops w1 = Some w') as Hnext.
    { intros w1 (ls1 & Hinv1 & Hent1).
      destruct (m_step_insert_erase 0 o (entries (nodes w) <$> ls) Ho) as [Hl1 Hl2].
      { rewrite length_fmap. lia. }
      rewrite <- Hent1, !length_fmap in Hl1.
      rewrite <- Hent1, !winv_model_length in Hl2 by (done || lia).
      apply (IH w1 ls1); try done; [congruence|]. simpl in Hbound. lia. }
    destruct (run_op o w) as [[] w1|ex w1| |]; [by apply Hnext|by apply Hnext| |done].
    exfalso. destruct Hstep as [(a & Ha & Hn)|(a & m & Ha & Hm & Hfull)];
      apply (op_maps_insert_erase 0) in Ha as ->; try done.
    + apply lookup_ge_None in Hn. rewrite <- (winv_len _ _ Hinv) in Hn. lia.
    + destruct (winv_lookup _ _ _ _ Hinv Hm) as (l & hd & tl & cs & Hl & [Hrl _] & Hsz).
      rewrite (list_lookup_total_correct _ _ _ Hl) in Hbound.
      apply (sized_not_full m (N.of_nat (length l))) in Hfull; try done.
      * simpl in Hbound. lia.
      * apply (rl_count _ _ _ _ _ Hrl).
Qed.

Lemma exec_app ops1 : forall ops2 w w1,
  exec ops1 w = Some w1 -> exec (ops1 ++ ops2) w = exec ops2 w1.
Proof.
  induction ops1 as [|o ops1 IH]; intros ops2 w w1 Hex; simpl in *.
  - by injection Hex as ->.
  - destruct (run_op o w) as [[] w0|ex w0| |]; try done; by apply IH.
Qed.

Lemma m_exec_insert_erase_length ops : forall ms,
  forallb (insert_erase_on 0) ops = true -> 0 < length ms ->
  length (m_exec ops ms) = length ms.
Proof.
  induction ops as [|o ops IH]; intros ms Hops Hms; [done|].
  cbn [forallb] in Hops. apply andb_prop in Hops as [Ho Hops].
  destruct (m_step_insert_erase 0 o ms Ho Hms) as [Hlen _].
  unfold m_exec in *. cbn [foldl]. rewrite IH by (done || lia). done.
Qed.

(** C3. A program that constructs an empty container and then only inserts
    into it and erases from it (fewer than 2^53 calls) runs to the end,
    whatever exceptions its erasures raise, and a traversal from [begin]
    to [end] then yields exactly the list that the abstract container
    holds: every first insertion of a key appends its entry at the back,
    every erasure removes its entry and keeps the others in order.
    Inserting a key that is present leaves the whole state as it is,
    so the position of that key in the order does not change. *)
Theorem iteration_follows_insertion_order (ops : list op) :
  forallb (insert_erase_on 0) ops = true ->
  (N.of_nat (length ops) < 2 ^ 53)%N ->
  exists w, exec (OConstruct :: ops) init_world = Some w /\
    to_list 0 w = Ok (m_exec ops [[]] !!! 0%nat) w /\
    forall k v, k ∈ (m_exec ops [[]] !!! 0%nat).*1 ->
      exec (OConstruct :: ops ++ [OInsert 0 k v]) init_world = Some w.
Proof.
  intros Hops Hbound.
  assert (exists w0 ls0, winv w0 ls0 /\ entries (nodes w0) <$> ls0 = [[]] /\
            forall ops', exec (OConstruct :: ops') init_world = exec ops' w0)
    as (w0 & ls0 & Hinv0 & Hent0 & Hrun0).
  { pose proof (run_op_sim OConstruct init_world [] winv_init) as Hstep.
    cbn [exec]. destruct (run_op OConstruct init_world) as [[] w0|ex w0| |]; [| | |done].
    - destruct Hstep as (ls0 & Hinv0 & Hent0). by exists w0, ls0.
    - destruct Hstep as (ls0 & Hinv0 & Hent0). by exists w0, ls0.
    - destruct Hstep as [(a & Ha & _)|(a & m & Ha & _)]; by apply elem_of_nil in Ha. }
  assert (length ls0 = 1) as Hlen0.
  { apply (f_equal length) in Hent0. by rewrite length_fmap in Hent0. }
  assert (length (ls0 !!! 0) = 0) as Hemp.
  { rewrite <- (winv_model_length w0 ls0 0 Hinv0) by lia. by rewrite Hent0. }
  destruct (exec_insert_erase ops w0 ls0 Hinv0 Hlen0 Hops) as [w Hex].
  { rewrite Hemp. simpl. lia. }
  destruct (exec_sim ops w0 ls0 w Hinv0 Hex) as (ls & Hinv & Hent).
  rewrite Hent0 in Hent.
  assert (length ls = 1) as Hlen.
  { apply (f_equal length) in Hent.
    rewrite length_fmap, m_exec_insert_erase_length in Hent by (done || simpl; lia).
    done. }
  destruct (lookup_lt_is_Some_2 ls 0) as [l Hl]; [lia|].
  assert (is_Some (maps w !! 0)) as [m Hm].
  { apply lookup_lt_is_Some. rewrite <- (winv_len _ _ Hinv). lia. }
  assert (m_exec ops [[]] !!! 0 = entries (nodes w) l) as Hmodel.
  { rewrite <- Hent. apply list_lookup_total_correct. by rewrite list_lookup_fmap, Hl. }
  exists w. rewrite Hmodel. split_and!.
  - by rewrite Hrun0.
  - by eapply to_list_winv.
  - intros k v Hk. rewrite Hrun0, (exec_app ops [OInsert 0 k v] w0 w Hex).
    destruct (insert_present w ls 0 m l k v Hinv Hm Hl) as (x & _ & _ & Hins).
    { unfold has_key. apply bool_decide_eq_true_2. by rewrite <- Hmodel. }
    cbn [exec run_op]. by rewrite (bind_Ok _ _ _ _ _ Hins).
Qed.

(** ** Insert, find, erase, find *)

Lemma erase_then_find w ls a m l i x k :
  winv w ls -> maps w !! a = Some m -> ls !! a = Some l -> l !! i = Some x ->
  key_of (nodes w) x = Some k ->
  exists w2 e, erase a (mkIt (Some x) (Some a)) w = Ok tt w2 /\
    find a k w2 = Ok e w2 /\ end_ a w2 = Ok e w2.
Proof.
  intros Hinv Ha Hl Hi Hk.
  destruct (winv_rep _ _ Hinv a m l Ha Hl) as [(hd & tl & cs & [Hrl _]) _].
  destruct (erase_winv w ls a m l i x Hinv Ha Hl Hi)
    as (w2 & m2 & Hrun & Hinv2 & Hmaps & _ & _ & _ & _ & Hx & Hdt).
  assert (maps w2 !! a = Some m2) as Ha2.
  { rewrite Hmaps. apply list_lookup_insert_eq. by eapply lookup_lt_Some. }
  assert (<[a := delete i l]> ls !! a = Some (delete i l)) as Hl2.
  { apply list_lookup_insert_eq. by eapply lookup_lt_Some. }
  destruct (winv_rep _ _ Hinv2 a m2 _ Ha2 Hl2) as [(hd2 & tl2 & cs2 & Hrep2) _].
  exists w2, (mkIt (Some tl2) (Some a)). split_and!; [done| |by eapply end_spec].
  eapply find_absent; [done|done|]. intros z Hz Hkz.
  apply list_elem_of_delete_inv in Hz.
  destruct (decide (z = x)) as [->|Hne].
  - unfold key_of, entry_of in Hkz. by rewrite Hx in Hkz.
  - rewrite (key_of_ext _ _ _ (Hdt z Hne)) in Hkz.
    by apply Hne, (rl_keys _ _ _ _ _ Hrl z x k); [|apply list_elem_of_lookup_2 with i| |].
Qed.

(** C4. In a state reached by a client program, [insert] of [(k, v)] into a
    container that can still grow returns a position that [find k] returns
    as well; the entry there has key [k] and the value stored for [k]:
    [v] if the key was absent (the flag is true), the value the container
    already held otherwise (the flag is false and the state is unchanged).
    Erasing that position succeeds, and [find k] is then [end]. *)
Theorem insert_find_erase_roundtrip
    (ops : list op) (w : world) (a : mref) (m : linked_hashmap)
    (es : list value_type) (k : Key) (v : T) :
  exec ops init_world = Some w ->
  maps w !! a = Some m -> ~ full m ->
  to_list a w = Ok es w ->
  exists it b w1 v1,
    insert a (k, v) w = Ok (it, b) w1 /\
    find a k w1 = Ok it w1 /\
    star it w1 = Ok (k, v1) w1 /\
    (if b then (k ∉ es.*1) /\ v1 = v else (k, v1) ∈ es /\ w1 = w) /\
    exists w2 e, erase a it w1 = Ok tt w2 /\
      find a k w2 = Ok e w2 /\ end_ a w2 = Ok e w2.
Proof.
  intros Hex Ha Hfull Hlist.
  destruct (reachable_container ops w a m Hex Ha)
    as (ls & l & hd & tl & cs & Hinv & Hl & Hrep & Hsz & _ & Hlist').
  rewrite Hlist in Hlist'. injection Hlist' as ->.
  pose proof Hrep as [Hrl _].
  destruct (has_key k (entries (nodes w) l)) eqn:Hk.
  - destruct (insert_present w ls a m l k v Hinv Ha Hl Hk) as (x & Hx & Hkx & Hins).
    apply key_of_Some in Hkx as Hkx'. destruct Hkx' as (v0 & He).
    apply list_elem_of_lookup_1 in Hx as Hi. destruct Hi as [i Hi].
    exists (mkIt (Some x) (Some a)), false, w, v0. split_and!; try done.
    + by eapply find_present.
    + by apply star_Ok.
    + by eapply entries_elem.
    + by eapply erase_then_find.
  - destruct (insert_absent w ls a m l k v Hinv Ha Hl Hk Hfull)
      as (w1 & m1 & Hins & Hinv1 & Hmaps & _ & _ & _ & _ & _ & _ & _ & _ & He).
    assert (maps w1 !! a = Some m1) as Ha1.
    { rewrite Hmaps. apply list_lookup_insert_eq. by eapply lookup_lt_Some. }
    assert (<[a := l ++ [next_loc w]]> ls !! a = Some (l ++ [next_loc w])) as Hl1.
    { apply list_lookup_insert_eq. by eapply lookup_lt_Some. }
    destruct (winv_rep _ _ Hinv1 a m1 _ Ha1 Hl1) as [(hd1 & tl1 & cs1 & Hrep1) _].
    assert (key_of (nodes w1) (next_loc w) = Some k) as Hk1.
    { apply key_of_Some. by exists v. }
    exists (mkIt (Some (next_loc w)) (Some a)), true, w1, v. split_and!; try done.
    + eapply find_present; [done|done| |done]. apply elem_of_app. right.
      by apply list_elem_of_singleton.
    + by apply star_Ok.
    + unfold has_key in Hk. by apply bool_decide_eq_false in Hk.
    + eapply (erase_then_find w1 _ a m1 _ (length l)); try done.
      by apply list_lookup_middle.
Qed.

(** ** The order list as the code walks it *)

Lemma walk_spec h tl l : forall fuel p,
  chain (fld next h) p l (Some tl) -> tl ∉ l -> length l < fuel ->
  walk fuel h p (Some tl) = Some l.
Proof.
  induction l as [|x l IH]; intros fuel p Hch Htl Hfuel.
  - destruct fuel as [|fuel]; [simpl in Hfuel; lia|]. cbn [chain] in Hch. subst p.
    cbn [walk]. by rewrite decide_True.
  - destruct fuel as [|fuel]; [simpl in Hfuel; lia|].
    cbn [chain] in Hch. destruct Hch as (-> & y & Hy & Hch).
    apply not_elem_of_cons in Htl as [Hne Htl].
    cbn [walk]. rewrite decide_False by congruence.
    unfold fld in Hy. destruct (h !! x) as [n|]; [|done]. simpl in Hy.
    injection Hy as <-. rewrite (IH fuel (next n)); [done|done|done|].
    simpl in Hfuel. lia.
Qed.

Lemma order_nodes_spec w a m hd tl l :
  maps w !! a = Some m -> rep_list (nodes w) m hd tl l ->
  order_nodes w a = Some l.
Proof.
  intros Ha Hrl. unfold order_nodes. rewrite Ha, (rl_head _ _ _ _ _ Hrl).
  destruct (rep_list_first _ _ _ _ _ Hrl) as (first & Hf & Hch).
  unfold fld in Hf. destruct (nodes w !! hd) as [n|]; [|done]. simpl in Hf.
  injection Hf as <-. rewrite (rl_tail _ _ _ _ _ Hrl).
  pose proof (rl_nodup _ _ _ _ _ Hrl) as Hnd. apply NoDup_cons in Hnd as [_ Hnd].
  apply NoDup_app in Hnd as (Hnd & Hdisj & _).
  apply walk_spec; [done| |by eapply (chain_fuel next)].
  intros Hin. apply (Hdisj tl Hin). by apply list_elem_of_singleton.
Qed.

(** ** Reading a world with the same lists *)

Lemma load_same {A} (f : Node -> A) w w' p :
  (forall x, fld f (nodes w') x = fld f (nodes w) x) ->
  load f p w' = in_world w' (load f p w).
Proof.
  intros Hf. unfold load, bind, deref. destruct p as [x|]; [|done].
  specialize (Hf x). unfold fld in Hf.
  destruct (nodes w' !! x), (nodes w !! x); simpl in *; simplify_eq; try done.
  unfold ret. simpl. congruence.
Qed.

Lemma star_same w w' p :
  same_order w w' -> star p w' = in_world w' (star p w).
Proof.
  intros [Hsame _]. unfold star, bind, deref. destruct (node p) as [x|]; [|done].
  destruct (Hsame x) as (Hd & _). unfold fld in Hd.
  destruct (nodes w' !! x) as [n'|], (nodes w !! x) as [n|]; simpl in *; simplify_eq;
    try done.
  unfold deref_data. rewrite Hd. by destruct (data n).
Qed.

Lemma begin_same w w' b :
  same_order w w' -> begin b w' = in_world w' (begin b w).
Proof.
  intros [Hsame Hmaps]. unfold begin, bind at 1 3, get_map. specialize (Hmaps b).
  destruct (maps w !! b) as [m|], (maps w' !! b) as [m'|]; try done.
  destruct Hmaps as (-> & _). unfold bind.
  rewrite (load_same next w w') by apply Hsame.
  by destruct (load next (head m) w).
Qed.

Lemma end_same w w' b :
  same_order w w' -> end_ b w' = in_world w' (end_ b w).
Proof.
  intros [_ Hmaps]. unfold end_, bind, get_map. specialize (Hmaps b).
  destruct (maps w !! b) as [m|], (maps w' !! b) as [m'|]; try done.
  by destruct Hmaps as (_ & -> & _).
Qed.

Lemma size_same w w' b :
  same_order w w' -> size b w' = in_world w' (size b w).
Proof.
  intros [_ Hmaps]. unfold size, bind, get_map. specialize (Hmaps b).
  destruct (maps w !! b) as [m|], (maps w' !! b) as [m'|]; try done.
  by destruct Hmaps as (_ & _ & ->).
Qed.

Lemma incr_same w w' p :
  same_order w w' -> incr p w' = in_world w' (incr p w).
Proof.
  intros [Hsame Hmaps]. unfold incr. destruct (node p) as [x|]; [|done].
  unfold map_of. destruct (map p) as [b|]; [|done].
  unfold bind at 1 3, get_map. specialize (Hmaps b).
  destruct (maps w !! b) as [m|], (maps w' !! b) as [m'|]; try done.
  destruct Hmaps as (_ & -> & _). destruct (decide (Some x = tail m)); [done|].
  unfold bind. rewrite (load_same next w w') by apply Hsame.
  by destruct (load next (Some x) w).
Qed.

Lemma decr_same w w' p :
  same_order w w' -> decr p w' = in_world w' (decr p w).
Proof.
  intros [Hsame Hmaps]. unfold decr. destruct (node p) as [x|]; [|done].
  unfold bind at 1 4. rewrite (load_same prev w w') by apply Hsame.
  pose proof (load_same prev w w (Some x) (fun _ => eq_refl)) as Hpure.
  destruct (load prev (Some x) w) as [pv w0|ex w0| |] eqn:Hld; try done.
  simpl in Hpure. injection Hpure as ->. cbn [in_world].
  unfold map_of. destruct (map p) as [b|]; [|done].
  unfold bind at 1 3, get_map. specialize (Hmaps b).
  destruct (maps w !! b) as [m|], (maps w' !! b) as [m'|]; try done.
  destruct Hmaps as (-> & _). destruct (decide (pv = head m)); [done|].
  unfold bind. rewrite (load_same prev w w') by apply Hsame. rewrite Hld. done.
Qed.

Lemma find_same w w' b m m' hd tl l cs cs' k :
  maps w !! b = Some m -> maps w' !! b = Some m' ->
  rep (nodes w) m hd tl l cs -> rep (nodes w') m' hd tl l cs' ->
  same_lists (nodes w) (nodes w') ->
  find b k w' = in_world w' (find b k w).
Proof.
  intros Hb Hb' Hrep Hrep' Hsame.
  destruct (find_spec w b m hd tl l cs k Hb Hrep) as (x & Hx & Hf & _).
  destruct (find_spec w' b m' hd tl l cs' k Hb' Hrep') as (x' & Hx' & Hf' & _).
  rewrite (entries_ext (nodes w) (nodes w') l) in Hx' by (intros z _; apply Hsame).
  rewrite Hf, Hf'. simpl. congruence.
Qed.

Lemma eval_pos_same w ls w' :
  winv w ls -> same_order w w' ->
  (forall b k, find b k w' = in_world w' (find b k w)) ->
  forall e, eval_pos e w' = in_world w' (eval_pos e w).
Proof.
  intros Hinv Hso Hfind e.
  induction e as [|b|b|b k|e IH|e IH]; cbn [eval_pos].
  - done.
  - by apply begin_same.
  - by apply end_same.
  - apply Hfind.
  - unfold bind. rewrite IH. pose proof (eval_pos_sim w ls e Hinv) as Hsim.
    destruct (eval_pos e w) as [it w1|ex w1| |]; try done.
    destruct Hsim as [-> _]. cbn [in_world]. by apply incr_same.
  - unfold bind. rewrite IH. pose proof (eval_pos_sim w ls e Hinv) as Hsim.
    destruct (eval_pos e w) as [it w1|ex w1| |]; try done.
    destruct Hsim as [-> _]. cbn [in_world]. by apply decr_same.
Qed.

Lemma same_lists_dom h h' : same_lists h h' -> dom h' = dom h.
Proof.
  intros Hsame. apply set_eq. intros x. rewrite !elem_of_dom.
  by apply same_lists_live.
Qed.

(** C7. In a state reached by a client program, [rehash] of a container to
    any non-zero bucket count returns normally and changes nothing but the
    bucket array of that container and the [hash_next] links of its nodes:
    the order list (the same nodes in the same order, with the same keys
    and values), the element count, the set of live nodes and the allocator
    are as before; bucket [i] then chains the nodes of the order list whose
    key hashes to [i], the one latest in the list first (each node, taken
    in list order, is put at the front of its bucket); and every
    position expression, every dereference, step and lookup gives the
    result it gave before, in all containers. *)
Theorem rehash_only_rechains
    (ops : list op) (w : world) (a : mref) (m : linked_hashmap) (n : N) :
  exec ops init_world = Some w -> maps w !! a = Some m -> n <> 0%N ->
  exists w' m' l es,
    rehash a n w = Ok tt w' /\
    maps w' = <[a := m']> (maps w) /\
    bucket_count m' = n /\ length (buckets m') = N.to_nat n /\
    head m' = head m /\ tail m' = tail m /\
    element_count m' = element_count m /\
    size a w' = in_world w' (size a w) /\
    order_nodes w a = Some l /\ order_nodes w' a = Some l /\
    to_list a w = Ok es w /\ to_list a w' = Ok es w' /\
    dom (nodes w') = dom (nodes w) /\ next_loc w' = next_loc w /\
    same_lists (nodes w) (nodes w') /\
    (forall x, x ∉ l -> nodes w' !! x = nodes w !! x) /\
    (forall i b, buckets m' !! i = Some b ->
       chain (fld hash_next (nodes w')) b
             (reverse (bucket_nodes (nodes w) m' i l)) None) /\
    (forall e, eval_pos e w' = in_world w' (eval_pos e w)) /\
    (forall p, star p w' = in_world w' (star p w) /\
               incr p w' = in_world w' (incr p w) /\
               decr p w' = in_world w' (decr p w)) /\
    (forall b k, find b k w' = in_world w' (find b k w)) /\
    (forall b, to_list b w' = in_world w' (to_list b w)).
Proof.
  intros Hex Ha Hn.
  destruct (reachable_container ops w a m Hex Ha)
    as (ls & l & hd & tl & cs & Hinv & Hl & Hrep & Hsz & _ & Hlist).
  destruct (rehash_spec w a m hd tl l cs n Ha Hrep Hn)
    as (w' & m' & cs' & Hrun & Hmaps & Hnl & Hhd & Htl & Hbc & Hec & Hsame & Hframe
        & Hrep' & Hcs').
  pose proof Hrep as [Hrl _]. pose proof Hrep' as [Hrl' Hri'].
  assert (maps w' !! a = Some m') as Ha'.
  { rewrite Hmaps. apply list_lookup_insert_eq. by eapply lookup_lt_Some. }
  assert (same_order w w') as Hso.
  { split; [done|]. intros b. rewrite Hmaps. destruct (decide (b = a)) as [->|Hne].
    - by rewrite Ha, list_lookup_insert_eq by by eapply lookup_lt_Some.
    - rewrite list_lookup_insert_ne by done. by destruct (maps w !! b). }
  assert (forall b mb, maps w !! b = Some mb ->
            exists mb' hdb tlb lb csb csb', maps w' !! b = Some mb' /\
              rep (nodes w) mb hdb tlb lb csb /\ rep (nodes w') mb' hdb tlb lb csb')
    as Hboth.
  { intros b mb Hb. destruct (decide (b = a)) as [->|Hne].
    - rewrite Ha in Hb. injection Hb as <-. by exists m', hd, tl, l, cs, cs'.
    - destruct (winv_lookup _ _ _ _ Hinv Hb) as (lb & hdb & tlb & csb & Hlb & Hrepb & _).
      exists mb, hdb, tlb, lb, csb, csb. split_and!; [|done|].
      + rewrite Hmaps, list_lookup_insert_ne by done. done.
      + apply (rep_frame (nodes w)); [done|]. intros z Hz. apply Hframe. intros Hzl.
        apply (winv_disj _ _ Hinv b a mb m lb l z Hne Hb Ha Hlb Hl).
        * by apply (owns_iff _ _ _ _ _ _ (proj1 Hrepb)).
        * by right; right. }
  assert (forall b k, find b k w' = in_world w' (find b k w)) as Hfind.
  { intros b k. destruct (maps w !! b) as [mb|] eqn:Hb.
    - destruct (Hboth b mb Hb) as (mb' & hdb & tlb & lb & csb & csb' & Hb' & Hr & Hr').
      by eapply find_same.
    - destruct Hso as [_ Hso]. specialize (Hso b). rewrite Hb in Hso.
      destruct (maps w' !! b) eqn:Hb'; [done|].
      unfold find, find_node, bind, get_map. by rewrite Hb, Hb'. }
  exists w', m', l, (entries (nodes w) l). split_and!; try done.
  - rewrite (ri_bc _ _ _ _ Hri') in Hbc. lia.
  - by apply size_same.
  - by eapply order_nodes_spec.
  - by eapply order_nodes_spec.
  - rewrite <- (entries_ext (nodes w) (nodes w') l) by (intros z _; apply Hsame).
    by eapply to_list_spec.
  - by apply same_lists_dom.
  - intros i b Hb. eapply (ri_chain _ _ _ _ Hri'); [done|]. apply Hcs'.
    apply lookup_lt_Some in Hb. rewrite (ri_bc _ _ _ _ Hri') in Hbc. lia.
  - by eapply eval_pos_same.
  - intros p. split_and!; [by apply star_same|by apply incr_same|by apply decr_same].
  - intros b. destruct (maps w !! b) as [mb|] eqn:Hb.
    + destruct (Hboth b mb Hb) as (mb' & hdb & tlb & lb & csb & csb' & Hb' & Hr & Hr').
      rewrite (to_list_spec w b mb hdb tlb lb csb Hb Hr).
      rewrite (to_list_spec w' b mb' hdb tlb lb csb' Hb' Hr'). simpl. f_equal.
      apply entries_ext. intros z _. apply Hsame.
    + destruct Hso as [_ Hso]. specialize (Hso b). rewrite Hb in Hso.
      destruct (maps w' !! b) eqn:Hb'; [done|].
      unfold to_list, begin, bind, get_map. by rewrite Hb, Hb'.
Qed.

(** ** Copies *)

Lemma independent_copy_intro w1 ls1 a b m mb la lb es :
  winv w1 ls1 -> a <> b ->
  maps w1 !! a = Some m -> maps w1 !! b = Some mb ->
  ls1 !! a = Some la -> ls1 !! b = Some lb ->
  entries (nodes w1) la = es -> entries (nodes w1) lb = es ->
  (N.of_nat (length es) < 2 ^ 62)%N ->
  independent_copy a m la es b w1.
Proof.
  intros Hinv Hab Ha Hb Hla Hlb Hea Heb Hbound.
  destruct (winv_rep _ _ Hinv a m la Ha Hla) as [(hda & tla & csa & Hrepa) _].
  destruct (winv_rep _ _ Hinv b mb lb Hb Hlb) as [(hdb & tlb & csb & Hrepb) Hszb].
  pose proof Hrepa as [Hrla _]. pose proof Hrepb as [Hrlb _].
  exists mb, lb. split_and!; try done.
  - by eapply order_nodes_spec.
  - by eapply order_nodes_spec.
  - intros x. by apply (winv_disj _ _ Hinv a b m mb la lb x).
  - rewrite <- Hea. by eapply to_list_spec.
  - rewrite <- Heb. by eapply to_list_spec.
  - intros k v Hk.
    destruct (insert_absent w1 ls1 b mb lb k v Hinv Hb Hlb)
      as (w2 & mb2 & Hins & Hinv2 & Hmaps & _ & _ & _ & _ & Hent & Hoth & _).
    { unfold has_key. apply bool_decide_eq_false_2. by rewrite Heb. }
    { apply (sized_not_full mb (N.of_nat (length lb))); [done| |].
      - rewrite <- (entries_length (nodes w1) lb (rl_data _ _ _ _ _ Hrlb)), Heb. lia.
      - apply (rl_count _ _ _ _ _ Hrlb). }
    assert (maps w2 !! a = Some m) as Ha2.
    { rewrite Hmaps, list_lookup_insert_ne by done. done. }
    assert (maps w2 !! b = Some mb2) as Hb2.
    { rewrite Hmaps. apply list_lookup_insert_eq. by eapply lookup_lt_Some. }
    assert (<[b := lb ++ [next_loc w1]]> ls1 !! a = Some la) as Hla2.
    { rewrite list_lookup_insert_ne by done. done. }
    assert (<[b := lb ++ [next_loc w1]]> ls1 !! b = Some (lb ++ [next_loc w1])) as Hlb2.
    { apply list_lookup_insert_eq. by eapply lookup_lt_Some. }
    destruct (winv_rep _ _ Hinv2 a m la Ha2 Hla2) as [(hd2 & tl2 & cs2 & Hrep2) _].
    pose proof Hrep2 as [Hrl2 _].
    assert (entries (nodes w2) la = es) as Hea2.
    { rewrite (Hoth a la) by done. done. }
    exists w2, (mkIt (Some (next_loc w1)) (Some b)), (mkIt (Some tl2) (Some a)).
    split_and!; try done.
    + rewrite <- Heb, <- Hent. by eapply to_list_winv.
    + rewrite <- Hea2. by eapply to_list_spec.
    + by eapply order_nodes_spec.
    + eapply find_absent; [done|done|].
      apply (has_key_false _ _ k (rl_data _ _ _ _ _ Hrl2)).
      unfold has_key. apply bool_decide_eq_false_2. by rewrite Hea2.
    + by eapply end_spec.
Qed.

(** C8. In a state reached by a client program, let container [a] hold the
    entries [es] (fewer than 2^53 of them) on the nodes [la].  The copy
    constructor returns a new container, and copy assignment to any other
    container [b] returns normally; either way [a] keeps its record and
    its nodes, the copy holds the same entries in the same order on nodes
    and sentinels that [a] does not own, and inserting a key that is new
    into the copy appends it there while [a] still iterates to [es] and
    [a.find] of that key is [a.end()].  Assigning [a] to itself changes
    nothing. *)
Theorem copy_is_independent
    (ops : list op) (w : world) (a : mref) (m : linked_hashmap)
    (es : list value_type) :
  exec ops init_world = Some w -> maps w !! a = Some m ->
  to_list a w = Ok es w -> (N.of_nat (length es) < 2 ^ 53)%N ->
  exists la, order_nodes w a = Some la /\
    (exists w1, copy_construct a w = Ok (length (maps w)) w1 /\
       independent_copy a m la es (length (maps w)) w1) /\
    (forall b, b <> a -> is_Some (maps w !! b) ->
       exists w1, assign b a w = Ok tt w1 /\ independent_copy a m la es b w1) /\
    assign a a w = Ok tt w.
Proof.
  intros Hex Ha Hlist Hbound.
  destruct (reachable_container ops w a m Hex Ha)
    as (ls & l & hd & tl & cs & Hinv & Hl & Hrep & Hsz & _ & Hlist').
  rewrite Hlist in Hlist'. injection Hlist' as ->.
  pose proof (lookup_lt_Some _ _ _ Ha) as Hlt.
  pose proof (winv_len _ _ Hinv) as Hlen.
  exists l. split_and!.
  - eapply order_nodes_spec; [done|]. apply Hrep.
  - destruct (copy_construct_spec w ls a m l Hinv Ha Hl)
      as (w1 & lt & Hrun & Hinv1 & Hent & Hoth & Hmaps & Hlen1).
    exists w1. split; [done|].
    destruct (lookup_lt_is_Some_2 (maps w1) (length (maps w))) as [mb Hb]; [lia|].
    apply (independent_copy_intro w1 (ls ++ [lt]) a (length (maps w)) m mb l lt);
      try done.
    + lia.
    + by rewrite Hmaps.
    + by apply lookup_app_l_Some.
    + rewrite <- Hlen. apply list_lookup_middle. done.
    + by apply (Hoth a).
    + lia.
  - intros b Hne [mt Hb].
    destruct (winv_lookup _ _ _ _ Hinv Hb) as (lt & _ & _ & _ & Hlt' & _).
    destruct (assign_spec w ls b a mt m lt l Hinv Hb Ha Hlt' Hl)
      as (w1 & lt' & Hrun & Hinv1 & Hent & Hoth & Hmaps).
    exists w1. split; [done|].
    pose proof (lookup_lt_Some _ _ _ Hlt') as Hb_lt.
    destruct (lookup_lt_is_Some_2 (maps w1) b) as [mb Hb1].
    { rewrite <- (winv_len _ _ Hinv1), length_insert. done. }
    apply (independent_copy_intro w1 (<[b := lt']> ls) a b m mb l lt'); try done.
    + by rewrite Hmaps.
    + by rewrite list_lookup_insert_ne.
    + by apply list_lookup_insert_eq.
    + by apply (Hoth a).
    + lia.
  - unfold assign, bind, get_map. rewrite !Ha. by rewrite decide_True.
Qed.

(** ** Load factor *)

(** Up to thirteen new keys go into a container of sixteen buckets
    without a rehash. *)
Lemma exec_inserts kvs : forall w ls m l,
  winv w ls -> maps w !! 0 = Some m -> ls !! 0 = Some l ->
  bucket_count m = 16%N ->
  length l + length kvs <= 13 ->
  NoDup ((entries (nodes w) l).*1 ++ kvs.*1) ->
  exists w' ls' m' l', exec (inserts 0 kvs) w = Some w' /\
    winv w' ls' /\ maps w' !! 0 = Some m' /\ ls' !! 0 = Some l' /\
    bucket_count m' = 16%N /\
    entries (nodes w') l' = entries (nodes w) l ++ kvs.
Proof.
  induction kvs as [|[k v] kvs IH]; intros w ls m l Hinv Hm Hl Hbc Hlen Hnd.
  - exists w, ls, m, l. by rewrite app_nil_r.
  - destruct (winv_rep _ _ Hinv 0 m l Hm Hl) as [(hd & tl & cs & [Hrl _]) _].
    pose proof (rl_count _ _ _ _ _ Hrl) as Hec. simpl in Hlen.
    destruct (insert_absent w ls 0 m l k v Hinv Hm Hl)
      as (w1 & m1 & Hins & Hinv1 & Hmaps & _ & _ & _ & Hbc1 & Hent & _).
    { unfold has_key. apply bool_decide_eq_false_2. intros Hk.
      apply NoDup_app in Hnd as (_ & Hdisj & _). apply (Hdisj k Hk).
      rewrite fmap_cons. apply elem_of_cons. by left. }
    { intros [_ Hfull]. rewrite Hbc in Hfull. done. }
    assert (over_load_factor m = false) as Hov.
    { apply over_load_factor_false. rewrite Hbc, Hec. lia. }
    rewrite Hov, Hbc in Hbc1.
    destruct (IH w1 (<[0 := l ++ [next_loc w]]> ls) m1 (l ++ [next_loc w]))
      as (w' & ls' & m' & l' & Hex & Hinv' & Hm' & Hl' & Hbc' & Hent'); try done.
    + rewrite Hmaps. apply list_lookup_insert_eq. by eapply lookup_lt_Some.
    + apply list_lookup_insert_eq. by eapply lookup_lt_Some.
    + rewrite length_app. simpl. lia.
    + rewrite Hent, fmap_app, <- app_assoc. done.
    + exists w', ls', m', l'. split_and!; try done.
      * cbn [inserts fmap list_fmap exec run_op fst snd].
        rewrite (bind_Ok _ _ _ _ _ Hins). exact Hex.
      * rewrite Hent', Hent, <- app_assoc. done.
Qed.

(** C1. The bound of the claim fails on the code.  From a default-constructed
    container, inserting any thirteen entries with distinct keys succeeds,
    and leaves thirteen elements in sixteen buckets without any rehash
    (whatever the hash function): 13 is above 16 * 0.75 = 12.  The test
    in [insert] runs before the new node is counted, on twelve elements. *)
Theorem load_factor_exceeded_by_thirteenth_insert (kvs : list value_type) :
  NoDup kvs.*1 -> length kvs = 13 ->
  exists w m, exec (OConstruct :: inserts 0 kvs) init_world = Some w /\
    maps w !! 0 = Some m /\
    to_list 0 w = Ok kvs w /\
    size 0 w = Ok 13%N w /\
    bucket_count m = INITIAL_BUCKET_COUNT /\
    over_load_factor m = true /\
    (3 * bucket_count m < 4 * element_count m)%N.
Proof.
  intros Hnd Hlen.
  destruct (construct_spec init_world [] winv_init)
    as (w0 & Hc & Hinv0 & _ & m0 & Hmaps0 & Hbc0 & Hec0).
  simpl in Hinv0, Hmaps0.
  destruct (exec_inserts kvs w0 [[]] m0 [])
    as (w & ls & m & l & Hex & Hinv & Hm & Hl & Hbc & Hent); try done.
  { by rewrite Hmaps0. }
  { simpl. unfold value_type in *. lia. }
  destruct (winv_rep _ _ Hinv 0 m l Hm Hl) as [(hd & tl & cs & Hrep) _].
  pose proof Hrep as [Hrl _]. simpl in Hent.
  assert (element_count m = 13%N) as Hec.
  { rewrite (rl_count _ _ _ _ _ Hrl).
    rewrite <- (entries_length (nodes w) l (rl_data _ _ _ _ _ Hrl)), Hent, Hlen. done. }
  exists w, m. split_and!; try done.
  - cbn [exec run_op]. rewrite (bind_Ok _ _ _ _ _ Hc). exact Hex.
  - rewrite <- Hent. by eapply to_list_spec.
  - unfold size, bind, get_map. rewrite Hm. unfold ret. by rewrite Hec.
  - apply over_load_factor_true. rewrite Hbc, Hec. done.
  - rewrite Hbc, Hec. done.
Qed.

(** What the code does keep: in every reachable state a container is
    within one element of the load-factor bound, on a bucket count that is
    a power of two from sixteen up. *)
Lemma reachable_load_factor (ops : list op) (w : world) (a : mref) (m : linked_hashmap) :
  exec ops init_world = Some w -> maps w !! a = Some m ->
  (4 * element_count m <= 3 * bucket_count m + 4)%N /\
  exists k : N, (4 <= k <= 63)%N /\ bucket_count m = (2 ^ k)%N.
Proof.
  intros Hex Ha.
  destruct (reachable_container ops w a m Hex Ha)
    as (_ & _ & _ & _ & _ & _ & _ & _ & [Hpow Hload] & _).
  by split.
Qed.

(** * Further properties of the code *)

Lemma reachable_listing ops w a es :
  exec ops init_world = Some w -> to_list a w = Ok es w ->
  exists ls m l hd tl cs, winv w ls /\ maps w !! a = Some m /\ ls !! a = Some l /\
    rep (nodes w) m hd tl l cs /\ sized m /\
    es = entries (nodes w) l /\ order_nodes w a = Some l.
Proof.
  intros Hex Hlist. destruct (to_list_valid _ _ _ _ Hlist) as [m Ha].
  destruct (reachable_container ops w a m Hex Ha)
    as (ls & l & hd & tl & cs & Hinv & Hl & Hrep & Hsz & _ & Hlist').
  rewrite Hlist in Hlist'. injection Hlist' as ->.
  exists ls, m, l, hd, tl, cs. split_and!; try done.
  eapply order_nodes_spec; [done|apply Hrep].
Qed.

Lemma entries_nil_iff h l :
  (forall x, x ∈ l -> is_Some (entry_of h x)) -> entries h l = [] <-> l = [].
Proof.
  intros Hd. split; [|by intros ->].
  intros He. apply (f_equal length) in He. rewrite entries_length in He by done.
  by apply nil_length_inv.
Qed.

Lemma entries_keys_NoDup h l :
  NoDup l ->
  (forall x, x ∈ l -> is_Some (entry_of h x)) ->
  (forall x y k, x ∈ l -> y ∈ l -> key_of h x = Some k -> key_of h y = Some k -> x = y) ->
  NoDup (entries h l).*1.
Proof.
  induction l as [|x l IH]; intros Hnd Hd Hk; [constructor|].
  apply NoDup_cons in Hnd as [Hx Hnd].
  destruct (Hd x) as [[k v] He]; [by left|].
  rewrite (entries_cons_Some _ _ _ _ He), fmap_cons. apply NoDup_cons. split.
  - intros Hin. apply entries_keys in Hin as (y & Hy & Hky).
    + apply Hx. rewrite (Hk x y k); [done|by left|by right| |done].
      apply key_of_Some. by exists v.
    + intros z Hz. apply Hd. by right.
  - apply IH; [done| |].
    + intros z Hz. apply Hd. by right.
    + intros y z k' Hy Hz. apply Hk; by right.
Qed.

(** X1. In every state a client program can reach, [size()] is the number
    of entries a traversal from [begin()] to [end()] meets, [empty()] says
    whether there is none, and [begin() == end()] exactly when there is
    none; none of the three changes the state. *)
Theorem size_counts_iterated_entries
    (ops : list op) (w : world) (a : mref) (es : list value_type) :
  exec ops init_world = Some w -> to_list a w = Ok es w ->
  size a w = Ok (N.of_nat (length es)) w /\
  empty a w = Ok (bool_decide (es = [])) w /\
  exists b e, begin a w = Ok b w /\ end_ a w = Ok e w /\
    iter_eq b e = bool_decide (es = []).
Proof.
  intros Hex Hlist.
  destruct (reachable_listing ops w a es Hex Hlist)
    as (ls & m & l & hd & tl & cs & Hinv & Ha & Hl & Hrep & _ & -> & _).
  pose proof Hrep as [Hrl _].
  pose proof (rl_data _ _ _ _ _ Hrl) as Hd.
  pose proof (rl_count _ _ _ _ _ Hrl) as Hec.
  pose proof (entries_nil_iff _ _ Hd) as Hnil.
  split_and!.
  - unfold size, bind, get_map. rewrite Ha. unfold ret.
    by rewrite Hec, (entries_length _ _ Hd).
  - unfold empty, bind, get_map. rewrite Ha. unfold ret. do 2 f_equal.
    apply bool_decide_ext. rewrite Hec, Hnil. destruct l; simpl; [done|].
    split; [lia|done].
  - destruct (begin_spec w a m hd tl l cs Ha Hrep) as (c & Hc & Hb).
    exists (mkIt (Some c) (Some a)), (mkIt (Some tl) (Some a)).
    split; [done|]. split; [by eapply end_spec|].
    unfold iter_eq. cbn [node map]. rewrite (bool_decide_eq_true_2 (Some a = Some a)) by done.
    rewrite andb_true_r. apply bool_decide_ext. rewrite Hnil.
    pose proof (rl_nodup _ _ _ _ _ Hrl) as Hnd. apply NoDup_cons in Hnd as [_ Hnd].
    split.
    + intros [= ->]. apply (snoc_lookup_tail l tl 0 Hnd) in Hc.
      symmetry in Hc. by apply nil_length_inv.
    + intros ->. simpl in Hc. by injection Hc as ->.
Qed.

(** X2. In every reachable state a traversal never meets the same key
    twice. *)
Theorem iteration_has_no_duplicate_key
    (ops : list op) (w : world) (a : mref) (es : list value_type) :
  exec ops init_world = Some w -> to_list a w = Ok es w -> NoDup es.*1.
Proof.
  intros Hex Hlist.
  destruct (reachable_listing ops w a es Hex Hlist)
    as (ls & m & l & hd & tl & cs & Hinv & Ha & Hl & [Hrl _] & _ & -> & _).
  apply entries_keys_NoDup.
  - pose proof (rl_nodup _ _ _ _ _ Hrl) as Hnd. apply NoDup_cons in Hnd as [_ Hnd].
    by apply NoDup_app in Hnd as (? & _).
  - apply (rl_data _ _ _ _ _ Hrl).
  - apply (rl_keys _ _ _ _ _ Hrl).
Qed.

(** X3. In every reachable state [count(k)] is 1 when a traversal meets
    the key [k] and 0 otherwise, and [find(k)] differs from [end()] in
    exactly the first case; the state is unchanged. *)
Theorem count_is_membership
    (ops : list op) (w : world) (a : mref) (es : list value_type) (k : Key) :
  exec ops init_world = Some w -> to_list a w = Ok es w ->
  count a k w = Ok (if bool_decide (k ∈ es.*1) then 1 else 0)%N w /\
  exists p e, find a k w = Ok p w /\ end_ a w = Ok e w /\
    iter_neq p e = bool_decide (k ∈ es.*1).
Proof.
  intros Hex Hlist.
  destruct (reachable_listing ops w a es Hex Hlist)
    as (ls & m & l & hd & tl & cs & Hinv & Ha & Hl & Hrep & _ & -> & _).
  pose proof Hrep as [Hrl _].
  pose proof (rl_data _ _ _ _ _ Hrl) as Hd.
  pose proof (end_spec w a m hd tl l cs Ha Hrep) as Hend.
  destruct (bool_decide (k ∈ (entries (nodes w) l).*1)) eqn:Hk.
  - apply bool_decide_eq_true in Hk. apply (entries_keys _ _ _ Hd) in Hk as (x & Hx & Hkx).
    split.
    + unfold count. by rewrite (bind_Ok _ _ _ _ _ (find_node_unique _ _ _ _ _ _ _ _ _ Ha Hrep Hx Hkx)).
    + exists (mkIt (Some x) (Some a)), (mkIt (Some tl) (Some a)).
      split; [by eapply find_present|]. split; [done|].
      unfold iter_neq, iter_eq. cbn [node map].
      rewrite bool_decide_eq_false_2; [done|]. intros [= ->].
      pose proof (rl_nodup _ _ _ _ _ Hrl) as Hnd. apply NoDup_cons in Hnd as [_ Hnd].
      apply NoDup_app in Hnd as (_ & Hdisj & _). apply (Hdisj tl Hx).
      by apply list_elem_of_singleton.
  - apply bool_decide_eq_false in Hk.
    assert (forall x, x ∈ l -> key_of (nodes w) x <> Some k) as Hno.
    { intros x Hx Hkx. apply Hk, (entries_keys _ _ _ Hd). by exists x. }
    split.
    + unfold count. by rewrite (bind_Ok _ _ _ _ _ (find_node_absent _ _ _ _ _ _ _ _ Ha Hrep Hno)).
    + exists (mkIt (Some tl) (Some a)), (mkIt (Some tl) (Some a)).
      split; [by eapply find_absent|]. split; [done|].
      unfold iter_neq, iter_eq. cbn [node map].
      by rewrite !bool_decide_eq_true_2.
Qed.

Lemma read_ref_entry w x k v :
  entry_of (nodes w) x = Some (k, v) -> read_ref (Some x) w = Ok v w.
Proof.
  intros He. apply entry_of_Some in He as (n & Hn & Hd). unfold read_ref.
  mstep deref_Ok. by mstep deref_data_Ok.
Qed.

Lemma star_fld_same w w' y p :
  fld data (nodes w') y = fld data (nodes w) y ->
  star (mkIt (Some y) p) w' = in_world w' (star (mkIt (Some y) p) w).
Proof.
  intros Hd. unfold star, bind, deref. cbn [node]. unfold fld in Hd.
  destruct (nodes w' !! y) as [n'|], (nodes w !! y) as [n|]; simpl in *; simplify_eq;
    try done.
  unfold deref_data. rewrite Hd. by destruct (data n).
Qed.

Lemma to_list_missing w b : maps w !! b = None -> to_list b w = Undef.
Proof. intros Hb. unfold to_list, begin, bind, get_map. by rewrite Hb. Qed.

(** A container whose node list and entries are the same in two
    well-formed worlds iterates to the same list in both. *)
Lemma to_list_same_entries w w' ls ls' b :
  winv w ls -> winv w' ls' -> ls' !! b = ls !! b ->
  (forall lb, ls !! b = Some lb -> entries (nodes w') lb = entries (nodes w) lb) ->
  to_list b w' = in_world w' (to_list b w).
Proof.
  intros Hinv Hinv' Hls Hent. destruct (ls !! b) as [lb|] eqn:Hlb.
  - assert (is_Some (maps w !! b)) as [m Hm].
    { apply lookup_lt_is_Some. rewrite <- (winv_len _ _ Hinv). by eapply lookup_lt_Some. }
    assert (is_Some (maps w' !! b)) as [m' Hm'].
    { apply lookup_lt_is_Some. rewrite <- (winv_len _ _ Hinv'). by eapply lookup_lt_Some. }
    rewrite (to_list_winv w ls b m lb Hinv Hm Hlb).
    rewrite (to_list_winv w' ls' b m' lb Hinv' Hm' Hls). simpl.
    by rewrite (Hent lb).
  - rewrite !to_list_missing; [done| |].
    + apply lookup_ge_None. rewrite <- (winv_len _ _ Hinv). by apply lookup_ge_None.
    + apply lookup_ge_None. rewrite <- (winv_len _ _ Hinv'). by apply lookup_ge_None.
Qed.

(** X4. In a reachable state, the mutable [operator[]] on a container that
    can still grow returns a reference in every case.  For a key that is
    present the state is unchanged and the reference reads the stored
    value.  For a key that is absent an entry with the value-initialised
    [T()] is appended at the back of the iteration order, the size grows by
    one, and the reference reads [T()]. *)
Theorem index_finds_or_inserts_default
    (ops : list op) (w : world) (a : mref) (m : linked_hashmap)
    (es : list value_type) (k : Key) :
  exec ops init_world = Some w -> maps w !! a = Some m -> ~ full m ->
  to_list a w = Ok es w ->
  exists r w', index a k w = Ok r w' /\
    (forall v, (k, v) ∈ es -> w' = w /\ read_ref r w = Ok v w) /\
    ((k ∉ es.*1) ->
       read_ref r w' = Ok default_T w' /\
       to_list a w' = Ok (es ++ [(k, default_T)]) w' /\
       size a w' = Ok (N.of_nat (S (length es))) w').
Proof.
  intros Hex Ha Hfull Hlist.
  destruct (reachable_listing ops w a es Hex Hlist)
    as (ls & m0 & l & hd & tl & cs & Hinv & Ha0 & Hl & Hrep & _ & -> & _).
  rewrite Ha in Ha0. injection Ha0 as <-.
  pose proof Hrep as [Hrl _]. pose proof (rl_data _ _ _ _ _ Hrl) as Hd.
  destruct (has_key k (entries (nodes w) l)) eqn:Hk.
  - apply (has_key_true _ _ _ Hd) in Hk as (x & Hx & Hkx).
    exists (Some x), w. split; [by eapply index_present|]. split.
    + intros v (y & Hy & He)%entries_elem_inv. split; [done|].
      assert (key_of (nodes w) y = Some k) as Hky by (apply key_of_Some; by exists v).
      rewrite (rl_keys _ _ _ _ _ Hrl x y k Hx Hy Hkx Hky). by eapply read_ref_entry.
    + intros Hno. exfalso. apply Hno, (entries_keys _ _ _ Hd). by exists x.
  - destruct (index_absent w ls a m l k Hinv Ha Hl Hk Hfull)
      as (w' & m' & Hidx & _ & Hinv' & Hmaps & Hent & He & _).
    exists (Some (next_loc w)), w'. split; [done|]. split.
    + intros v Hv. exfalso. unfold has_key in Hk. apply bool_decide_eq_false in Hk.
      apply Hk. apply list_elem_of_fmap. by exists (k, v).
    + intros _.
      assert (maps w' !! a = Some m') as Ha'.
      { rewrite Hmaps. apply list_lookup_insert_eq. by eapply lookup_lt_Some. }
      assert (<[a := l ++ [next_loc w]]> ls !! a = Some (l ++ [next_loc w])) as Hl'.
      { apply list_lookup_insert_eq. by eapply lookup_lt_Some. }
      destruct (winv_rep _ _ Hinv' a m' _ Ha' Hl') as [(hd' & tl' & cs' & [Hrl' _]) _].
      split_and!.
      * by eapply read_ref_entry.
      * rewrite <- Hent. by eapply to_list_winv.
      * unfold size, bind, get_map. rewrite Ha'. unfold ret.
        rewrite (rl_count _ _ _ _ _ Hrl'), length_app, (entries_length _ _ Hd).
        simpl. do 2 f_equal. lia.
Qed.

Lemma write_ref_Ok w x n k v0 v :
  nodes w !! x = Some n -> data n = Some (k, v0) ->
  write_ref (Some x) v w =
    Ok tt (mkWorld (<[x := set_second v n]> (nodes w)) (next_loc w) (maps w)).
Proof.
  intros Hn Hd. unfold write_ref. mstep deref_Ok. mstep deref_data_Ok.
  by apply store_Ok.
Qed.

Lemma m_write_keys k v (es : list value_type) : (m_write k v es).*1 = es.*1.
Proof.
  unfold m_write. induction es as [|e es IH]; [done|].
  rewrite !fmap_cons, IH. f_equal. by destruct (decide (e.1 = k)).
Qed.

(** X5. In a reachable state, assigning through the reference that [at]
    returns for a present key replaces the value of that one entry: the
    reference and [at] then read the new value, the traversal has the same
    keys in the same order with only that value changed, and the other
    containers iterate as before. *)
Theorem at_reference_writes_one_value
    (ops : list op) (w : world) (a : mref) (es : list value_type)
    (k : Key) (v0 v : T) :
  exec ops init_world = Some w -> to_list a w = Ok es w -> (k, v0) ∈ es ->
  exists r w', at_ a k w = Ok r w /\ write_ref r v w = Ok tt w' /\
    read_ref r w' = Ok v w' /\ at_ a k w' = Ok r w' /\
    to_list a w' = Ok (m_write k v es) w' /\
    (m_write k v es).*1 = es.*1 /\
    (forall k1 v1, k1 <> k -> (k1, v1) ∈ m_write k v es <-> (k1, v1) ∈ es) /\
    (forall b, b <> a -> to_list b w' = in_world w' (to_list b w)).
Proof.
  intros Hex Hlist Hin.
  destruct (reachable_listing ops w a es Hex Hlist)
    as (ls & m & l & hd & tl & cs & Hinv & Ha & Hl & Hrep & _ & -> & _).
  pose proof Hrep as [Hrl _].
  apply entries_elem_inv in Hin as (x & Hx & He).
  assert (key_of (nodes w) x = Some k) as Hkx by (apply key_of_Some; by exists v0).
  destruct (write_ref_winv w ls a m l x k v0 v Hinv Ha Hl Hx He)
    as (w' & Hwr & Hinv' & Hmaps & _ & Hent).
  pose proof He as (n & Hn & Hd)%entry_of_Some.
  pose proof Hwr as Hwr'. rewrite (write_ref_Ok w x n k v0 v Hn Hd) in Hwr'.
  assert (entry_of (nodes w') x = Some (k, v)) as He'.
  { injection Hwr' as <-. unfold entry_of. cbn [nodes]. rewrite lookup_insert_eq.
    unfold set_second. cbn [data]. by rewrite Hd. }
  assert (maps w' !! a = Some m) as Ha' by by rewrite Hmaps.
  destruct (winv_rep _ _ Hinv' a m l Ha' Hl) as [(hd' & tl' & cs' & Hrep') _].
  assert (forall b lb, ls !! b = Some lb ->
            entries (nodes w') lb =
              if decide (b = a) then m_write k v (entries (nodes w) l)
              else entries (nodes w) lb) as Hlook.
  { intros b lb Hlb. apply (f_equal (.!! b)) in Hent.
    rewrite list_lookup_fmap, Hlb in Hent. simpl in Hent.
    destruct (decide (b = a)) as [->|Hne].
    - rewrite list_lookup_insert_eq in Hent
        by (rewrite length_fmap; by eapply lookup_lt_Some).
      by injection Hent.
    - rewrite list_lookup_insert_ne, list_lookup_fmap, Hlb in Hent by done.
      by injection Hent. }
  exists (Some x), w'. split_and!.
  - by eapply at_present.
  - done.
  - by eapply read_ref_entry.
  - eapply at_present; [done|done|done|]. apply key_of_Some. by exists v.
  - rewrite (to_list_winv w' ls a m l Hinv' Ha' Hl), (Hlook a l Hl).
    by rewrite decide_True.
  - apply m_write_keys.
  - intros k1 v1 Hne. unfold m_write. rewrite list_elem_of_fmap. split.
    + intros ([k2 v2] & Heq & Hin). cbn [fst] in Heq.
      destruct (decide (k2 = k)) as [->|Hne2]; by simplify_eq.
    + intros Hin. exists (k1, v1). cbn [fst]. by rewrite decide_False.
  - intros b Hne. apply (to_list_same_entries w w' ls ls); try done.
    intros lb Hlb. rewrite (Hlook b lb Hlb). by rewrite decide_False.
Qed.

Lemma star_Ok_inv w q kv w' :
  star q w = Ok kv w' ->
  exists y, node q = Some y /\ entry_of (nodes w) y = Some kv /\ w' = w.
Proof.
  unfold star, bind, deref. destruct (node q) as [y|]; [|done].
  destruct (nodes w !! y) as [n|] eqn:Hn; [|done].
  unfold deref_data. destruct (data n) as [e|] eqn:Hd; [|done].
  unfold ret. intros [= -> ->]. exists y. unfold entry_of. by rewrite Hn.
Qed.

(** X6. In a reachable state, [erase] at a position of the container that
    can be dereferenced removes exactly the entry there: the traversal
    loses that one entry and keeps the others in order, the size drops by
    one, the bucket count stays, the erased position dangles, every other
    position still reads the entry it read before, and the other
    containers iterate as before. *)
Theorem erase_removes_one_entry
    (ops : list op) (w : world) (a : mref) (es : list value_type)
    (e : pos_expr) (p : iterator) (kv : value_type) :
  exec ops init_world = Some w -> to_list a w = Ok es w ->
  eval_pos e w = Ok p w -> map p = Some a -> star p w = Ok kv w ->
  exists i w' m m', es !! i = Some kv /\
    erase a p w = Ok tt w' /\
    to_list a w' = Ok (delete i es) w' /\
    size a w' = Ok (N.of_nat (length es - 1)) w' /\
    maps w !! a = Some m /\ maps w' !! a = Some m' /\
    bucket_count m' = bucket_count m /\
    star p w' = Undef /\
    (forall q kv', node q <> node p -> star q w = Ok kv' w -> star q w' = Ok kv' w') /\
    (forall b, b <> a -> to_list b w' = in_world w' (to_list b w)).
Proof.
  intros Hex Hlist Hev Hmap Hstar.
  destruct (reachable_listing ops w a es Hex Hlist)
    as (ls & m & l & hd & tl & cs & Hinv & Ha & Hl & Hrep & _ & -> & _).
  pose proof Hrep as [Hrl _]. pose proof (rl_data _ _ _ _ _ Hrl) as Hd.
  destruct (position_cases w ls e p Hinv Hev)
    as [->|(a0 & m0 & l0 & hd0 & tl0 & cs0 & i & x & Ha0 & Hl0 & Hrep0 & Hi & -> & Hcase)];
    [done|].
  cbn [map] in Hmap. injection Hmap as ->.
  rewrite Ha in Ha0. injection Ha0 as <-. rewrite Hl in Hl0. injection Hl0 as <-.
  apply star_Ok_inv in Hstar as (y & Hy & He & _). cbn [node] in Hy. injection Hy as <-.
  destruct Hcase as [[_ ->]|(Hlt & Hix & _)].
  { pose proof Hrep0 as [Hrl0 _]. rewrite (rl_data_tl _ _ _ _ _ Hrl0) in He. done. }
  destruct (erase_winv w ls a m l i x Hinv Ha Hl Hix)
    as (w' & m' & Hrun & Hinv' & Hmaps & Hbc & Hec & Hent & Hoth & Hx & Hdt).
  assert (maps w' !! a = Some m') as Ha'.
  { rewrite Hmaps. apply list_lookup_insert_eq. by eapply lookup_lt_Some. }
  assert (<[a := delete i l]> ls !! a = Some (delete i l)) as Hl'.
  { apply list_lookup_insert_eq. by eapply lookup_lt_Some. }
  exists i, w', m, m'. split_and!; try done.
  - etrans; [apply (entries_lookup _ _ _ _ Hd Hix)|done].
  - rewrite <- Hent. by eapply to_list_winv.
  - unfold size, bind, get_map. rewrite Ha'. unfold ret. do 2 f_equal.
    rewrite (rl_count _ _ _ _ _ Hrl) in Hec. rewrite (entries_length _ _ Hd). lia.
  - unfold star, bind, deref. cbn [node]. by rewrite Hx.
  - intros [nq mq] kv' Hne Hq. cbn [node] in Hne.
    pose proof Hq as (y & Hy & _ & _)%star_Ok_inv. cbn [node] in Hy. subst nq.
    rewrite (star_fld_same w w' y mq), Hq; [done|]. apply Hdt. congruence.
  - intros b Hne. apply (to_list_same_entries w w' ls (<[a := delete i l]> ls)); try done.
    + by rewrite list_lookup_insert_ne.
    + intros lb Hlb. by apply (Hoth b).
Qed.


(** X8. In a reachable state, stepping a position forward and then back,
    or back and then forward, returns to the position started from,
    whenever the first step succeeds. *)
Theorem increment_decrement_round_trip
    (ops : list op) (w : world) (e : pos_expr) (p q : iterator) :
  exec ops init_world = Some w -> eval_pos e w = Ok p w ->
  (incr p w = Ok q w -> decr q w = Ok p w) /\
  (decr p w = Ok q w -> incr q w = Ok p w).
Proof.
  intros Hex Hev. destruct (exec_init ops w Hex) as (ls & Hinv & _).
  destruct (position_cases w ls e p Hinv Hev)
    as [->|(a & m & l & hd & tl & cs & i & x & Ha & Hl & Hrep & Hi & -> & _)];
    [by split|].
  split.
  - intros Hincr.
    destruct (incr_spec w a m hd tl l cs i x Ha Hrep Hi)
      as [[_ Hr]|(_ & y & Hy & Hr)]; rewrite Hr in Hincr; [done|].
    injection Hincr as <-.
    destruct (decr_spec w a m hd tl l cs (S i) y Ha Hrep Hy) as (x' & Hx' & Hdecr).
    rewrite Hi in Hx'. by injection Hx' as <-.
  - intros Hdecr.
    pose proof (decr_spec w a m hd tl l cs i x Ha Hrep Hi) as Hd.
    destruct i as [|j]; [by rewrite Hd in Hdecr|].
    destruct Hd as (y & Hy & Hr). rewrite Hr in Hdecr. injection Hdecr as <-.
    destruct (incr_spec w a m hd tl l cs j y Ha Hrep Hy)
      as [[Hlen _]|(_ & x' & Hx' & Hincr)].
    + apply lookup_lt_Some in Hi. rewrite length_app in Hi. simpl in Hi. lia.
    + rewrite Hi in Hx'. by injection Hx' as <-.
Qed.

Lemma iterate_back_spec w a m hd tl l cs c :
  maps w !! a = Some m -> rep (nodes w) m hd tl l cs ->
  (l ++ [tl]) !! 0 = Some c ->
  forall j fuel x,
    (l ++ [tl]) !! j = Some x -> j < fuel ->
    iterate_back fuel (mkIt (Some x) (Some a)) (mkIt (Some c) (Some a)) w =
      Ok (reverse (entries (nodes w) (take j l))) w.
Proof.
  intros Ha Hrep Hc. pose proof Hrep as [Hrl _].
  pose proof (rl_nodup _ _ _ _ _ Hrl) as Hnd. apply NoDup_cons in Hnd as [_ Hnd].
  induction j as [|j IH]; intros fuel x Hx Hfuel;
    (destruct fuel as [|fuel]; [lia|]); cbn [iterate_back].
  - rewrite Hc in Hx. injection Hx as <-.
    unfold iter_neq, iter_eq. simpl. by rewrite !bool_decide_eq_true_2.
  - assert (x <> c) as Hne.
    { intros ->. by pose proof (NoDup_lookup _ _ _ _ Hnd Hx Hc). }
    unfold iter_neq, iter_eq. cbn [node map].
    rewrite bool_decide_eq_false_2 by congruence. cbn [andb negb].
    destruct (decr_spec w a m hd tl l cs (S j) x Ha Hrep Hx) as (y & Hy & Hdecr).
    rewrite (bind_Ok _ _ _ _ _ Hdecr).
    assert (j < length l) as Hj.
    { apply lookup_lt_Some in Hx. rewrite length_app in Hx. simpl in Hx. lia. }
    assert (l !! j = Some y) as Hly by (by rewrite lookup_app_l in Hy).
    destruct (rl_data _ _ _ _ _ Hrl y) as [kv He]; [by eapply list_elem_of_lookup_2|].
    rewrite (bind_Ok _ _ _ _ _ (star_Ok w y kv He (Some a))).
    rewrite (bind_Ok _ _ _ _ _ (IH fuel y Hy ltac:(lia))). unfold ret.
    rewrite (take_S_r _ _ _ Hly), entries_app, (entries_cons_Some _ _ _ _ He).
    change (entries (nodes w) []) with (@nil value_type).
    by rewrite reverse_snoc.
Qed.

(** X9. In a reachable state, walking back from [end()] to [begin()] with
    [operator--] meets the entries of the forward traversal in reverse
    order. *)
Theorem backward_traversal_is_reverse
    (ops : list op) (w : world) (a : mref) (es : list value_type) :
  exec ops init_world = Some w -> to_list a w = Ok es w ->
  to_list_back a w = Ok (reverse es) w.
Proof.
  intros Hex Hlist.
  destruct (reachable_listing ops w a es Hex Hlist)
    as (ls & m & l & hd & tl & cs & Hinv & Ha & Hl & Hrep & _ & -> & _).
  pose proof Hrep as [Hrl _]. unfold to_list_back.
  destruct (begin_spec w a m hd tl l cs Ha Hrep) as (c & Hc & Hb).
  rewrite (bind_Ok _ _ _ _ _ Hb).
  rewrite (bind_Ok _ _ _ _ _ (end_spec w a m hd tl l cs Ha Hrep)).
  unfold get_fuel at 1. unfold bind at 1.
  rewrite (iterate_back_spec w a m hd tl l cs c Ha Hrep Hc (length l) _ tl).
  - by rewrite firstn_all.
  - by apply list_lookup_middle.
  - destruct (rep_list_first _ _ _ _ _ Hrl) as (first & Hf & Hch).
    eapply (chain_fuel next); [exact Hch|].
    pose proof (rl_nodup _ _ _ _ _ Hrl) as Hnd. apply NoDup_cons in Hnd as [_ Hnd].
    by apply NoDup_app in Hnd as (? & _).
Qed.

(** X10. In a reachable state the default constructor returns a new
    container, placed after the existing ones, with sixteen buckets and no
    entry: the traversal is empty and the size is zero.  The containers
    that existed iterate as before. *)
Theorem construct_gives_empty_container (ops : list op) (w : world) :
  exec ops init_world = Some w ->
  exists w' m', construct w = Ok (length (maps w)) w' /\
    maps w' = maps w ++ [m'] /\
    bucket_count m' = INITIAL_BUCKET_COUNT /\
    length (buckets m') = N.to_nat INITIAL_BUCKET_COUNT /\
    to_list (length (maps w)) w' = Ok [] w' /\
    size (length (maps w)) w' = Ok 0%N w' /\
    empty (length (maps w)) w' = Ok true w' /\
    (forall b, b <> length (maps w) -> to_list b w' = in_world w' (to_list b w)).
Proof.
  intros Hex. destruct (exec_init ops w Hex) as (ls & Hinv & _).
  destruct (construct_spec w ls Hinv)
    as (w' & Hrun & Hinv' & Hoth & m' & Hmaps & Hbc & Hec).
  pose proof (winv_len _ _ Hinv) as Hlen.
  assert (maps w' !! length (maps w) = Some m') as Ha'.
  { rewrite Hmaps. by apply list_lookup_middle. }
  assert ((ls ++ [[]]) !! length (maps w) = Some []) as Hl'.
  { rewrite <- Hlen. by apply list_lookup_middle. }
  destruct (winv_rep _ _ Hinv' _ m' [] Ha' Hl') as [(hd & tl & cs & [Hrl Hri]) _].
  exists w', m'. split_and!; try done.
  - rewrite (ri_bc _ _ _ _ Hri) in Hbc. rewrite <- Hbc. lia.
  - by rewrite (to_list_winv w' _ _ m' [] Hinv' Ha' Hl').
  - unfold size, bind, get_map. rewrite Ha'. unfold ret. by rewrite Hec.
  - unfold empty, bind, get_map. rewrite Ha'. unfold ret. by rewrite Hec.
  - intros b Hne. apply (to_list_same_entries w w' ls (ls ++ [[]])); try done.
    + destruct (decide (b < length ls)) as [Hlt|Hge].
      * by rewrite lookup_app_l.
      * rewrite !(proj2 (lookup_ge_None _ _)); [done|lia|].
        rewrite length_app. simpl. lia.
    + intros lb Hlb. by apply (Hoth b).
Qed.

(** X11. In a reachable state [clear()] returns normally and leaves the
    container empty on the same sentinels and the same number of buckets:
    the traversal is empty and the size is zero.  Every node of its order
    list is freed, so a position that could be dereferenced before
    dangles afterwards; the other containers iterate as before. *)
Theorem clear_empties_container
    (ops : list op) (w : world) (a : mref) (m : linked_hashmap)
    (es : list value_type) :
  exec ops init_world = Some w -> maps w !! a = Some m -> to_list a w = Ok es w ->
  exists w' m' la, clear a w = Ok tt w' /\ maps w' !! a = Some m' /\
    head m' = head m /\ tail m' = tail m /\ bucket_count m' = bucket_count m /\
    to_list a w' = Ok [] w' /\ size a w' = Ok 0%N w' /\ empty a w' = Ok true w' /\
    order_nodes w a = Some la /\ order_nodes w' a = Some [] /\
    (forall x, x ∈ la -> nodes w' !! x = None) /\
    (forall e p kv, eval_pos e w = Ok p w -> map p = Some a ->
       star p w = Ok kv w -> star p w' = Undef) /\
    (forall b, b <> a -> to_list b w' = in_world w' (to_list b w)).
Proof.
  intros Hex Ha Hlist.
  destruct (reachable_listing ops w a es Hex Hlist)
    as (ls & m0 & l & hd & tl & cs & Hinv & Ha0 & Hl & Hrep & _ & -> & Hord).
  rewrite Ha in Ha0. injection Ha0 as <-.
  pose proof Hrep as [Hrl _].
  destruct (clear_winv w ls a m l Hinv Ha Hl)
    as (w' & m' & Hrun & Hinv' & Hmaps & Hbc & Hec & Hoth).
  destruct (clear_spec w a m hd tl l cs Ha Hrep)
    as (w2 & m2 & Hrun2 & Hmaps2 & _ & Hhd & Htl & _ & _ & Hrep' & Hfreed & _).
  rewrite Hrun in Hrun2. injection Hrun2 as <-.
  assert (maps w' !! a = Some m') as Ha'.
  { rewrite Hmaps. apply list_lookup_insert_eq. by eapply lookup_lt_Some. }
  assert (m2 = m') as ->.
  { rewrite Hmaps2 in Ha'. rewrite list_lookup_insert_eq in Ha' by by eapply lookup_lt_Some.
    by injection Ha'. }
  assert (<[a := []]> ls !! a = Some []) as Hl'.
  { apply list_lookup_insert_eq. by eapply lookup_lt_Some. }
  exists w', m', l. split_and!; try done.
  - by rewrite (to_list_winv w' _ a m' [] Hinv' Ha' Hl').
  - unfold size, bind, get_map. rewrite Ha'. unfold ret. by rewrite Hec.
  - unfold empty, bind, get_map. rewrite Ha'. unfold ret. by rewrite Hec.
  - eapply order_nodes_spec; [done|apply Hrep'].
  - intros e p kv Hev Hmap Hstar.
    destruct (position_cases w ls e p Hinv Hev)
      as [->|(a0 & m0 & l0 & hd0 & tl0 & cs0 & i & x & Ha0 & Hl0 & Hrep0 & Hi & -> & Hcase)];
      [done|].
    cbn [map] in Hmap. injection Hmap as ->.
    rewrite Hl in Hl0. injection Hl0 as <-.
    apply star_Ok_inv in Hstar as (y & Hy & He & _). cbn [node] in Hy. injection Hy as <-.
    destruct Hcase as [[_ ->]|(_ & Hix & _)].
    { pose proof Hrep0 as [Hrl0 _]. by rewrite (rl_data_tl _ _ _ _ _ Hrl0) in He. }
    unfold star, bind, deref. cbn [node].
    by rewrite (Hfreed x (list_elem_of_lookup_2 _ _ _ Hix)).
  - intros b Hne. apply (to_list_same_entries w w' ls (<[a := []]> ls)); try done.
    + by rewrite list_lookup_insert_ne.
    + intros lb Hlb. by apply (Hoth b).
Qed.


(** X13. In a reachable state, [operator->] on a position a program can
    hold returns the entry that [operator*] yields when the position is
    interior.  On an end position it returns a null pointer, with no
    undefined behaviour of its own, where [operator*] is undefined; on a
    default position it dereferences the null node pointer.  It never
    throws and never changes the state. *)
Theorem arrow_returns_entry_or_null
    (ops : list op) (w : world) (e : pos_expr) (p : iterator) :
  exec ops init_world = Some w -> eval_pos e w = Ok p w ->
  match arrow p w with
  | Ok (Some kv) w' => w' = w /\ star p w = Ok kv w
  | Ok None w' => w' = w /\ (exists b, end_ b w = Ok p w) /\ star p w = Undef
  | Undef => p = default_iterator
  | Raise _ _ => False
  | Timeout => False
  end.
Proof.
  intros Hex Hev. destruct (exec_init ops w Hex) as (ls & Hinv & _).
  destruct (position_cases w ls e p Hinv Hev)
    as [->|(a & m & l & hd & tl & cs & i & x & Ha & Hl & Hrep & Hi & -> & Hcase)];
    [done|].
  pose proof Hrep as [Hrl _]. unfold arrow, bind, deref. cbn [node].
  destruct Hcase as [[_ ->]|(_ & Hix & _)].
  - pose proof (rl_data_tl _ _ _ _ _ Hrl) as Hd.
    destruct (rep_list_live _ _ _ _ _ tl Hrl) as [n Hn].
    { right. apply elem_of_app. right. by left. }
    unfold entry_of in Hd. rewrite Hn in Hd. rewrite Hn. unfold ret. rewrite Hd.
    split; [done|]. split.
    + exists a. by eapply end_spec.
    + apply star_no_entry; [by rewrite Hn|]. unfold entry_of. by rewrite Hn.
  - destruct (rl_data _ _ _ _ _ Hrl x) as [kv He]; [by eapply list_elem_of_lookup_2|].
    pose proof He as (n & Hn & Hd)%entry_of_Some. rewrite Hn. unfold ret. rewrite Hd.
    split; [done|]. by apply star_Ok.
Qed.

(** X14. Whatever calls a client program makes (constructions, copies,
    assignments, insertions, erasures, [clear], [operator[]] and [at]
    with assignment, with exceptions caught), if it runs to the end then
    there are as many containers as the abstract list model holds, and
    every container iterates to exactly the list the model holds for
    it. *)
Theorem program_refines_list_model (ops : list op) (w : world) :
  exec ops init_world = Some w ->
  length (m_exec ops []) = length (maps w) /\
  forall a, a < length (maps w) -> to_list a w = Ok (m_exec ops [] !!! a) w.
Proof.
  intros Hex. destruct (exec_init ops w Hex) as (ls & Hinv & Hent).
  pose proof (winv_len _ _ Hinv) as Hlen. split.
  - by rewrite <- Hent, length_fmap.
  - intros a Ha.
    destruct (lookup_lt_is_Some_2 ls a) as [l Hl]; [lia|].
    destruct (lookup_lt_is_Some_2 (maps w) a Ha) as [m Hm].
    rewrite (to_list_winv w ls a m l Hinv Hm Hl). f_equal.
    rewrite <- Hent. symmetry. apply list_lookup_total_correct.
    by rewrite list_lookup_fmap, Hl.
Qed.

Lemma exec_stops w : forall ops ls,
  winv w ls -> exec ops w = None ->
  exists ops1 o ops2 w1, ops = ops1 ++ o :: ops2 /\
    exec ops1 w = Some w1 /\ undefined_call w1 o.
Proof.
  intros ops. revert w. induction ops as [|o ops IH]; intros w ls Hinv Hex; [done|].
  cbn [exec] in Hex. pose proof (run_op_sim o w ls Hinv) as Hstep.
  assert (forall w0, (exists ls0, winv w0 ls0 /\
             entries (nodes w0) <$> ls0 = m_step o (entries (nodes w) <$> ls)) ->
           exec ops w0 = None ->
           forall r, (r = Ok tt w0 \/ exists ex, r = Raise ex w0) -> run_op o w = r ->
           exists ops1 o' ops2 w1, o :: ops = ops1 ++ o' :: ops2 /\
             exec ops1 w = Some w1 /\ undefined_call w1 o') as Hnext.
  { intros w0 (ls0 & Hinv0 & _) Hex0 r Hr Hrun.
    destruct (IH w0 ls0 Hinv0 Hex0) as (ops1 & o' & ops2 & w1 & -> & Hex1 & Hund).
    exists (o :: ops1), o', ops2, w1. split; [done|]. split; [|done].
    cbn [exec]. rewrite Hrun. by destruct Hr as [->|[ex ->]]. }
  destruct (run_op o w) as [[] w0|ex w0| |] eqn:Hrun.
  - eapply Hnext; [done|done| |done]. by left.
  - eapply Hnext; [done|done| |done]. right. by exists ex.
  - by exists [], o, ops, w.
  - done.
Qed.

(** X15. A client program stops short only at a call that names a
    container that does not exist, or that inserts into a container whose
    bucket count cannot be doubled any more: up to that call it ran
    normally.  No other call dereferences a null or dangling pointer,
    divides by a zero bucket count, or fails to terminate. *)
Theorem program_stops_only_at_undefined_call (ops : list op) :
  exec ops init_world = None ->
  exists ops1 o ops2 w1, ops = ops1 ++ o :: ops2 /\
    exec ops1 init_world = Some w1 /\ undefined_call w1 o.
Proof. intros Hex. by apply (exec_stops init_world ops [] winv_init). Qed.

Lemma erase_outcome w ls a m l it p :
  winv w ls -> maps w !! a = Some m -> ls !! a = Some l -> pos_rel w ls it p ->
  (exists w', erase a it w = Ok tt w') \/ erase a it w = Raise invalid_iterator w.
Proof.
  intros Hinv Ha Hl Hrel.
  destruct (winv_rep _ _ Hinv a m l Ha Hl) as [(hd & tl & cs & [Hrl _]) _].
  destruct p as [|b i]; simpl in Hrel.
  - subst it. right. by eapply erase_raise; [|left].
  - destruct Hrel as (mb & lb & tlb & x & Hb & Hlb & Htlb & Hi & ->).
    destruct (decide (b = a)) as [->|Hne].
    + rewrite Ha in Hb. injection Hb as <-. rewrite Hl in Hlb. injection Hlb as <-.
      apply lookup_snoc_Some in Hi as [[Hlt Hi]|[-> <-]].
      * destruct (erase_winv w ls a m l i x Hinv Ha Hl Hi) as (w' & m' & Hrun & _).
        left. by exists w'.
      * right. eapply erase_raise; [done|]. right. by left.
    + right. eapply erase_raise; [done|]. left. simpl. congruence.
Qed.

(** X16. In a reachable state, a call that throws leaves the whole program
    state exactly as it was.  Only [erase] throws [invalid_iterator]
    (also when the evaluation of its position argument throws it) and
    only [at] throws [index_out_of_bound]; construction, copying,
    assignment, [insert], [clear] and the mutable [operator[]] never
    throw. *)
Theorem exceptions_leave_state_unchanged
    (ops : list op) (w : world) (o : op) (ex : exn) (w' : world) :
  exec ops init_world = Some w -> run_op o w = Raise ex w' ->
  w' = w /\
  match o with
  | OErase _ _ => ex = invalid_iterator
  | OAt _ _ _ => ex = index_out_of_bound
  | _ => False
  end.
Proof.
  intros Hex. destruct (exec_init ops w Hex) as (ls & Hinv & _).
  destruct o as [|other|this other|this k v|this e|this|this k v|this k v];
    cbn [run_op]; intros Hrun.
  - destruct (construct_spec w ls Hinv) as (w1 & Hc & _).
    by rewrite (bind_Ok _ _ _ _ _ Hc) in Hrun.
  - destruct (maps w !! other) as [mo|] eqn:Ho.
    + destruct (winv_lookup _ _ _ _ Hinv Ho) as (lo & hd & tl & cs & Hlo & _).
      destruct (copy_construct_spec w ls other mo lo Hinv Ho Hlo) as (w1 & lt & Hc & _).
      by rewrite (bind_Ok _ _ _ _ _ Hc) in Hrun.
    + unfold copy_construct, bind, get_map in Hrun. by rewrite Ho in Hrun.
  - destruct (maps w !! this) as [mt|] eqn:Ht;
      [|unfold assign, bind, get_map in Hrun; by rewrite Ht in Hrun].
    destruct (maps w !! other) as [mo|] eqn:Ho;
      [|unfold assign, bind, get_map in Hrun; by rewrite Ht, Ho in Hrun].
    destruct (winv_lookup _ _ _ _ Hinv Ht) as (lt & ? & ? & ? & Hlt & _).
    destruct (winv_lookup _ _ _ _ Hinv Ho) as (lo & ? & ? & ? & Hlo & _).
    destruct (assign_spec w ls this other mt mo lt lo Hinv Ht Ho Hlt Hlo)
      as (w1 & lt' & Hc & _).
    by rewrite Hc in Hrun.
  - destruct (maps w !! this) as [m|] eqn:Ha;
      [|unfold insert, find_node, bind, get_map in Hrun; by rewrite Ha in Hrun].
    destruct (winv_lookup _ _ _ _ Hinv Ha) as (l & hd & tl & cs & Hl & Hrep & Hsz).
    destruct (has_key k (entries (nodes w) l)) eqn:Hk.
    + destruct (insert_present w ls this m l k v Hinv Ha Hl Hk) as (x & _ & _ & Hc).
      by rewrite (bind_Ok _ _ _ _ _ Hc) in Hrun.
    + destruct (decide (full m)) as [Hfull|Hfull].
      * unfold bind in Hrun.
        by rewrite (insert_absent_full w ls this m l k v Hinv Ha Hl Hk Hfull) in Hrun.
      * destruct (insert_absent w ls this m l k v Hinv Ha Hl Hk Hfull)
          as (w1 & m1 & Hc & _).
        by rewrite (bind_Ok _ _ _ _ _ Hc) in Hrun.
  - pose proof (eval_pos_sim w ls e Hinv) as Hev. unfold bind in Hrun.
    destruct (eval_pos e w) as [it w0|ex0 w0| |]; try done.
    + destruct Hev as [-> (p & Hp & Hrel)].
      destruct (maps w !! this) as [m|] eqn:Ha;
        [|unfold erase, bind, get_map in Hrun; by rewrite Ha in Hrun].
      destruct (winv_lookup _ _ _ _ Hinv Ha) as (l & hd & tl & cs & Hl & _).
      destruct (erase_outcome w ls this m l it p Hinv Ha Hl Hrel) as [[w1 Hc]|Hc];
        rewrite Hc in Hrun; [done|]. by injection Hrun as <- <-.
    + destruct Hev as (-> & -> & _). by injection Hrun as <- <-.
  - destruct (maps w !! this) as [m|] eqn:Ha;
      [|unfold clear, bind, get_map in Hrun; by rewrite Ha in Hrun].
    destruct (winv_lookup _ _ _ _ Hinv Ha) as (l & hd & tl & cs & Hl & _).
    destruct (clear_winv w ls this m l Hinv Ha Hl) as (w1 & m1 & Hc & _).
    by rewrite Hc in Hrun.
  - destruct (maps w !! this) as [m|] eqn:Ha;
      [|unfold index, find_node, bind, get_map in Hrun; by rewrite Ha in Hrun].
    destruct (winv_lookup _ _ _ _ Hinv Ha) as (l & hd & tl & cs & Hl & Hrep & Hsz).
    pose proof Hrep as [Hrl _].
    destruct (has_key k (entries (nodes w) l)) eqn:Hk.
    + apply (has_key_true _ _ _ (rl_data _ _ _ _ _ Hrl)) in Hk as (x & Hx & Hkx).
      rewrite (bind_Ok _ _ _ _ _ (index_present _ _ _ _ _ _ _ _ _ Ha Hrep Hx Hkx)) in Hrun.
      apply key_of_Some in Hkx as (v0 & He).
      destruct (write_ref_winv w ls this m l x k v0 v Hinv Ha Hl Hx He) as (w1 & Hc & _).
      by rewrite Hc in Hrun.
    + destruct (decide (full m)) as [Hfull|Hfull].
      * unfold bind in Hrun.
        by rewrite (index_absent_full w ls this m l k Hinv Ha Hl Hk Hfull) in Hrun.
      * destruct (index_absent w ls this m l k Hinv Ha Hl Hk Hfull)
          as (w1 & m1 & Hc & _ & Hinv1 & Hmaps1 & _ & Hnew & _).
        rewrite (bind_Ok _ _ _ _ _ Hc) in Hrun.
        assert (maps w1 !! this = Some m1) as Ha1.
        { rewrite Hmaps1. apply list_lookup_insert_eq. by eapply lookup_lt_Some. }
        assert (<[this := l ++ [next_loc w]]> ls !! this = Some (l ++ [next_loc w])) as Hl1.
        { apply list_lookup_insert_eq. by eapply lookup_lt_Some. }
        destruct (write_ref_winv w1 _ this m1 _ (next_loc w) k default_T v Hinv1 Ha1 Hl1)
          as (w2 & Hc2 & _); [apply elem_of_app; right; by left|done|].
        by rewrite Hc2 in Hrun.
  - destruct (maps w !! this) as [m|] eqn:Ha;
      [|unfold at_, find_node, bind, get_map in Hrun; by rewrite Ha in Hrun].
    destruct (winv_lookup _ _ _ _ Hinv Ha) as (l & hd & tl & cs & Hl & Hrep & Hsz).
    pose proof Hrep as [Hrl _].
    destruct (has_key k (entries (nodes w) l)) eqn:Hk.
    + apply (has_key_true _ _ _ (rl_data _ _ _ _ _ Hrl)) in Hk as (x & Hx & Hkx).
      rewrite (bind_Ok _ _ _ _ _ (at_present _ _ _ _ _ _ _ _ _ Ha Hrep Hx Hkx)) in Hrun.
      apply key_of_Some in Hkx as (v0 & He).
      destruct (write_ref_winv w ls this m l x k v0 v Hinv Ha Hl Hx He) as (w1 & Hc & _).
      by rewrite Hc in Hrun.
    + pose proof (proj1 (has_key_false _ _ k (rl_data _ _ _ _ _ Hrl)) Hk) as Hno.
      rewrite (bind_Raise _ _ _ _ _ (at_absent _ _ _ _ _ _ _ _ Ha Hrep Hno)) in Hrun.
      by injection Hrun as <- <-.
Qed.

(** X17. In a reachable state the destructor returns normally: it frees
    every node the container owns, the two sentinels included, and no
    other node; nothing is allocated, and every other container keeps
    its record and iterates as before. *)
Theorem destroy_frees_own_nodes
    (ops : list op) (w : world) (a : mref) (m : linked_hashmap)
    (es : list value_type) :
  exec ops init_world = Some w -> maps w !! a = Some m -> to_list a w = Ok es w ->
  exists w' la, destroy a w = Ok tt w' /\ order_nodes w a = Some la /\
    (forall x, owns m la x -> nodes w' !! x = None) /\
    (forall x, ~ owns m la x -> nodes w' !! x = nodes w !! x) /\
    next_loc w' = next_loc w /\
    (forall b, b <> a ->
       maps w' !! b = maps w !! b /\ to_list b w' = in_world w' (to_list b w)).
Proof.
  intros Hex Ha Hlist.
  destruct (reachable_listing ops w a es Hex Hlist)
    as (ls & m0 & l & hd & tl & cs & Hinv & Ha0 & Hl & Hrep & _ & -> & Hord).
  rewrite Ha in Ha0. injection Ha0 as <-.
  pose proof Hrep as [Hrl _].
  destruct (clear_spec w a m hd tl l cs Ha Hrep)
    as (w1 & m1 & Hclear & Hmaps & Hnl & Hhd & Htl & _ & _ & [Hrl1 _] & Hfreed & _ & Hframe).
  assert (maps w1 !! a = Some m1) as Ha1.
  { rewrite Hmaps. apply list_lookup_insert_eq. by eapply lookup_lt_Some. }
  assert (hd <> tl) as Hne.
  { pose proof (rl_nodup _ _ _ _ _ Hrl) as Hnd. apply NoDup_cons in Hnd as [Hhdn _].
    intros ->. apply Hhdn, elem_of_app. right. by left. }
  destruct (rep_list_live _ _ _ _ _ hd Hrl1) as [nh Hnh]; [by left|].
  destruct (rep_list_live _ _ _ _ _ tl Hrl1) as [nt Hnt]; [right; by left|].
  pose (w' := mkWorld (delete tl (delete hd (nodes w1))) (next_loc w1)
                      (<[a := set_buckets [] m1]> (maps w1))).
  assert (destroy a w = Ok tt w') as Hrun.
  { unfold destroy. rewrite (bind_Ok _ _ _ _ _ Hclear).
    rewrite (bind_Ok _ _ _ _ _ (get_map_Ok _ _ _ Ha1)).
    rewrite (rl_head _ _ _ _ _ Hrl1), (rl_tail _ _ _ _ _ Hrl1).
    rewrite (bind_Ok _ _ _ _ _ (delete_Node_Ok _ _ _ Hnh)).
    erewrite bind_Ok; [|apply (delete_Node_Ok _ tl nt); cbn [nodes];
                         by rewrite lookup_delete_ne].
    erewrite put_map_Ok; [done|cbn [maps]; exact Ha1]. }
  assert (forall x, owns m l x <-> x = hd \/ x = tl \/ x ∈ l) as Howns.
  { intros x. rewrite (owns_iff _ _ _ _ _ x Hrl), elem_of_cons, elem_of_app,
      list_elem_of_singleton. tauto. }
  exists w', l. split_and!; try done.
  - intros x Hx. apply Howns in Hx. subst w'. cbn [nodes].
    destruct (decide (x = tl)) as [->|Hxt]; [by rewrite lookup_delete_eq|].
    rewrite lookup_delete_ne by done.
    destruct (decide (x = hd)) as [->|Hxh]; [by rewrite lookup_delete_eq|].
    rewrite lookup_delete_ne by done. apply Hfreed. tauto.
  - intros x Hx. rewrite Howns in Hx. subst w'. cbn [nodes].
    rewrite !lookup_delete_ne by (intros <-; tauto). apply Hframe.
    rewrite elem_of_cons, elem_of_app, list_elem_of_singleton. tauto.
  - intros b Hb.
    assert (maps w' !! b = maps w !! b) as Hmb.
    { subst w'. cbn [maps]. by rewrite Hmaps, !list_lookup_insert_ne. }
    split; [done|]. destruct (maps w !! b) as [mb|] eqn:Hmb0.
    + destruct (winv_lookup _ _ _ _ Hinv Hmb0) as (lb & hdb & tlb & csb & Hlb & Hrepb & _).
      assert (forall z, z ∈ hdb :: lb ++ [tlb] -> nodes w' !! z = nodes w !! z) as Hsame.
      { intros z Hz.
        assert (~ owns m l z) as Hno.
        { intros Hown. apply (winv_disj _ _ Hinv b a mb m lb l z Hb Hmb0 Ha Hlb Hl);
            [|done]. by apply (owns_iff _ _ _ _ _ _ (proj1 Hrepb)). }
        rewrite Howns in Hno. subst w'. cbn [nodes].
        rewrite !lookup_delete_ne by (intros <-; tauto). apply Hframe.
        rewrite elem_of_cons, elem_of_app, list_elem_of_singleton. tauto. }
      rewrite (to_list_spec w b mb hdb tlb lb csb Hmb0 Hrepb).
      rewrite (to_list_spec w' b mb hdb tlb lb csb Hmb (rep_frame _ _ _ _ _ _ _ Hrepb Hsame)).
      simpl. f_equal. apply entries_ext. intros z Hz. unfold fld.
      rewrite Hsame; [done|]. right. apply elem_of_app. by left.
    + by rewrite !to_list_missing.
Qed.

Lemma bucket_walk_spec h c : forall fuel p,
  chain (fld hash_next h) p c None -> length c < fuel ->
  bucket_walk fuel h p = Some c.
Proof.
  induction c as [|x c IH]; intros fuel p Hch Hfuel;
    (destruct fuel as [|fuel]; [simpl in Hfuel; lia|]); cbn [chain] in Hch.
  - by subst p.
  - destruct Hch as (-> & y & Hy & Hch). cbn [bucket_walk].
    unfold fld in Hy. destruct (h !! x) as [n|]; [|done]. simpl in Hy.
    injection Hy as <-. rewrite (IH fuel (hash_next n)); [done|done|].
    simpl in Hfuel. lia.
Qed.

(** X18. In a reachable state the hash index is exact: the collision
    chain of every bucket ends in null, holds no node twice, and holds
    precisely the nodes of the order list whose key hashes to that
    bucket. *)
Theorem hash_index_is_exact
    (ops : list op) (w : world) (a : mref) (m : linked_hashmap) (i : nat) :
  exec ops init_world = Some w -> maps w !! a = Some m ->
  i < length (buckets m) ->
  exists c la, bucket_chain w a i = Some c /\ order_nodes w a = Some la /\
    NoDup c /\
    forall x, x ∈ c <->
      x ∈ la /\ exists k v, entry_of (nodes w) x = Some (k, v) /\
                            (hash_func k mod bucket_count m)%N = N.of_nat i.
Proof.
  intros Hex Ha Hi.
  destruct (reachable_container ops w a m Hex Ha)
    as (ls & l & hd & tl & cs & Hinv & Hl & [Hrl Hri] & _).
  destruct (lookup_lt_is_Some_2 (buckets m) i Hi) as [b Hb].
  destruct (lookup_lt_is_Some_2 cs i) as [c Hc]; [by rewrite (ri_len _ _ _ _ Hri)|].
  pose proof (ri_chain _ _ _ _ Hri i b c Hb Hc) as Hch.
  pose proof (ri_nodup _ _ _ _ Hri i c Hc) as Hnd.
  exists c, l. split_and!; try done.
  - unfold bucket_chain. rewrite Ha, Hb. apply bucket_walk_spec; [done|].
    by eapply (chain_fuel hash_next).
  - by eapply order_nodes_spec.
  - intros x. rewrite (ri_mem _ _ _ _ Hri i c x Hc). split.
    + intros (Hx & k & Hk & Hbk). split; [done|].
      apply key_of_Some in Hk as (v & He). exists k, v. split; [done|].
      unfold bucket_of in Hbk. lia.
    + intros (Hx & k & v & He & Hbk). split; [done|]. exists k. split.
      * apply key_of_Some. by exists v.
      * unfold bucket_of. lia.
Qed.

(** X19. In a reachable state, once [erase] has removed the entry at a
    position, that position is invalid: dereferencing it, stepping it
    either way and erasing it again are all undefined (the node is
    freed), none of them is caught by a check. *)
Theorem erased_position_is_invalidated
    (ops : list op) (w : world) (a : mref)
    (e : pos_expr) (p : iterator) (kv : value_type) (w' : world) :
  exec ops init_world = Some w ->
  eval_pos e w = Ok p w -> map p = Some a -> star p w = Ok kv w ->
  erase a p w = Ok tt w' ->
  star p w' = Undef /\ arrow p w' = Undef /\
  incr p w' = Undef /\ decr p w' = Undef /\
  post_incr p w' = Undef /\ post_decr p w' = Undef /\
  erase a p w' = Undef.
Proof.
  intros Hex Hev Hmap Hstar Herase.
  destruct (exec_init ops w Hex) as (ls & Hinv & _).
  destruct (position_cases w ls e p Hinv Hev)
    as [->|(a0 & m & l & hd & tl & cs & i & x & Ha & Hl & Hrep & Hi & -> & Hcase)];
    [done|].
  cbn [map] in Hmap. injection Hmap as ->. pose proof Hrep as [Hrl _].
  apply star_Ok_inv in Hstar as (y & Hy & He & _). cbn [node] in Hy. injection Hy as <-.
  destruct Hcase as [[_ ->]|(_ & Hix & Hxtl)].
  { by rewrite (rl_data_tl _ _ _ _ _ Hrl) in He. }
  destruct (erase_winv w ls a m l i x Hinv Ha Hl Hix)
    as (w2 & m' & Hrun & Hinv' & Hmaps & _ & _ & _ & _ & Hx & _).
  rewrite Herase in Hrun. injection Hrun as <-.
  assert (maps w' !! a = Some m') as Ha'.
  { rewrite Hmaps. apply list_lookup_insert_eq. by eapply lookup_lt_Some. }
  assert (<[a := delete i l]> ls !! a = Some (delete i l)) as Hl'.
  { apply list_lookup_insert_eq. by eapply lookup_lt_Some. }
  destruct (winv_rep _ _ Hinv' a m' _ Ha' Hl') as [(hd' & tl' & cs' & [Hrl' _]) _].
  assert (x <> tl') as Hxt.
  { intros ->. destruct (rep_list_live _ _ _ _ _ tl' Hrl') as [n Hn];
      [right; apply elem_of_app; right; by left|]. by rewrite Hx in Hn. }
  assert (x <> hd') as Hxh.
  { intros ->. destruct (rep_list_live _ _ _ _ _ hd' Hrl') as [n Hn]; [by left|].
    by rewrite Hx in Hn. }
  pose proof (rl_tail _ _ _ _ _ Hrl') as Htl'.
  pose proof (rl_head _ _ _ _ _ Hrl') as Hhd'.
  split_and!.
  - unfold star, bind, deref. cbn [node]. by rewrite Hx.
  - unfold arrow, bind, deref. cbn [node]. by rewrite Hx.
  - unfold incr, map_of, bind, get_map. cbn [node map]. rewrite Ha', Htl'.
    rewrite decide_False by congruence. unfold load, bind, deref. by rewrite Hx.
  - unfold decr, load, bind, deref. cbn [node]. by rewrite Hx.
  - unfold post_incr, map_of, bind, get_map. cbn [node map]. rewrite Ha', Htl'.
    rewrite decide_False by congruence. unfold load, bind, deref. by rewrite Hx.
  - unfold post_decr, load, bind, deref. cbn [node]. by rewrite Hx.
  - unfold erase, bind, get_map. rewrite Ha'. cbn [node map]. rewrite Htl', Hhd'.
    rewrite decide_False by (intros [?|[?|?]]; congruence).
    unfold load, bind, deref. by rewrite Hx.
Qed.

End linked_hashmap.

(** * The claims on a concrete instance

    Keys and values are numbers, a key hashes to itself, and the default
    value is zero.  The sample program builds one container with the keys
    1, 2, 3 in that order. *)

Local Abbreviation hN := (fun k : N => k) (only parsing).
Local Abbreviation P3 :=
  [OConstruct; OInsert 0 1%N 10%N; OInsert 0 2%N 20%N; OInsert 0 3%N 30%N]
  (only parsing).
Local Abbreviation E3 := [(1, 10); (2, 20); (3, 30)]%N (only parsing).

(** Re-inserting key 2 into the sample container. *)
Lemma insert_existing_key_is_noop_witness :
  exists w, exec hN 0%N P3 init_world = Some w /\
    to_list 0 w = Ok E3 w /\
    exists it v0,
      insert hN 0 (2, 99)%N w = Ok (it, false) w /\
      find hN 0 2%N w = Ok it w /\
      star it w = Ok (2%N, v0) w /\
      (2%N, v0) ∈ (E3 : list (N * N)).
Proof.
  eexists. split; [vm_compute; reflexivity|]. split; [vm_compute; reflexivity|].
  apply (insert_existing_key_is_noop hN 0%N P3).
  - vm_compute. reflexivity.
  - vm_compute. reflexivity.
  - compute_done.
Defined.

Local Abbreviation Q5 :=
  [OInsert 0 1%N 10%N; OInsert 0 2%N 20%N; OErase 0 (PFind 0 1%N);
   OInsert 0 2%N 99%N; OInsert 0 1%N 11%N]
  (only parsing).

(** Insert 1, insert 2, erase 1, re-insert 2, insert 1 again: the
    traversal yields 2 then 1. *)
Lemma iteration_follows_insertion_order_witness :
  forallb (insert_erase_on 0) (Q5 : list (op (Key:=N) (T:=N))) = true /\
  (N.of_nat (length (Q5 : list (op (Key:=N) (T:=N)))) < 2 ^ 53)%N /\
  m_exec 0%N Q5 [[]] !!! 0%nat = [(2, 20); (1, 11)]%N /\
  exists w, exec hN 0%N (OConstruct :: Q5) init_world = Some w /\
    to_list 0 w = Ok (m_exec 0%N Q5 [[]] !!! 0%nat) w /\
    forall k v, k ∈ (m_exec 0%N Q5 [[]] !!! 0%nat).*1 ->
      exec hN 0%N (OConstruct :: Q5 ++ [OInsert 0 k v]) init_world = Some w.
Proof.
  split; [reflexivity|]. split; [vm_compute; reflexivity|].
  split; [vm_compute; reflexivity|].
  apply (iteration_follows_insertion_order hN 0%N Q5).
  - reflexivity.
  - vm_compute. reflexivity.
Defined.

(** The round trip with the new key 4 on the sample container. *)
Lemma insert_find_erase_roundtrip_witness :
  exists w m, exec hN 0%N P3 init_world = Some w /\
    maps w !! 0%nat = Some m /\ ~ full m /\
    to_list 0 w = Ok E3 w /\
    exists it b w1 v1,
      insert hN 0 (4, 40)%N w = Ok (it, b) w1 /\
      find hN 0 4%N w1 = Ok it w1 /\
      star it w1 = Ok (4%N, v1) w1 /\
      (if b then (4%N ∉ (E3 : list (N * N)).*1) /\ v1 = 40%N
       else (4%N, v1) ∈ (E3 : list (N * N)) /\ w1 = w) /\
      exists w2 e, erase hN 0 it w1 = Ok tt w2 /\
        find hN 0 4%N w2 = Ok e w2 /\ end_ 0 w2 = Ok e w2.
Proof.
  eexists. eexists. split; [vm_compute; reflexivity|].
  split; [vm_compute; reflexivity|].
  assert (forall m : linked_hashmap, bucket_count m = 16%N -> ~ full m) as Hfull.
  { intros m Hbc [_ Hm]. rewrite Hbc in Hm. discriminate Hm. }
  split; [apply Hfull; reflexivity|]. split; [vm_compute; reflexivity|].
  eapply (insert_find_erase_roundtrip hN 0%N P3).
  - vm_compute. reflexivity.
  - vm_compute. reflexivity.
  - apply Hfull. reflexivity.
  - vm_compute. reflexivity.
Defined.

(** Access to key 2 of the sample container. *)
Lemma at_returns_value_or_throws_witness :
  exists w, exec hN 0%N P3 init_world = Some w /\
    to_list 0 w = Ok E3 w /\
    (forall v, (2%N, v) ∈ (E3 : list (N * N)) ->
       exists r, at_ hN 0 2%N w = Ok r w /\ at_const hN 0 2%N w = Ok r w /\
         index_const hN 0 2%N w = Ok r w /\ read_ref r w = Ok v w) /\
    ((2%N ∉ (E3 : list (N * N)).*1) ->
       at_ hN 0 2%N w = Raise index_out_of_bound w /\
       at_const hN 0 2%N w = Raise index_out_of_bound w /\
       index_const hN 0 2%N w = Raise index_out_of_bound w).
Proof.
  eexists. split; [vm_compute; reflexivity|]. split; [vm_compute; reflexivity|].
  apply (at_returns_value_or_throws hN 0%N P3).
  - vm_compute. reflexivity.
  - vm_compute. reflexivity.
Defined.

(** The end position of the sample container: [erase] and [++] throw,
    [--] steps back. *)
Lemma invalid_position_raises_witness :
  exists w p m, exec hN 0%N P3 init_world = Some w /\
    eval_pos hN (PEnd 0) w = Ok p w /\
    maps w !! 0%nat = Some m /\
    match erase hN 0 p w with
    | Raise ex w' =>
      ex = invalid_iterator /\ w' = w /\ (map p <> Some 0 \/ end_ 0 w = Ok p w)
    | Ok _ _ => map p = Some 0 /\ end_ 0 w <> Ok p w
    | Undef => False
    | Timeout => False
    end /\
    match incr p w with
    | Raise ex w' =>
      ex = invalid_iterator /\ w' = w /\
      (p = default_iterator \/ exists b, end_ b w = Ok p w) /\
      post_incr p w = Raise ex w'
    | Ok p' w' =>
      w' = w /\ p <> default_iterator /\ (forall b, end_ b w <> Ok p w) /\
      post_incr p w = Ok (p, p') w'
    | Undef => False
    | Timeout => False
    end /\
    match decr p w with
    | Raise ex w' =>
      ex = invalid_iterator /\ w' = w /\
      (p = default_iterator \/ exists b, begin b w = Ok p w) /\
      post_decr p w = Raise ex w'
    | Ok p' w' =>
      w' = w /\ p <> default_iterator /\ (forall b, begin b w <> Ok p w) /\
      post_decr p w = Ok (p, p') w'
    | Undef => False
    | Timeout => False
    end.
Proof.
  eexists. eexists. eexists. split; [vm_compute; reflexivity|].
  split; [vm_compute; reflexivity|]. split; [vm_compute; reflexivity|].
  eapply (invalid_position_raises hN 0%N P3 _ (PEnd 0)).
  - vm_compute. reflexivity.
  - vm_compute. reflexivity.
  - vm_compute. reflexivity.
Defined.

(** Dereferencing [find(2)] and [end()] on the sample container. *)
Lemma dereference_needs_interior_position_witness :
  exists w p q, exec hN 0%N P3 init_world = Some w /\
    eval_pos hN (PFind 0 2%N) w = Ok p w /\
    eval_pos hN (PEnd 0) w = Ok q w /\
    (p <> default_iterator /\ (forall b, end_ b w <> Ok p w) /\
     exists a es, map p = Some a /\ to_list a w = Ok es w /\ (2, 20)%N ∈ es) /\
    (q = default_iterator \/ exists b, end_ b w = Ok q w) /\
    star (Key:=N) (T:=N) default_iterator w = Undef.
Proof.
  eexists. eexists. eexists. split; [vm_compute; reflexivity|].
  edestruct (dereference_needs_interior_position hN 0%N P3) as (Hpos & _ & Hdef).
  { vm_compute. reflexivity. }
  match goal with
  | |- ?A /\ ?B /\ _ =>
    assert (Hp : A) by (vm_compute; reflexivity);
    assert (Hq : B) by (vm_compute; reflexivity)
  end.
  split; [exact Hp|]. split; [exact Hq|].
  split; [exact (proj2 (Hpos _ _ Hp))|]. split; [exact (Hpos _ _ Hq)|exact Hdef].
Defined.

(** A default position against [begin()] of the sample container. *)
Lemma default_position_is_inert_witness :
  exists w p, exec hN 0%N P3 init_world = Some w /\
    from_container (PBegin (Key:=N) 0) = true /\
    eval_pos hN (PBegin 0) w = Ok p w /\
    iter_eq default_iterator p = false /\ iter_eq p default_iterator = false /\
    iter_neq default_iterator p = true /\ iter_neq p default_iterator = true.
Proof.
  eexists. eexists. split; [vm_compute; reflexivity|]. split; [reflexivity|].
  match goal with
  | |- ?A /\ _ => assert (Hp : A) by (vm_compute; reflexivity); split; [exact Hp|]
  end.
  exact (proj1 (proj2 (proj2 (default_position_is_inert hN _ (PBegin 0) _ _
           0 (1, 1)%N default_iterator false init_world))) eq_refl Hp).
Defined.

(** Rehashing the sample container to 32 buckets. *)
Lemma rehash_only_rechains_witness :
  exists w m, exec hN 0%N P3 init_world = Some w /\
    maps w !! 0%nat = Some m /\ 32%N <> 0%N /\
    exists w', rehash hN 0 32%N w = Ok tt w' /\
      to_list 0 w' = Ok E3 w' /\
      dom (nodes w') = dom (nodes w) /\
      forall e, eval_pos hN e w' = in_world w' (eval_pos hN e w).
Proof.
  eexists. eexists.
  match goal with
  | |- ?A /\ ?B /\ _ =>
    assert (Hex : A) by (vm_compute; reflexivity);
    assert (Hm : B) by (vm_compute; reflexivity)
  end.
  split; [exact Hex|]. split; [exact Hm|]. split; [discriminate|].
  destruct (rehash_only_rechains hN 0%N P3 _ 0 _ 32%N Hex Hm ltac:(discriminate))
    as (w' & m' & l & es & Hrun & _ & _ & _ & _ & _ & _ & _ & _ & _ & Hl & Hl'
        & Hdom & _ & _ & _ & _ & Hpos & _).
  exists w'. split; [exact Hrun|]. split; [|split; [exact Hdom|exact Hpos]].
  vm_compute in Hl. injection Hl as <-. exact Hl'.
Defined.

(** Copies of the sample container. *)
Lemma copy_is_independent_witness :
  exists w m, exec hN 0%N P3 init_world = Some w /\
    maps w !! 0%nat = Some m /\
    to_list 0 w = Ok E3 w /\
    (N.of_nat (length (E3 : list (N * N))) < 2 ^ 53)%N /\
    exists la, order_nodes w 0 = Some la /\
      (exists w1, copy_construct hN 0 w = Ok (length (maps w)) w1 /\
         independent_copy hN 0 m la E3 (length (maps w)) w1) /\
      (forall b, b <> 0 -> is_Some (maps w !! b) ->
         exists w1, assign hN b 0 w = Ok tt w1 /\ independent_copy hN 0 m la E3 b w1) /\
      assign hN 0 0 w = Ok tt w.
Proof.
  eexists. eexists. split; [vm_compute; reflexivity|].
  split; [vm_compute; reflexivity|]. split; [vm_compute; reflexivity|].
  split; [vm_compute; reflexivity|].
  apply (copy_is_independent hN 0%N P3).
  - vm_compute. reflexivity.
  - vm_compute. reflexivity.
  - vm_compute. reflexivity.
  - vm_compute. reflexivity.
Defined.

Local Abbreviation K13 :=
  [(1, 1); (2, 2); (3, 3); (4, 4); (5, 5); (6, 6); (7, 7); (8, 8); (9, 9);
   (10, 10); (11, 11); (12, 12); (13, 13)]%N
  (only parsing).

(** The keys 1 to 13, each mapped to itself. *)
Lemma load_factor_exceeded_by_thirteenth_insert_witness :
  NoDup (K13 : list (N * N)).*1 /\ length (K13 : list (N * N)) = 13 /\
  exists w m, exec hN 0%N (OConstruct :: inserts 0 K13) init_world = Some w /\
    maps w !! 0%nat = Some m /\
    to_list 0 w = Ok K13 w /\
    size 0 w = Ok 13%N w /\
    bucket_count m = INITIAL_BUCKET_COUNT /\
    over_load_factor m = true /\
    (3 * bucket_count m < 4 * element_count m)%N.
Proof.
  split; [compute_done|]. split; [reflexivity|].
  apply (load_factor_exceeded_by_thirteenth_insert hN 0%N K13).
  - compute_done.
  - reflexivity.
Defined.

(** C9 as stated does not hold: dereferencing an end position does not
    fail.  On the sample container [*m.end()] dereferences the null [data]
    pointer of [tail]; the behaviour is undefined and no exception is
    thrown. *)
Lemma dereference_of_end_is_unchecked :
  exists w p, exec hN 0%N P3 init_world = Some w /\
    end_ 0 w = Ok p w /\
    star p w = Undef /\
    forall ex w', star p w <> Raise ex w'.
Proof.
  eexists. eexists. split; [vm_compute; reflexivity|].
  split; [vm_compute; reflexivity|]. split; [vm_compute; reflexivity|].
  intros ex w' Hstar. vm_compute in Hstar. discriminate Hstar.
Qed.

(** * Two hash functions *)

Section hash_independence.

Context {Key T : Type} `{EqDecision Key}.
Variables (h1 h2 : Key -> N) (d : T).

(** X20. What a traversal yields does not depend on the hash function:
    when the same client program runs to the end under two hash
    functions, every container iterates to the same list of entries in
    both runs. *)
Theorem traversal_is_independent_of_hash
    (ops : list (op (Key:=Key) (T:=T))) (w1 w2 : world) (a : mref)
    (es : list (Key * T)) :
  exec h1 d ops init_world = Some w1 -> exec h2 d ops init_world = Some w2 ->
  to_list a w1 = Ok es w1 -> to_list a w2 = Ok es w2.
Proof.
  intros Hex1 Hex2 Hlist.
  destruct (exec_init h1 d ops w1 Hex1) as (ls1 & Hinv1 & Hent1).
  destruct (exec_init h2 d ops w2 Hex2) as (ls2 & Hinv2 & Hent2).
  destruct (to_list_valid _ _ _ _ Hlist) as [m1 Ha1].
  destruct (winv_lookup h1 _ _ _ _ Hinv1 Ha1) as (l1 & ? & ? & ? & Hl1 & _).
  rewrite (to_list_winv h1 w1 ls1 a m1 l1 Hinv1 Ha1 Hl1) in Hlist.
  injection Hlist as <-.
  assert (length ls2 = length ls1) as Hlen.
  { rewrite <- (length_fmap (entries (nodes w2)) ls2), Hent2, <- Hent1.
    by rewrite length_fmap. }
  destruct (lookup_lt_is_Some_2 ls2 a) as [l2 Hl2].
  { rewrite Hlen. by eapply lookup_lt_Some. }
  destruct (lookup_lt_is_Some_2 (maps w2) a) as [m2 Ha2].
  { rewrite <- (winv_len h2 _ _ Hinv2), Hlen. by eapply lookup_lt_Some. }
  rewrite (to_list_winv h2 w2 ls2 a m2 l2 Hinv2 Ha2 Hl2). f_equal.
  assert ((entries (nodes w2) <$> ls2) !! a = (entries (nodes w1) <$> ls1) !! a) as Heq
    by (by rewrite Hent1, Hent2).
  rewrite !list_lookup_fmap, Hl1, Hl2 in Heq. by injection Heq.
Qed.

End hash_independence.

(** * The further properties on the concrete instance *)

(** Proves the first [n] conjuncts of the goal by evaluation. *)
Tactic Notation "sample_premises" integer(n) :=
  do n (match goal with
        | |- ?A /\ _ =>
          let H := fresh "Hsample" in
          assert (H : A) by (vm_compute; reflexivity); split; [exact H|]
        end).

(** Size and emptiness of the sample container. *)
Lemma size_counts_iterated_entries_witness :
  exists w, exec hN 0%N P3 init_world = Some w /\
    to_list 0 w = Ok E3 w /\
    size 0 w = Ok (N.of_nat (length (E3 : list (N * N)))) w /\
    empty 0 w = Ok (bool_decide ((E3 : list (N * N)) = [])) w /\
    exists b e, begin 0 w = Ok b w /\ end_ 0 w = Ok e w /\
      iter_eq b e = bool_decide ((E3 : list (N * N)) = []).
Proof.
  eexists. sample_premises 2.
  by apply (size_counts_iterated_entries hN 0%N P3).
Defined.

(** The keys of the sample container. *)
Lemma iteration_has_no_duplicate_key_witness :
  exists w, exec hN 0%N P3 init_world = Some w /\
    to_list 0 w = Ok E3 w /\
    NoDup (E3 : list (N * N)).*1.
Proof.
  eexists. sample_premises 2.
  by eapply (iteration_has_no_duplicate_key hN 0%N P3).
Defined.

(** Counting key 2 of the sample container. *)
Lemma count_is_membership_witness :
  exists w, exec hN 0%N P3 init_world = Some w /\
    to_list 0 w = Ok E3 w /\
    count hN 0 2%N w =
      Ok (if bool_decide (2%N ∈ (E3 : list (N * N)).*1) then 1 else 0)%N w /\
    exists p e, find hN 0 2%N w = Ok p w /\ end_ 0 w = Ok e w /\
      iter_neq p e = bool_decide (2%N ∈ (E3 : list (N * N)).*1).
Proof.
  eexists. sample_premises 2.
  by apply (count_is_membership hN 0%N P3).
Defined.

(** [m[4]] on the sample container, which lacks key 4. *)
Lemma index_finds_or_inserts_default_witness :
  exists w m, exec hN 0%N P3 init_world = Some w /\
    maps w !! 0%nat = Some m /\
    to_list 0 w = Ok E3 w /\
    ~ full m /\
    exists r w', index hN 0%N 0 4%N w = Ok r w' /\
      (forall v, (4%N, v) ∈ (E3 : list (N * N)) -> w' = w /\ read_ref r w = Ok v w) /\
      ((4%N ∉ (E3 : list (N * N)).*1) ->
         read_ref r w' = Ok 0%N w' /\
         to_list 0 w' = Ok (E3 ++ [(4%N, 0%N)]) w' /\
         size 0 w' = Ok (N.of_nat (S (length (E3 : list (N * N))))) w').
Proof.
  eexists. eexists. sample_premises 3.
  assert (forall m : linked_hashmap, bucket_count m = 16%N -> ~ full m) as Hfull.
  { intros m Hbc [_ Hm]. rewrite Hbc in Hm. discriminate Hm. }
  split; [by apply Hfull|].
  eapply (index_finds_or_inserts_default hN 0%N P3); try eassumption. by apply Hfull.
Defined.

(** [m.at(2) = 99] on the sample container. *)
Lemma at_reference_writes_one_value_witness :
  exists w, exec hN 0%N P3 init_world = Some w /\
    to_list 0 w = Ok E3 w /\
    (2, 20)%N ∈ (E3 : list (N * N)) /\
    exists r w', at_ hN 0 2%N w = Ok r w /\ write_ref r 99%N w = Ok tt w' /\
      read_ref r w' = Ok 99%N w' /\ at_ hN 0 2%N w' = Ok r w' /\
      to_list 0 w' = Ok (m_write 2%N 99%N E3) w' /\
      (m_write 2%N 99%N E3).*1 = (E3 : list (N * N)).*1 /\
      (forall k1 v1, k1 <> 2%N ->
         (k1, v1) ∈ m_write 2%N 99%N E3 <-> (k1, v1) ∈ (E3 : list (N * N))) /\
      (forall b, b <> 0 -> to_list b w' = in_world w' (to_list b w)).
Proof.
  eexists. sample_premises 2.
  assert ((2, 20)%N ∈ (E3 : list (N * N))) as Hin by compute_done.
  split; [exact Hin|].
  by eapply (at_reference_writes_one_value hN 0%N P3).
Defined.

(** [m.erase(m.find(2))] on the sample container. *)
Lemma erase_removes_one_entry_witness :
  exists w p, exec hN 0%N P3 init_world = Some w /\
    to_list 0 w = Ok E3 w /\
    eval_pos hN (PFind 0 2%N) w = Ok p w /\
    map p = Some 0 /\
    star p w = Ok (2, 20)%N w /\
    exists i w' m m', (E3 : list (N * N)) !! i = Some (2, 20)%N /\
      erase hN 0 p w = Ok tt w' /\
      to_list 0 w' = Ok (delete i E3) w' /\
      size 0 w' = Ok (N.of_nat (length (E3 : list (N * N)) - 1)) w' /\
      maps w !! 0%nat = Some m /\ maps w' !! 0%nat = Some m' /\
      bucket_count m' = bucket_count m /\
      star p w' = Undef /\
      (forall q kv', node q <> node p -> star q w = Ok kv' w -> star q w' = Ok kv' w') /\
      (forall b, b <> 0 -> to_list b w' = in_world w' (to_list b w)).
Proof.
  eexists. eexists. sample_premises 5.
  by eapply (erase_removes_one_entry hN 0%N P3).
Defined.


(** [++] then [--] from [begin()] of the sample container. *)
Lemma increment_decrement_round_trip_witness :
  exists w p q, exec hN 0%N P3 init_world = Some w /\
    eval_pos hN (PBegin 0) w = Ok p w /\
    incr p w = Ok q w /\
    decr q w = Ok p w.
Proof.
  eexists. eexists. eexists. sample_premises 3.
  exact (proj1 (increment_decrement_round_trip hN 0%N P3 _ (PBegin 0) _ _
                  Hsample Hsample0) Hsample1).
Defined.

(** The sample container walked backwards. *)
Lemma backward_traversal_is_reverse_witness :
  exists w, exec hN 0%N P3 init_world = Some w /\
    to_list 0 w = Ok E3 w /\
    to_list_back 0 w = Ok (reverse E3) w.
Proof.
  eexists. sample_premises 2.
  by apply (backward_traversal_is_reverse hN 0%N P3).
Defined.

(** A second container beside the sample one. *)
Lemma construct_gives_empty_container_witness :
  exists w, exec hN 0%N P3 init_world = Some w /\
    exists w' m', construct w = Ok (length (maps w)) w' /\
      maps w' = maps w ++ [m'] /\
      bucket_count m' = INITIAL_BUCKET_COUNT /\
      length (buckets m') = N.to_nat INITIAL_BUCKET_COUNT /\
      to_list (length (maps w)) w' = Ok [] w' /\
      size (length (maps w)) w' = Ok 0%N w' /\
      empty (length (maps w)) w' = Ok true w' /\
      (forall b, b <> length (maps w) -> to_list b w' = in_world w' (to_list b w)).
Proof.
  eexists. sample_premises 1.
  by apply (construct_gives_empty_container hN 0%N P3).
Defined.

(** [m.clear()] on the sample container. *)
Lemma clear_empties_container_witness :
  exists w m, exec hN 0%N P3 init_world = Some w /\
    maps w !! 0%nat = Some m /\
    to_list 0 w = Ok E3 w /\
    exists w' m' la, clear 0 w = Ok tt w' /\ maps w' !! 0%nat = Some m' /\
      head m' = head m /\ tail m' = tail m /\ bucket_count m' = bucket_count m /\
      to_list 0 w' = Ok [] w' /\ size 0 w' = Ok 0%N w' /\ empty 0 w' = Ok true w' /\
      order_nodes w 0 = Some la /\ order_nodes w' 0 = Some [] /\
      (forall x, x ∈ la -> nodes w' !! x = None) /\
      (forall e p kv, eval_pos hN e w = Ok p w -> map p = Some 0 ->
         star p w = Ok kv w -> star p w' = Undef) /\
      (forall b, b <> 0 -> to_list b w' = in_world w' (to_list b w)).
Proof.
  eexists. eexists. sample_premises 3.
  by eapply (clear_empties_container hN 0%N P3).
Defined.


(** [operator->] on [end()] of the sample container. *)
Lemma arrow_returns_entry_or_null_witness :
  exists w p, exec hN 0%N P3 init_world = Some w /\
    eval_pos hN (PEnd 0) w = Ok p w /\
    arrow p w = Ok None w /\
    (exists b, end_ b w = Ok p w) /\ star p w = Undef.
Proof.
  eexists. eexists. sample_premises 3.
  exact (proj2 (arrow_returns_entry_or_null hN 0%N P3 _ (PEnd 0) _ Hsample Hsample0)).
Defined.

(** The sample program against the list model. *)
Lemma program_refines_list_model_witness :
  exists w, exec hN 0%N P3 init_world = Some w /\
    length (m_exec 0%N P3 []) = length (maps w) /\
    forall a, a < length (maps w) -> to_list a w = Ok (m_exec 0%N P3 [] !!! a) w.
Proof.
  eexists. sample_premises 1.
  by apply (program_refines_list_model hN 0%N P3).
Defined.

(** An insertion into a container that was never constructed. *)
Lemma program_stops_only_at_undefined_call_witness :
  exec hN 0%N [OInsert 0 1%N 10%N] init_world = None /\
  exists ops1 o ops2 w1, [OInsert 0 1%N 10%N] = ops1 ++ o :: ops2 /\
    exec hN 0%N ops1 init_world = Some w1 /\ undefined_call w1 o.
Proof.
  sample_premises 1.
  by apply (program_stops_only_at_undefined_call hN 0%N).
Defined.

(** [m.at(4) = 7] on the sample container, which lacks key 4. *)
Lemma exceptions_leave_state_unchanged_witness :
  exists w ex w', exec hN 0%N P3 init_world = Some w /\
    run_op hN 0%N (OAt 0 4%N 7%N) w = Raise ex w' /\
    w' = w /\ ex = index_out_of_bound.
Proof.
  eexists. eexists. eexists. sample_premises 2.
  exact (exceptions_leave_state_unchanged hN 0%N P3 _ (OAt 0 4%N 7%N) _ _
           Hsample Hsample0).
Defined.

(** The destructor on the sample container. *)
Lemma destroy_frees_own_nodes_witness :
  exists w m, exec hN 0%N P3 init_world = Some w /\
    maps w !! 0%nat = Some m /\
    to_list 0 w = Ok E3 w /\
    exists w' la, destroy 0 w = Ok tt w' /\ order_nodes w 0 = Some la /\
      (forall x, owns m la x -> nodes w' !! x = None) /\
      (forall x, ~ owns m la x -> nodes w' !! x = nodes w !! x) /\
      next_loc w' = next_loc w /\
      (forall b, b <> 0 ->
         maps w' !! b = maps w !! b /\ to_list b w' = in_world w' (to_list b w)).
Proof.
  eexists. eexists. sample_premises 3.
  by eapply (destroy_frees_own_nodes hN 0%N P3).
Defined.

(** Bucket 2 of the sample container. *)
Lemma hash_index_is_exact_witness :
  exists w m, exec hN 0%N P3 init_world = Some w /\
    maps w !! 0%nat = Some m /\
    2 < length (buckets m) /\
    exists c la, bucket_chain w 0 2 = Some c /\ order_nodes w 0 = Some la /\
      NoDup c /\
      forall x, x ∈ c <->
        x ∈ la /\ exists k v, entry_of (nodes w) x = Some (k, v) /\
                              (k mod bucket_count m)%N = N.of_nat 2.
Proof.
  eexists. eexists. sample_premises 2.
  match goal with |- ?A /\ _ => assert (Hlt : A) by (vm_compute; lia) end.
  split; [exact Hlt|].
  by eapply (hash_index_is_exact hN 0%N P3).
Defined.

(** Using [m.find(2)] after [m.erase(m.find(2))]. *)
Lemma erased_position_is_invalidated_witness :
  exists w p w', exec hN 0%N P3 init_world = Some w /\
    eval_pos hN (PFind 0 2%N) w = Ok p w /\
    map p = Some 0 /\
    star p w = Ok (2, 20)%N w /\
    erase hN 0 p w = Ok tt w' /\
    star p w' = Undef /\ arrow p w' = Undef /\
    incr p w' = Undef /\ decr p w' = Undef /\
    post_incr p w' = Undef /\ post_decr p w' = Undef /\
    erase hN 0 p w' = Undef.
Proof.
  eexists. eexists. eexists. sample_premises 5.
  by eapply (erased_position_is_invalidated hN 0%N P3).
Defined.

(** The sample program under the identity hash and under a constant one. *)
Lemma traversal_is_independent_of_hash_witness :
  exists w1 w2, exec hN 0%N P3 init_world = Some w1 /\
    exec (fun _ : N => 0%N) 0%N P3 init_world = Some w2 /\
    to_list 0 w1 = Ok E3 w1 /\
    to_list 0 w2 = Ok E3 w2.
Proof.
  eexists. eexists. sample_premises 3.
  by eapply (traversal_is_independent_of_hash hN (fun _ : N => 0%N) 0%N P3).
Defined.
